(** * Pure64 image tool: a shallow embedding of the format and layout engine

    The development follows two source files of the repository:
    - [src/lib/dir.c]: the directory tree, its name-checked inserts and
      its binary codec;
    - [src/util/pure64.c]: the CRC-32 routine, the GPT header builder
      with its checksum pass, the [init] command, the image assembly
      of [ramfs_export] and its reading side [ramfs_import], the stream
      callbacks and the option handling of [main].

    Integers of the C code are kept in [Z] with their wrap-around written
    out; bytes are [Byte.byte]; a [FILE] is a byte list with a position. *)

From Stdlib Require Import ZArith List Lia Bool.
From Stdlib Require Import Strings.Byte.
Import ListNotations.
Local Open Scope Z_scope.

(** ** Bytes and fixed-width integers *)

Definition byte_to_Z (b : byte) : Z := Z.of_N (Byte.to_N b).

Definition byte_of_Z (z : Z) : byte :=
  match Byte.of_N (Z.to_N (z mod 256)) with
  | Some b => b
  | None => x00
  end.

(** Wrap-around of the unsigned C types. *)
Definition u32 (z : Z) : Z := z mod 2 ^ 32.
Definition u64 (z : Z) : Z := z mod 2 ^ 64.

Definition LONG_MAX : Z := 2 ^ 63 - 1.

(** Conversion of a 64-bit unsigned value to [long int] (the offset
    argument of [fseek]). *)
Definition to_long (z : Z) : Z :=
  if u64 z <=? LONG_MAX then u64 z else u64 z - 2 ^ 64.

(** The object representation of an [n]-byte unsigned integer on the
    x86-64 host the tool is built for: least significant byte first.
    This is what [fwrite (&x, 1, n, file)] stores and what
    [fread (&x, 1, n, file)] reads back. *)
Fixpoint le_bytes (n : nat) (v : Z) : list byte :=
  match n with
  | O => []
  | S n' => byte_of_Z v :: le_bytes n' (v / 256)
  end.

Fixpoint le_value (bs : list byte) : Z :=
  match bs with
  | [] => 0
  | b :: rest => byte_to_Z b + 256 * le_value rest
  end.

Definition zeros (n : Z) : list byte := repeat x00 (Z.to_nat n).

(** ** C streams ([FILE *]) *)

(** An open file: its contents and the current position.  The medium
    grows on demand and never runs out of room; a position past the end
    is allowed and a write there fills the gap with zero bytes. *)
Record FILE : Type := mkFILE { f_data : list byte; f_pos : Z }.

(** [fopen (filename, "wb+")]: create or truncate, position 0.  The
    call is taken to succeed; a run in which it returns [NULL] ends
    there with [EXIT_FAILURE] and is not followed by the model. *)
Definition fopen_wb : FILE := mkFILE [] 0.

Definition store (data : list byte) (pos : Z) (buf : list byte) : list byte :=
  match buf with
  | [] => data
  | _ :: _ =>
      firstn (Z.to_nat pos) data
        ++ zeros (pos - Z.of_nat (length data))
        ++ buf
        ++ skipn (Z.to_nat pos + length buf) data
  end.

Definition load (data : list byte) (pos : Z) (n : Z) : list byte :=
  firstn (Z.to_nat n) (skipn (Z.to_nat pos) data).

(** [fseek (file, offset, SEEK_SET)]: nonzero on a negative offset. *)
Definition fseek (f : FILE) (offset : Z) : Z * FILE :=
  if offset <? 0 then (-1, f) else (0, mkFILE (f_data f) offset).

(** [ftell]: the position.  The model keeps it as an unbounded integer
    where C holds it in a [long]; the two agree up to [LONG_MAX]. *)
Definition ftell (f : FILE) : Z := f_pos f.

(** [fwrite (buf, 1, n, file)] with [buf] holding the [n] bytes: the
    number of bytes written and the new state. *)
Definition fwrite (buf : list byte) (f : FILE) : Z * FILE :=
  (Z.of_nat (length buf),
   mkFILE (store (f_data f) (f_pos f) buf) (f_pos f + Z.of_nat (length buf))).

(** [fread (buf, 1, n, file)]: the bytes obtained (fewer than [n] at the
    end of the file) and the new state. *)
Definition fread (n : Z) (f : FILE) : list byte * FILE :=
  let avail := Z.max 0 (Z.of_nat (length (f_data f)) - f_pos f) in
  let got := load (f_data f) (f_pos f) (Z.min n avail) in
  (got, mkFILE (f_data f) (f_pos f + Z.of_nat (length got))).

Definition fputc (c : byte) (f : FILE) : FILE := snd (fwrite [c] f).

(** ** [src/util/pure64.c]: constants *)

Definition PURE64_MINIMUM_DISK_SIZE : Z := 1 * 1024 * 1024.
Definition GPT_PARTITION_HEADER_SIZE : Z := 128.
Definition GPT_PARTITION_HEADER_COUNT : Z := 128.
Definition GPT_HEADER_SIZE : Z := 92.

Definition EXIT_SUCCESS : Z := 0.
Definition EXIT_FAILURE : Z := 1.

(** [zero_file_data]: [size] calls of [fputc (0, file)]. *)
Fixpoint zero_file_data_loop (size : nat) (file : FILE) : FILE :=
  match size with
  | O => file
  | S size' => zero_file_data_loop size' (fputc x00 file)
  end.

Definition zero_file_data (file : FILE) (size : Z) : FILE :=
  zero_file_data_loop (Z.to_nat size) file.

(** ** [src/util/pure64.c]: [crc32] *)

(** The inner loop: [mask = -(crc & 1); crc = (crc >> 1) ^ (0xEDB88320 & mask)],
    all in [uint32_t]. *)
Definition crc32_bit (crc : Z) : Z :=
  let mask := u32 (- Z.land crc 1) in
  Z.lxor (Z.shiftr crc 1) (Z.land 0xEDB88320 mask).

Definition crc32_byte (crc : Z) (b : byte) : Z :=
  let byte := byte_to_Z b in
  let crc := Z.lxor crc byte in
  Nat.iter 8 crc32_bit crc.

Definition crc32 (buf : list byte) : Z :=
  let crc := 0xFFFFFFFF in
  let crc := fold_left crc32_byte buf crc in
  u32 (Z.lnot crc).

(** The checksum as the specification words it: a register that starts
    at 0xFFFFFFFF; for every byte, XOR the byte in and do eight rounds of
    "shift right by one, XOR the polynomial in when the bit shifted out
    was set"; the result is the complement of the register. *)
Definition crc32_round_reference (reg : Z) : Z :=
  if Z.testbit reg 0
  then Z.lxor (Z.shiftr reg 1) 0xEDB88320
  else Z.shiftr reg 1.

Definition crc32_byte_reference (reg : Z) (b : byte) : Z :=
  Nat.iter 8 crc32_round_reference (Z.lxor reg (byte_to_Z b)).

Fixpoint crc32_register_reference (reg : Z) (input : list byte) : Z :=
  match input with
  | [] => reg
  | b :: rest => crc32_register_reference (crc32_byte_reference reg b) rest
  end.

Definition crc32_reference (input : list byte) : Z :=
  Z.lxor (crc32_register_reference 0xFFFFFFFF input) 0xFFFFFFFF.

(** ** Status codes and the allocator of the library *)

(** [int] results of the library: 0 on success, otherwise one of the
    [PURE64_E...] codes of [pure64/error.h].  That header is not part of
    the source files, so the codes stay symbolic; what is used about
    them is the convention [dir.c] itself tests with [err != 0]: every
    code differs from the success value 0. *)
Inductive status : Type :=
| OK
| PURE64_ENOMEM
| PURE64_EEXIST
| PURE64_EIO
| PURE64_EINVAL.

(** [err != 0] *)
Definition is_error (err : status) : bool :=
  match err with
  | OK => false
  | _ => true
  end.

(** The C allocator is part of the environment.  Its behaviour is an
    oracle: the sequence of outcomes of the requests still to come,
    [true] for a block, [false] for [NULL].  The size requested does not
    enter the oracle; any pattern of failures is one such sequence. *)
Definition heap : Type := nat -> bool.

Definition pure64_malloc (h : heap) : bool * heap := (h O, fun n => h (S n)).
Definition pure64_realloc (h : heap) : bool * heap := (h O, fun n => h (S n)).

(** An allocator that never fails. *)
Definition plentiful : heap := fun _ => true.

(** ** [include/pure64/string.h] *)

(** A C string is given by the bytes that follow the pointer; reading
    stops at the first zero byte, and a terminator follows the last byte
    of the list. *)
Fixpoint pure64_strlen (str : list byte) : Z :=
  match str with
  | [] => 0
  | c :: rest => if Byte.eqb c x00 then 0 else 1 + pure64_strlen rest
  end.

(** "If a byte at a is greater than the byte at b, then one is returned.
    If they are equal then zero is returned.  Otherwise, a negative one
    is returned." *)
Fixpoint pure64_strcmp (a b : list byte) : Z :=
  match a, b with
  | [], [] => 0
  | [], y :: _ => if Byte.eqb y x00 then 0 else -1
  | x :: _, [] => if Byte.eqb x x00 then 0 else 1
  | x :: a', y :: b' =>
      if byte_to_Z x >? byte_to_Z y then 1
      else if byte_to_Z x <? byte_to_Z y then -1
      else if Byte.eqb x x00 then 0
      else pure64_strcmp a' b'
  end.

(** [pure64_memcpy (dst, src, size)]: the [size] bytes copied. *)
Definition pure64_memcpy (src : list byte) (size : Z) : list byte :=
  firstn (Z.to_nat size) src.

(** The bytes of a C string up to its terminator. *)
Definition c_str (s : list byte) : list byte :=
  pure64_memcpy s (pure64_strlen s).

(** ** [src/lib/dir.c]: the directory tree *)

(** Modelled from the spec: [struct pure64_file] ([pure64/file.h]) is
    not among the source files; a FileNode is a "name (unique among
    siblings), byte buffer, buffer length".  The name holds [name_size]
    bytes and the buffer [data_size] bytes. *)
Record pure64_file : Type := mkfile {
  file_name : list byte;
  file_data : list byte
}.

(** [struct pure64_dir]: [name] holds [name_size] bytes (a null pointer
    with [name_size = 0] is the empty list), [subdirs] holds
    [subdir_count] directories and [files] holds [file_count] files. *)
#[local] Unset Elimination Schemes.
Inductive pure64_dir : Type :=
  mkdir (name : list byte) (subdirs : list pure64_dir) (files : list pure64_file).

#[local] Set Elimination Schemes.

Definition dir_name (d : pure64_dir) : list byte :=
  match d with mkdir name _ _ => name end.
Definition dir_subdirs (d : pure64_dir) : list pure64_dir :=
  match d with mkdir _ subdirs _ => subdirs end.
Definition dir_files (d : pure64_dir) : list pure64_file :=
  match d with mkdir _ _ files => files end.

Definition name_size (d : pure64_dir) : Z := Z.of_nat (length (dir_name d)).
Definition subdir_count (d : pure64_dir) : Z := Z.of_nat (length (dir_subdirs d)).
Definition file_count (d : pure64_dir) : Z := Z.of_nat (length (dir_files d)).

Definition file_name_size (f : pure64_file) : Z := Z.of_nat (length (file_name f)).
Definition file_data_size (f : pure64_file) : Z := Z.of_nat (length (file_data f)).

Definition pure64_dir_init : pure64_dir := mkdir [] [] [].

(** Modelled from the spec: [pure64_file_init] ([file.c]) is not among
    the source files; it is the file counterpart of [pure64_dir_init]: no
    name, no data. *)
Definition pure64_file_init : pure64_file := mkfile [] [].

Definition pure64_dir_set_name (dir : pure64_dir) (name : list byte) (h : heap)
  : status * pure64_dir * heap :=
  let name_size := pure64_strlen name in
  let '(tmp_name, h) := pure64_malloc h in
  if negb tmp_name then (PURE64_ENOMEM, dir, h)
  else
    let tmp_name := pure64_memcpy name name_size in
    (OK, mkdir tmp_name (dir_subdirs dir) (dir_files dir), h).

Definition pure64_dir_name_exists (dir : pure64_dir) (name : list byte) : bool :=
  existsb (fun f => pure64_strcmp (file_name f) name =? 0) (dir_files dir)
  || existsb (fun d => pure64_strcmp (dir_name d) name =? 0) (dir_subdirs dir).

(** The inserts.  The tree is a value here, without addresses: that
    [realloc] may move the array while [dir->files] is assigned only on
    success is outside what this embedding describes. *)
Section AddFile.

(** [pure64_file_set_name] lives in [file.c], which is not among the
    source files: it is a parameter of the insert.  It receives the fresh
    file and the name and yields its status and the file as it left
    it. *)
Variable pure64_file_set_name :
  pure64_file -> list byte -> heap -> status * pure64_file * heap.

Definition pure64_dir_add_file (dir : pure64_dir) (name : list byte) (h : heap)
  : status * pure64_dir * heap :=
  if pure64_dir_name_exists dir name then (PURE64_EEXIST, dir, h)
  else
    let '(files, h) := pure64_realloc h in
    if negb files then (PURE64_ENOMEM, dir, h)
    else
      let '(err, file, h) := pure64_file_set_name pure64_file_init name h in
      if is_error err then (err, dir, h)
      else (OK, mkdir (dir_name dir) (dir_subdirs dir) (dir_files dir ++ [file]), h).

End AddFile.

Definition pure64_dir_add_subdir (dir : pure64_dir) (name : list byte) (h : heap)
  : status * pure64_dir * heap :=
  if pure64_dir_name_exists dir name then (PURE64_EEXIST, dir, h)
  else
    let '(subdirs, h) := pure64_realloc h in
    if negb subdirs then (PURE64_ENOMEM, dir, h)
    else
      let '(err, subdir, h) := pure64_dir_set_name pure64_dir_init name h in
      if is_error err then (err, dir, h)
      else (OK, mkdir (dir_name dir) (dir_subdirs dir ++ [subdir]) (dir_files dir), h).

(** A file name setter shaped like [pure64_dir_set_name], to run the
    inserts on concrete inputs. *)
Definition file_set_name_like_dir (file : pure64_file) (name : list byte) (h : heap)
  : status * pure64_file * heap :=
  let '(tmp_name, h) := pure64_malloc h in
  if negb tmp_name then (PURE64_ENOMEM, file, h)
  else (OK, mkfile (c_str name) (file_data file), h).

(** ** Streams of the library, backed by a [FILE] *)

(** The stream callbacks [pure64.c] installs. *)
Definition fstream_set_pos (pos_ptr : Z) (file : FILE) : status * FILE :=
  if pos_ptr >? LONG_MAX then (PURE64_EINVAL, file)
  else
    let '(err, file) := fseek file pos_ptr in
    if negb (err =? 0) then (PURE64_EIO, file) else (OK, file).

Definition fstream_get_pos (file : FILE) : status * Z :=
  let pos := ftell file in
  if pos =? -1 then (PURE64_EIO, 0) else (OK, pos).

Definition fstream_write (buf : list byte) (file : FILE) : status * FILE :=
  let '(n, file) := fwrite buf file in
  if negb (n =? Z.of_nat (length buf)) then (PURE64_EIO, file) else (OK, file).

Definition fstream_read (buf_size : Z) (file : FILE) : status * list byte * FILE :=
  let '(buf, file) := fread buf_size file in
  if negb (Z.of_nat (length buf) =? buf_size) then (PURE64_EIO, buf, file)
  else (OK, buf, file).

(** The codec runs against a stream and the allocator, and stops at the
    first call that reports an error. *)
Record world : Type := mkworld { io : FILE; mem : heap }.

Inductive result (A : Type) : Type :=
| Done (a : A) (w : world)
| Failed (err : status) (w : world)
| Starved.
Arguments Done {A} a w.
Arguments Failed {A} err w.
Arguments Starved {A}.

Definition M (A : Type) : Type := world -> result A.

Definition ret {A : Type} (a : A) : M A := fun w => Done a w.

Definition fail {A : Type} (err : status) : M A := fun w => Failed err w.

Definition bind {A B : Type} (m : M A) (k : A -> M B) : M B :=
  fun w =>
    match m w with
    | Done a w' => k a w'
    | Failed err w' => Failed err w'
    | Starved => Starved
    end.

Declare Scope codec_scope.
Delimit Scope codec_scope with codec.
Notation "x <- m ;; k" := (bind m (fun x => k))
  (at level 61, m at next level, right associativity) : codec_scope.
Notation "m ;; k" := (bind m (fun _ => k))
  (at level 61, right associativity) : codec_scope.
Local Open Scope codec_scope.

(** Modelled from the spec: [pure64_stream_write] and
    [pure64_stream_read] ([stream.c]) are not among the source files; they
    "must transfer exactly n bytes or fail with an I/O error", which is
    what the installed callbacks do. *)
Definition pure64_stream_write (buf : list byte) : M unit :=
  fun w =>
    let '(err, file) := fstream_write buf (io w) in
    if is_error err then Failed err (mkworld file (mem w))
    else Done tt (mkworld file (mem w)).

Definition pure64_stream_read (buf_size : Z) : M (list byte) :=
  fun w =>
    let '(err, buf, file) := fstream_read buf_size (io w) in
    if is_error err then Failed err (mkworld file (mem w))
    else Done buf (mkworld file (mem w)).

(** Modelled from the spec: [encode_uint64] and [decode_uint64]
    ([misc.h]) are not among the source files; counts travel "as
    fixed-width 64-bit unsigned integers", "in host-native width/order". *)
Definition encode_uint64 (n : Z) : M unit := pure64_stream_write (le_bytes 8 n).

Definition decode_uint64 : M Z :=
  buf <- pure64_stream_read 8 ;; ret (le_value buf).

(** A request to the allocator from inside the codec: [true] when a
    block was obtained. *)
Definition allocate : M bool :=
  fun w => let '(ok, h) := pure64_malloc (mem w) in Done ok (mkworld (io w) h).

(** [for (i = 0; i < count; i++) { err = f (&array[i], out); if (err != 0) return err; }] *)
Definition for_each {A : Type} (f : A -> M unit) : list A -> M unit :=
  fix loop (array : list A) : M unit :=
    match array with
    | [] => ret tt
    | x :: rest => f x ;; loop rest
    end.

(** The same loop on the reading side: [count] slots filled in order. *)
Fixpoint fill_each {A : Type} (count : nat) (f : M A) : M (list A) :=
  match count with
  | O => ret []
  | S count' => x <- f ;; rest <- fill_each count' f ;; ret (x :: rest)
  end.

(** Modelled from the spec: [pure64_file_export] and
    [pure64_file_import] ([file.c]) are not among the source files; "file
    encoding mirrors the directory header shape plus the raw data
    payload bytes", and decoding mirrors encoding: the sizes of name and
    data, the name bytes, the data bytes. *)
Definition pure64_file_export (file : pure64_file) : M unit :=
  encode_uint64 (file_name_size file) ;;
  encode_uint64 (file_data_size file) ;;
  pure64_stream_write (file_name file) ;;
  pure64_stream_write (file_data file).

Definition pure64_file_import : M pure64_file :=
  name_size <- decode_uint64 ;;
  data_size <- decode_uint64 ;;
  name <- allocate ;;
  data <- allocate ;;
  if negb name || negb data then fail PURE64_ENOMEM
  else
    name <- pure64_stream_read name_size ;;
    data <- pure64_stream_read data_size ;;
    ret (mkfile name data).

(** [pure64_dir_export] *)
Fixpoint pure64_dir_export (dir : pure64_dir) : M unit :=
  match dir with
  | mkdir name subdirs files =>
      encode_uint64 (Z.of_nat (length name)) ;;
      encode_uint64 (Z.of_nat (length subdirs)) ;;
      encode_uint64 (Z.of_nat (length files)) ;;
      pure64_stream_write name ;;
      for_each pure64_dir_export subdirs ;;
      for_each pure64_file_export files
  end.

(** [pure64_dir_import].  The C function recurses once per directory
    found in the stream; [fuel] bounds the nesting the model follows and
    [Starved] reports that the bound was hit.  The sizes of the three
    requests ([name_size + 1] and the two counts times the size of an
    element, computed in [uint64_t]) and the two loops that initialise
    the slots before anything is read into them are not followed: the
    model stands for the C function on streams whose counts do not make
    these sizes wrap. *)
Fixpoint pure64_dir_import_fuel (fuel : nat) : M pure64_dir :=
  match fuel with
  | O => fun _ => Starved
  | S fuel' =>
      name_size <- decode_uint64 ;;
      subdir_count <- decode_uint64 ;;
      file_count <- decode_uint64 ;;
      name <- allocate ;;
      subdirs <- allocate ;;
      files <- allocate ;;
      if negb name || negb subdirs || negb files then fail PURE64_ENOMEM
      else
        name <- pure64_stream_read name_size ;;
        subdirs <- fill_each (Z.to_nat subdir_count) (pure64_dir_import_fuel fuel') ;;
        files <- fill_each (Z.to_nat file_count) pure64_file_import ;;
        ret (mkdir name subdirs files)
  end.

(** Every directory of the stream takes at least the 24 bytes of its
    three counts, so the nesting cannot exceed the length of the medium:
    with this budget [Starved] never comes out
    ([pure64_dir_import_total]). *)
Definition pure64_dir_import : M pure64_dir :=
  fun w => pure64_dir_import_fuel (S (length (f_data (io w)))) w.

(** The wire image of a tree: what [pure64_dir_export] sends. *)
Definition file_bytes (file : pure64_file) : list byte :=
  le_bytes 8 (file_name_size file) ++ le_bytes 8 (file_data_size file)
    ++ file_name file ++ file_data file.

Fixpoint dir_bytes (dir : pure64_dir) : list byte :=
  match dir with
  | mkdir name subdirs files =>
      le_bytes 8 (Z.of_nat (length name))
        ++ le_bytes 8 (Z.of_nat (length subdirs))
        ++ le_bytes 8 (Z.of_nat (length files))
        ++ name
        ++ flat_map dir_bytes subdirs
        ++ flat_map file_bytes files
  end.

(** Well-formed trees. *)
Definition All {A : Type} (P : A -> Prop) : list A -> Prop :=
  fix all (l : list A) : Prop :=
    match l with
    | [] => True
    | x :: rest => P x /\ all rest
    end.

(** The counts of a tree held in C structs are [uint64_t] values. *)
Definition file_fits (file : pure64_file) : Prop :=
  file_name_size file < 2 ^ 64 /\ file_data_size file < 2 ^ 64.

Fixpoint dir_fits (dir : pure64_dir) : Prop :=
  match dir with
  | mkdir name subdirs files =>
      Z.of_nat (length name) < 2 ^ 64
      /\ Z.of_nat (length subdirs) < 2 ^ 64
      /\ Z.of_nat (length files) < 2 ^ 64
      /\ All file_fits files
      /\ All dir_fits subdirs
  end.

(** The names of the children of a directory, as the C strings
    [pure64_dir_name_exists] compares. *)
Definition sibling_names (dir : pure64_dir) : list (list byte) :=
  map (fun f => c_str (file_name f)) (dir_files dir)
    ++ map (fun d => c_str (dir_name d)) (dir_subdirs dir).

(** No two children of a directory share a name, at every level. *)
Fixpoint unique_sibling_names (dir : pure64_dir) : Prop :=
  match dir with
  | mkdir name subdirs files =>
      NoDup (sibling_names (mkdir name subdirs files))
      /\ All unique_sibling_names subdirs
  end.

Fixpoint height (dir : pure64_dir) : nat :=
  match dir with
  | mkdir _ subdirs _ => S (fold_right (fun d acc => Nat.max (height d) acc) O subdirs)
  end.

(** ** [src/util/pure64.c]: the checksum pass *)

Definition calculate_header_checksum (file : FILE) (header_location : Z) : Z * FILE :=
  let '(err, file) := fseek file header_location in
  if negb (err =? 0) then (EXIT_FAILURE, file)
  else
    let buf_size := GPT_HEADER_SIZE in
    let '(buf, file) := fread buf_size file in
    if negb (Z.of_nat (length buf) =? buf_size) then (EXIT_FAILURE, file)
    else
      let checksum := crc32 buf in
      let '(err, file) := fseek file (header_location + 16) in
      if negb (err =? 0) then (EXIT_FAILURE, file)
      else
        let '(n, file) := fwrite (le_bytes 4 checksum) file in
        if negb (n =? 4) then (EXIT_FAILURE, file)
        else (EXIT_SUCCESS, file).

(** [(backup_lba * 512) - (GPT_PARTITION_HEADER_COUNT * GPT_PARTITION_HEADER_SIZE)],
    the [fseek] target for the backup partition headers, in
    [calculate_partition_headers_checksum] and in [pure64_init] alike. *)
Definition backup_partition_headers_offset (backup_lba : Z) : Z :=
  to_long (u64 (backup_lba * 512)
           - GPT_PARTITION_HEADER_COUNT * GPT_PARTITION_HEADER_SIZE).

Definition calculate_partition_headers_checksum (file : FILE) : Z * FILE :=
  let '(err, file) := fseek file 1024 in
  if negb (err =? 0) then (EXIT_FAILURE, file)
  else
    let buf_size := GPT_PARTITION_HEADER_SIZE * GPT_PARTITION_HEADER_COUNT in
    let '(buf, file) := fread buf_size file in
    if negb (Z.of_nat (length buf) =? buf_size) then (EXIT_FAILURE, file)
    else
      let checksum := crc32 buf in
      let '(err, file) := fseek file (512 + 88) in
      if negb (err =? 0) then (EXIT_FAILURE, file)
      else
        let '(n, file) := fwrite (le_bytes 4 checksum) file in
        if negb (n =? 4) then (EXIT_FAILURE, file)
        else
          let '(err, file) := fseek file (512 + 32) in
          if negb (err =? 0) then (EXIT_FAILURE, file)
          else
            let '(buf8, file) := fread 8 file in
            if negb (Z.of_nat (length buf8) =? 8) then (EXIT_FAILURE, file)
            else
              let backup_lba := le_value buf8 in
              let '(err, file) := fseek file (backup_partition_headers_offset backup_lba) in
              if negb (err =? 0) then (EXIT_FAILURE, file)
              else
                let '(buf, file) := fread buf_size file in
                if negb (Z.of_nat (length buf) =? buf_size) then (EXIT_FAILURE, file)
                else
                  let checksum := crc32 buf in
                  let '(err, file) := fseek file (to_long (u64 (backup_lba * 512) + 88)) in
                  if negb (err =? 0) then (EXIT_FAILURE, file)
                  else
                    let '(n, file) := fwrite (le_bytes 4 checksum) file in
                    if negb (n =? 4) then (EXIT_FAILURE, file)
                    else (EXIT_SUCCESS, file).

Definition calculate_checksums (file : FILE) : Z * FILE :=
  let '(err, file) := calculate_partition_headers_checksum file in
  if negb (err =? 0) then (err, file)
  else
    let '(err, file) := calculate_header_checksum file 512 in
    if negb (err =? EXIT_SUCCESS) then (err, file)
    else
      let '(err, file) := fseek file (512 + 32) in
      let '(buf8, file) := if err =? 0 then fread 8 file else ([], file) in
      if negb (err =? 0) || negb (Z.of_nat (length buf8) =? 8) then (EXIT_FAILURE, file)
      else
        let backup_lba := le_value buf8 in
        let '(err, file) := calculate_header_checksum file (to_long (backup_lba * 512)) in
        if negb (err =? EXIT_SUCCESS) then (err, file)
        else (EXIT_SUCCESS, file).

(** ** [src/util/pure64.c]: the GPT header *)

Record gpt_header : Type := mk_gpt_header {
  current_lba : Z;
  backup_lba : Z;
  first_usable_lba : Z;
  last_usable_lba : Z;
  disk_uuid : list byte;
  partition_headers_lba : Z;
  partition_header_count : Z
}.

(** The buffers [export_gpt_header] hands to [fwrite], in order. *)
Definition gpt_header_fields (header : gpt_header) : list (list byte) :=
  [ ["E"; "F"; "I"; " "; "P"; "A"; "R"; "T"]%byte;   (* signature "EFI PART" *)
    [x00; x00; x01; x00];                       (* version *)
    [x5c; x00; x00; x00];                       (* header size *)
    [x00; x00; x00; x00];                       (* crc32 of header *)
    [x00; x00; x00; x00];                       (* reserved *)
    le_bytes 8 (current_lba header);
    le_bytes 8 (backup_lba header);
    le_bytes 8 (first_usable_lba header);
    le_bytes 8 (last_usable_lba header);
    disk_uuid header;
    le_bytes 8 (partition_headers_lba header);
    le_bytes 4 (partition_header_count header);
    [x80; x00; x00; x00];                       (* partition entry size *)
    [x00; x00; x00; x00] ]                      (* crc32 of partition header array *)
  ++ repeat [x00; x00; x00; x00] (Z.to_nat ((512 - 92) / 4)).

(** [write_count += fwrite (buf, 1, n, file)] *)
Definition counted_fwrite (st : Z * FILE) (buf : list byte) : Z * FILE :=
  let '(n, file) := fwrite buf (snd st) in (fst st + n, file).

Definition export_gpt_header (file : FILE) (header : gpt_header) : Z * FILE :=
  let write_count := 0 in
  let '(write_count, file) :=
    fold_left counted_fwrite (gpt_header_fields header) (write_count, file) in
  if negb (write_count =? 512) then (EXIT_FAILURE, file)
  else (EXIT_SUCCESS, file).

(** ** [src/util/pure64.c]: the [init] command *)

Definition PURE64_DEFAULT_DISK_UUID : list byte :=
  ["7"; "4"; "a"; "7"; "c"; "1"; "4"; "a"; "-"; "7"; "1"; "1"; "d"; "-"; "4"; "2"; "9"; "3"; "-"; "a"; "7"; "3"; "1"; "-"; "5"; "6"; "9"; "c"; "a"; "6"; "5"; "6"; "7"; "9"; "9"; "e"]%byte.

(** What [sscanf (str, "%llu", &disk_size)] can do: convert a number and
    return 1, stop on a character that is not part of a number and
    return 0, or find no input and return [EOF].  Only a conversion
    assigns to [disk_size]. *)
Inductive scan : Type :=
| Converted (value : Z)
| MatchFailure
| InputFailure.

Definition scan_result (s : scan) : Z :=
  match s with
  | Converted _ => 1
  | MatchFailure => 0
  | InputFailure => -1
  end.

Definition opt_disk_uuid : list byte :=
  ["-"; "-"; "d"; "i"; "s"; "k"; "-"; "u"; "u"; "i"; "d"]%byte.
Definition opt_disk_size : list byte :=
  ["-"; "-"; "d"; "i"; "s"; "k"; "-"; "s"; "i"; "z"; "e"]%byte.

(** [strcmp] of the C library, whose result is only compared with 0. *)
Definition strcmp (a b : list byte) : Z := pure64_strcmp a b.

(** The minimum the [init] command asks of the disk size. *)
Definition minimum_size : Z :=
  (* one gpt header *)
  let minimum_size := GPT_HEADER_SIZE in
  (* 128 primary partition headers *)
  let minimum_size := u64 (minimum_size + GPT_PARTITION_HEADER_COUNT * GPT_PARTITION_HEADER_SIZE) in
  (* at least one sector per partition *)
  let minimum_size := u64 (minimum_size + GPT_PARTITION_HEADER_COUNT * 512) in
  (* GPT_PARTITION_HEADER_COUNT backup partition headers *)
  let minimum_size := u64 (minimum_size + GPT_PARTITION_HEADER_COUNT * GPT_PARTITION_HEADER_SIZE) in
  (* one backup gpt header *)
  u64 (minimum_size + GPT_HEADER_SIZE).

(** [if (disk_size < minimum_size) ... return EXIT_FAILURE]: [true] when
    the size is rejected. *)
Definition disk_size_rejected (disk_size : Z) : bool := disk_size <? minimum_size.

Section Init.

(** The boot sector image of [mbr-data.h], the UUID parser of
    [uuid.c] and [sscanf] are not part of the source files: they
    are parameters. *)
Variable mbr_data : list byte.
Variable pure64_uuid_parse : list byte -> status * list byte.
Variable sscanf_llu : list byte -> scan.

Definition mbr_data_size : Z := Z.of_nat (length mbr_data).

(** The option loop of [pure64_init], started at [argv[i]]: the UUID
    string and the disk size it leaves, or [None] when it returns
    [EXIT_FAILURE].  After "--disk-uuid"%string the loop steps over the
    value; after "--disk-size"%string it does not. *)
Fixpoint pure64_init_options (argv : list (list byte))
  (disk_uuid_str : option (list byte)) (disk_size : Z)
  : option (option (list byte) * Z) :=
  match argv with
  | [] => Some (disk_uuid_str, disk_size)
  | arg :: rest =>
      if strcmp arg opt_disk_uuid =? 0 then
        match rest with
        | [] => Some (None, disk_size)
        | value :: rest' => pure64_init_options rest' (Some value) disk_size
        end
      else if strcmp arg opt_disk_size =? 0 then
        match rest with
        | [] => None
        | value :: _ =>
            let scanned := sscanf_llu value in
            let disk_size :=
              match scanned with
              | Converted v => v
              | _ => disk_size
              end in
            if negb (scan_result scanned =? 0) then None
            else pure64_init_options rest disk_uuid_str disk_size
        end
      else None
  end.

(** [pure64_init] from the size check up to the second
    [export_gpt_header]: the exit status and the file, once it is
    open. *)
Definition pure64_init_write (disk_uuid_str : option (list byte)) (disk_size : Z)
  : Z * option FILE :=
  if disk_size_rejected disk_size then (EXIT_FAILURE, None)
  else
    (* pad disk to nearest sector *)
    let disk_size :=
      if negb (disk_size mod 512 =? 0)
      then u64 (disk_size + (512 - disk_size mod 512))
      else disk_size in
    let disk_uuid_str :=
      match disk_uuid_str with
      | None => PURE64_DEFAULT_DISK_UUID
      | Some str => str
      end in
    let '(err, uuid) := pure64_uuid_parse disk_uuid_str in
    if is_error err then (EXIT_FAILURE, None)
    else
      let file := fopen_wb in
      let '(n, file) := fwrite mbr_data file in
      if negb (n =? 512) then (EXIT_FAILURE, Some file)
      else
        let current_lba := 1 in
        let backup_lba := u64 (disk_size - 512) / 512 in
        (* mbr + gpt header + partition headers *)
        let first_usable_lba := (1 + 1) * 512 in
        let first_usable_lba :=
          u64 (first_usable_lba + GPT_PARTITION_HEADER_COUNT * GPT_PARTITION_HEADER_SIZE) in
        let first_usable_lba := first_usable_lba / 512 in
        (* the backup lba minus 64 backup partition headers *)
        let last_usable_lba := u64 (backup_lba * 512) in
        let last_usable_lba :=
          u64 (last_usable_lba - GPT_PARTITION_HEADER_COUNT * GPT_PARTITION_HEADER_SIZE) in
        let last_usable_lba := u64 (last_usable_lba - 512) in
        let last_usable_lba := last_usable_lba / 512 in
        let partition_headers_lba := 2 in
        let partition_header_count := GPT_PARTITION_HEADER_COUNT in
        let gpt_header :=
          mk_gpt_header current_lba backup_lba first_usable_lba last_usable_lba
            uuid partition_headers_lba partition_header_count in
        let '(err, file) := export_gpt_header file gpt_header in
        if negb (err =? 0) then (EXIT_FAILURE, Some file)
        else
          (* zero primary partition headers *)
          let file :=
            zero_file_data file (GPT_PARTITION_HEADER_SIZE * GPT_PARTITION_HEADER_COUNT) in
          (* zero backup partition headers *)
          let '(err, file) := fseek file (backup_partition_headers_offset backup_lba) in
          if negb (err =? 0) then (EXIT_FAILURE, Some file)
          else
            let file :=
              zero_file_data file (GPT_PARTITION_HEADER_SIZE * GPT_PARTITION_HEADER_COUNT) in
            (* setup the backup header *)
            let '(err, file) := fseek file (to_long (backup_lba * 512)) in
            if negb (err =? 0) then (EXIT_FAILURE, Some file)
            else
              (* update the information for the backup header *)
              let partition_headers_lba := u64 (backup_lba * 512) in
              let partition_headers_lba :=
                u64 (partition_headers_lba
                     - GPT_PARTITION_HEADER_COUNT * GPT_PARTITION_HEADER_SIZE) in
              let partition_headers_lba := u64 (partition_headers_lba - 512) in
              let partition_headers_lba := partition_headers_lba / 512 in
              let gpt_header :=
                mk_gpt_header backup_lba 1 first_usable_lba last_usable_lba
                  uuid partition_headers_lba partition_header_count in
              let '(err, file) := export_gpt_header file gpt_header in
              if negb (err =? EXIT_SUCCESS) then (EXIT_FAILURE, Some file)
              else (EXIT_SUCCESS, Some file).

(** [pure64_init] from the size check up to the second
    [zero_file_data], where the part headed "setup the backup header"
    begins: the exit status and the file as it is when both partition
    arrays have been zeroed and the backup header is still to be
    written. *)
Definition pure64_init_arrays (disk_uuid_str : option (list byte)) (disk_size : Z)
  : Z * option FILE :=
  if disk_size_rejected disk_size then (EXIT_FAILURE, None)
  else
    (* pad disk to nearest sector *)
    let disk_size :=
      if negb (disk_size mod 512 =? 0)
      then u64 (disk_size + (512 - disk_size mod 512))
      else disk_size in
    let disk_uuid_str :=
      match disk_uuid_str with
      | None => PURE64_DEFAULT_DISK_UUID
      | Some str => str
      end in
    let '(err, uuid) := pure64_uuid_parse disk_uuid_str in
    if is_error err then (EXIT_FAILURE, None)
    else
      let file := fopen_wb in
      let '(n, file) := fwrite mbr_data file in
      if negb (n =? 512) then (EXIT_FAILURE, Some file)
      else
        let current_lba := 1 in
        let backup_lba := u64 (disk_size - 512) / 512 in
        (* mbr + gpt header + partition headers *)
        let first_usable_lba := (1 + 1) * 512 in
        let first_usable_lba :=
          u64 (first_usable_lba + GPT_PARTITION_HEADER_COUNT * GPT_PARTITION_HEADER_SIZE) in
        let first_usable_lba := first_usable_lba / 512 in
        (* the backup lba minus 64 backup partition headers *)
        let last_usable_lba := u64 (backup_lba * 512) in
        let last_usable_lba :=
          u64 (last_usable_lba - GPT_PARTITION_HEADER_COUNT * GPT_PARTITION_HEADER_SIZE) in
        let last_usable_lba := u64 (last_usable_lba - 512) in
        let last_usable_lba := last_usable_lba / 512 in
        let partition_headers_lba := 2 in
        let partition_header_count := GPT_PARTITION_HEADER_COUNT in
        let gpt_header :=
          mk_gpt_header current_lba backup_lba first_usable_lba last_usable_lba
            uuid partition_headers_lba partition_header_count in
        let '(err, file) := export_gpt_header file gpt_header in
        if negb (err =? 0) then (EXIT_FAILURE, Some file)
        else
          (* zero primary partition headers *)
          let file :=
            zero_file_data file (GPT_PARTITION_HEADER_SIZE * GPT_PARTITION_HEADER_COUNT) in
          (* zero backup partition headers *)
          let '(err, file) := fseek file (backup_partition_headers_offset backup_lba) in
          if negb (err =? 0) then (EXIT_FAILURE, Some file)
          else
            let file :=
              zero_file_data file (GPT_PARTITION_HEADER_SIZE * GPT_PARTITION_HEADER_COUNT) in
            (EXIT_SUCCESS, Some file).

(** [pure64_init] from the size check on: the structures are written,
    then the checksum pass runs on them. *)
Definition pure64_init_disk (disk_uuid_str : option (list byte)) (disk_size : Z)
  : Z * option FILE :=
  match pure64_init_write disk_uuid_str disk_size with
  | (err, Some file) =>
      if negb (err =? EXIT_SUCCESS) then (err, Some file)
      else
        let '(err, file) := calculate_checksums file in
        if negb (err =? EXIT_SUCCESS) then (err, Some file)
        else (EXIT_SUCCESS, Some file)
  | (err, None) => (err, None)
  end.

Definition pure64_init (argv : list (list byte)) : Z * option FILE :=
  let disk_uuid_str := None in
  let disk_size := 1 * 1024 * 1024 in
  match pure64_init_options argv disk_uuid_str disk_size with
  | None => (EXIT_FAILURE, None)
  | Some (disk_uuid_str, disk_size) => pure64_init_disk disk_uuid_str disk_size
  end.

End Init.

(** ** [src/util/pure64.c]: image assembly ([ramfs_export]) *)

(** Modelled from the spec: [struct pure64_fs] and [pure64_fs_export]
    ([fs.c]) are not among the source files; a FileSystemTree is "a single
    root DirNode", and the assembly "invoke[s] the Tree Codec to
    serialize the FileSystemTree at the filesystem offset". *)
Record pure64_fs : Type := mkfs { root : pure64_dir }.

Definition pure64_fs_export (fs : pure64_fs) : M unit := pure64_dir_export (root fs).

(** Modelled from the spec: [pure64_stream_set_pos] ([stream.c]) is not
    part of the sources; it hands the position to the installed
    callback. *)
Definition pure64_stream_set_pos (pos : Z) : M unit :=
  fun w =>
    let '(err, file) := fstream_set_pos pos (io w) in
    if is_error err then Failed err (mkworld file (mem w))
    else Done tt (mkworld file (mem w)).

(** Modelled from the spec: [pure64_mbr_read] and [pure64_mbr_write]
    ([mbr.c]) are not among the source files; the assembly must "re-read
    the already-written MBR, patch its two boot-descriptor entries
    (sector start + sector count) for stage-2 and stage-3 using the
    now-known offsets, and rewrite the MBR sector", the MBR being the 512
    bytes of sector 0. *)
Definition pure64_mbr_read : M (list byte) :=
  pure64_stream_set_pos 0 ;; pure64_stream_read 512.

Definition pure64_mbr_write (mbr : list byte) : M unit :=
  pure64_stream_set_pos 0 ;; pure64_stream_write mbr.

(** [((size + 511) / 512) > 0x7f], in [unsigned long]. *)
Definition stage_too_big (data_size : Z) : bool :=
  u64 (data_size + 511) / 512 >? 0x7f.

(** The three offsets, set and then "rounded off to the nearest
    sector", in [uint64_t]. *)
Definition ramfs_export_offsets (pure64_data_size stage_three_data_size : Z) : Z * Z * Z :=
  let st2_offset := 0x2000 in
  let st3_offset := u64 (0x2000 + pure64_data_size) in
  let fs_offset := u64 (st3_offset + stage_three_data_size) in
  let st2_offset := u64 (u64 (st2_offset + 511) / 512 * 512) in
  let st3_offset := u64 (u64 (st3_offset + 511) / 512 * 512) in
  let fs_offset := u64 (u64 (fs_offset + 511) / 512 * 512) in
  (st2_offset, st3_offset, fs_offset).

(** The padding of the image once the file system is written, [pos]
    being the position [ftell] reports. *)
Definition ramfs_export_pad (file : FILE) (pos : Z) : FILE :=
  if pos <? PURE64_MINIMUM_DISK_SIZE then
    let '(_, file) := fseek file (PURE64_MINIMUM_DISK_SIZE - 1) in
    fputc x00 file
  else if negb (pos mod 512 =? 0) then
    let '(_, file) := fseek file ((pos + (512 - pos mod 512)) - 1) in
    fputc x00 file
  else file.

Section Mkfs.

(** The boot sector and the two boot loader stages come from generated
    headers ([mbr-data.h], [pure64-data.h], [stage-three-data.h]) that
    are not part of the source files, and the place of the two
    disk address packets in the sector from [pure64/mbr.h]: they are
    parameters.  [mbr_set_daps mbr s2 c2 s3 c3] is the sector [mbr]
    with [st2dap.sector], [st2dap.sector_count], [st3dap.sector] and
    [st3dap.sector_count] set. *)
Variable mbr_data : list byte.
Variable pure64_data : list byte.
Variable stage_three_data : list byte.
Variable mbr_set_daps : list byte -> Z -> Z -> Z -> Z -> list byte.

Definition pure64_data_size : Z := Z.of_nat (length pure64_data).
Definition stage_three_data_size : Z := Z.of_nat (length stage_three_data).

(** [ramfs_export] up to the export of the file system: the exit
    status and the file, once it is open. *)
Definition ramfs_export_write (fs : pure64_fs) (h : heap) : Z * option FILE :=
  if stage_too_big pure64_data_size then (EXIT_FAILURE, None)
  else if stage_too_big stage_three_data_size then (EXIT_FAILURE, None)
  else
    let file := fopen_wb in
    (* Write the master boot record to the beginning of the file. *)
    let '(n, file) := fwrite mbr_data file in
    if negb (n =? Z.of_nat (length mbr_data)) then (EXIT_FAILURE, Some file)
    else
      let '(st2_offset, st3_offset, fs_offset) :=
        ramfs_export_offsets pure64_data_size stage_three_data_size in
      let '(err, file) := fseek file (to_long st2_offset) in
      if negb (err =? 0) then (EXIT_FAILURE, Some file)
      else
        let '(n, file) := fwrite pure64_data file in
        if negb (n =? pure64_data_size) then (EXIT_FAILURE, Some file)
        else
          let '(err, file) := fseek file (to_long st3_offset) in
          if negb (err =? 0) then (EXIT_FAILURE, Some file)
          else
            let '(n, file) := fwrite stage_three_data file in
            if negb (n =? stage_three_data_size) then (EXIT_FAILURE, Some file)
            else
              let '(err, file) := fseek file (to_long fs_offset) in
              if negb (err =? 0) then (EXIT_FAILURE, Some file)
              else
                match pure64_fs_export fs (mkworld file h) with
                | Done _ w => (EXIT_SUCCESS, Some (io w))
                | Failed _ w => (EXIT_FAILURE, Some (io w))
                | Starved => (EXIT_FAILURE, Some file)
                end.

(** The rest of [ramfs_export]: padding, then the update of the MBR. *)
Definition ramfs_export_finish (file : FILE) (h : heap) : Z * option FILE :=
  let pos := ftell file in
  if pos =? -1 then (EXIT_FAILURE, Some file)
  else
    let file := ramfs_export_pad file pos in
    let '(st2_offset, st3_offset, _) :=
      ramfs_export_offsets pure64_data_size stage_three_data_size in
    match pure64_mbr_read (mkworld file h) with
    | Done mbr w =>
        let mbr :=
          mbr_set_daps mbr
            (st2_offset / 512) (u64 (pure64_data_size + 511) / 512)
            (st3_offset / 512) (u64 (stage_three_data_size + 511) / 512) in
        match pure64_mbr_write mbr w with
        | Done _ w => (EXIT_SUCCESS, Some (io w))
        | Failed _ w => (EXIT_FAILURE, Some (io w))
        | Starved => (EXIT_FAILURE, Some (io w))
        end
    | Failed _ w => (EXIT_FAILURE, Some (io w))
    | Starved => (EXIT_FAILURE, Some file)
    end.

Definition ramfs_export (fs : pure64_fs) (h : heap) : Z * option FILE :=
  match ramfs_export_write fs h with
  | (err, Some file) =>
      if negb (err =? EXIT_SUCCESS) then (err, Some file)
      else ramfs_export_finish file h
  | (err, None) => (err, None)
  end.

End Mkfs.

(** ** [src/util/pure64.c]: reading an image back ([ramfs_import]) *)

(** Modelled from the spec: [pure64_fs_import] ([fs.c]) is not among
    the source files; it is the reading side of [pure64_fs_export],
    "import(stream) -> tree". *)
Definition pure64_fs_import : M pure64_fs :=
  root <- pure64_dir_import ;; ret (mkfs root).

Section RamfsImport.

(** [PURE64_FS_SECTOR] comes from [pure64/fs.h], which is not among the
    source files: it is a parameter. *)
Variable PURE64_FS_SECTOR : Z.

Definition PURE64_DISK_LOCATION : Z := PURE64_FS_SECTOR * 512.

(** [ramfs_import], [image] being the contents of the file that
    [filename] names, if [fopen (filename, "rb")] finds one: the exit
    status and the file system read. *)
Definition ramfs_import (image : option (list byte)) (h : heap) : Z * option pure64_fs :=
  match image with
  | None => (EXIT_FAILURE, None)
  | Some data =>
      let file := mkFILE data 0 in
      let '(err, file) := fseek file PURE64_DISK_LOCATION in
      if negb (err =? 0) then (EXIT_FAILURE, None)
      else
        match pure64_fs_import (mkworld file h) with
        | Done fs _ => (EXIT_SUCCESS, Some fs)
        | Failed _ _ => (EXIT_FAILURE, None)
        | Starved => (EXIT_FAILURE, None)
        end
  end.

End RamfsImport.

(** ** [src/util/pure64.c]: the command line *)

(** [arg[i]], the terminator standing after the last byte. *)
Definition char_at (arg : list byte) (i : nat) : byte := nth i arg x00.

(** [check_opt (arg, opt, s_opt)]: [arg] is the short option made of
    '-' and [s_opt], or two '-' followed by [opt]. *)
Definition check_opt (arg opt : list byte) (s_opt : byte) : bool :=
  let s_opt3 := ["-"%byte; s_opt; x00] in
  if strcmp s_opt3 arg =? 0 then true
  else if Byte.eqb (char_at arg 0) "-"
          && Byte.eqb (char_at arg 1) "-"
          && (strcmp (skipn 2 arg) opt =? 0)
  then true
  else false.

Definition is_opt (argv : list byte) : bool :=
  if Byte.eqb (char_at argv 0) "-" then true else false.

Definition opt_help : list byte := ["h"; "e"; "l"; "p"]%byte.
Definition opt_file : list byte := ["f"; "i"; "l"; "e"]%byte.

(** The option loop of [main], started at [argv[i]]: [None] when it
    returns [EXIT_FAILURE], otherwise the file name it leaves (no name
    when the file option came last and took [argv[argc]], a null
    pointer) and the arguments from [argv[i]] on. *)
Fixpoint main_options (argv : list (list byte)) (filename : option (list byte))
  : option (option (list byte) * list (list byte)) :=
  match argv with
  | [] => Some (filename, [])
  | arg :: rest =>
      if check_opt arg opt_help "h" then None
      else if check_opt arg opt_file "f" then
        match rest with
        | [] => Some (None, [])
        | value :: rest' => main_options rest' (Some value)
        end
      else if is_opt arg then None
      else Some (filename, arg :: rest)
  end.

Definition default_filename : list byte :=
  ["p"; "u"; "r"; "e"; "6"; "4"; "."; "i"; "m"; "g"]%byte.

(** [main] up to the point where "argv[i] should now point to a
    command": the file name, the command and its arguments, or [None]
    when [main] has returned [EXIT_FAILURE] by then.  [argv] is the
    argument vector without [argv[0]]. *)
Definition main_command (argv : list (list byte))
  : option (list byte * list byte * list (list byte)) :=
  match main_options argv (Some default_filename) with
  | None => None
  | Some (None, _) => None
  | Some (Some filename, []) => None
  | Some (Some filename, command :: args) => Some (filename, command, args)
  end.

(** ** Vocabulary of the statements *)

Definition check_vector : list byte :=
  ["1"; "2"; "3"; "4"; "5"; "6"; "7"; "8"; "9"]%byte.

(** [name] is carried by one of the children of [dir], a file or a
    subdirectory; names are C strings. *)
Definition sibling_named (dir : pure64_dir) (name : list byte) : Prop :=
  (exists f, In f (dir_files dir) /\ c_str (file_name f) = c_str name)
  \/ (exists d, In d (dir_subdirs dir) /\ c_str (dir_name d) = c_str name).

(** The part of the medium that a write at [pos] leaves in front of the
    bytes written: the old contents up to [pos], zero-filled when the
    file was shorter. *)
Definition before (data : list byte) (pos : Z) : list byte :=
  firstn (Z.to_nat pos) data ++ zeros (pos - Z.of_nat (length data)).

(** The state after [fwrite]. *)
Definition written (buf : list byte) (f : FILE) : FILE := snd (fwrite buf f).

Definition pure64_dir_ind (P : pure64_dir -> Prop)
  (step : forall name subdirs files, All P subdirs -> P (mkdir name subdirs files))
  : forall dir, P dir :=
  fix IH (dir : pure64_dir) : P dir :=
    match dir with
    | mkdir name subdirs files =>
        step name subdirs files
          ((fix all (l : list pure64_dir) : All P l :=
              match l with
              | [] => I
              | d :: rest => conj (IH d) (all rest)
              end) subdirs)
    end.

Definition all_true (h : heap) : Prop := forall n, h n = true.

(** [writes m bs]: run from any state, [m] succeeds and its effect is
    one write of [bs] at the current position. *)
Definition writes (m : M unit) (bs : list byte) : Prop :=
  forall w, 0 <= f_pos (io w) ->
    m w = Done tt (mkworld (written bs (io w)) (mem w)).

(** [reads m bs x]: started in front of the bytes [bs] with an
    allocator that does not fail, [m] succeeds with [x], consumes
    exactly [bs] and leaves the contents of the medium alone. *)
Definition reads {A : Type} (m : M A) (bs : list byte) (x : A) : Prop :=
  forall pre post h, all_true h ->
    exists h',
      m (mkworld (mkFILE (pre ++ bs ++ post) (Z.of_nat (length pre))) h)
      = Done x (mkworld (mkFILE (pre ++ bs ++ post)
                           (Z.of_nat (length pre) + Z.of_nat (length bs))) h')
      /\ all_true h'.



Definition round_up_512 (z : Z) : Z := (z + 511) / 512 * 512.

(** The minimum as C5 words it: a single usable sector. *)
Definition claimed_minimum_size : Z := 92 + 128 * 128 + 512 + 128 * 128 + 92.

(** The sector [export_gpt_header] writes, cut at the two checksum
    fields: signature, version and header size (16 bytes); the header
    checksum [c] (offset 16); reserved field and current LBA; backup LBA
    (offset 32); the fields up to the entry size; the array checksum [p]
    (offset 88); 420 bytes of padding. *)
Definition hdr_sig : list byte :=
  ["E"; "F"; "I"; " "; "P"; "A"; "R"; "T"]%byte
    ++ [x00; x00; x01; x00] ++ [x5c; x00; x00; x00].

Definition hdr_lba1 (header : gpt_header) : list byte :=
  [x00; x00; x00; x00] ++ le_bytes 8 (current_lba header).

Definition hdr_rest (header : gpt_header) : list byte :=
  le_bytes 8 (first_usable_lba header)
    ++ le_bytes 8 (last_usable_lba header)
    ++ disk_uuid header
    ++ le_bytes 8 (partition_headers_lba header)
    ++ le_bytes 4 (partition_header_count header)
    ++ [x80; x00; x00; x00].

Definition gpt_header_core (header : gpt_header) (c p : Z) : list byte :=
  hdr_sig ++ le_bytes 4 c ++ hdr_lba1 header ++ le_bytes 8 (backup_lba header)
    ++ hdr_rest header ++ le_bytes 4 p.

Definition gpt_header_sector (header : gpt_header) (c p : Z) : list byte :=
  gpt_header_core header c p ++ zeros 420.

(** The two headers [init] builds for a disk whose last sector is [B]. *)
Definition primary_header (B : Z) (uuid : list byte) : gpt_header :=
  mk_gpt_header 1 B 34 (B - 33) uuid 2 128.

Definition backup_header (B : Z) (uuid : list byte) : gpt_header :=
  mk_gpt_header B 1 34 (B - 33) uuid (B - 33) 128.

(** The disk [init] lays out: boot sector, primary header, primary
    array, the space up to the backup array, backup array, backup
    header.  [c1], [p1], [c2], [p2] are the values of the four checksum
    fields. *)
Definition gpt_disk (mbr : list byte) (B : Z) (uuid : list byte) (c1 p1 c2 p2 : Z)
  : list byte :=
  mbr ++ gpt_header_sector (primary_header B uuid) c1 p1
    ++ zeros 16384 ++ zeros (B * 512 - 16384 - 17408) ++ zeros 16384
    ++ gpt_header_sector (backup_header B uuid) c2 p2.

Definition array_crc : Z := crc32 (zeros 16384).

(** The sector of the backup header on a disk of [disk_size] bytes, the
    size being padded to a whole number of sectors first. *)
Definition backup_lba_of (disk_size : Z) : Z := (disk_size + 511) / 512 - 1.

Definition header_at (image : list byte) (location : Z) : list byte :=
  load image location GPT_HEADER_SIZE.

(** The header "with its checksum field zeroed". *)
Definition with_zero_checksum (header : list byte) : list byte :=
  firstn 16 header ++ zeros 4 ++ skipn 20 header.

Definition stored_header_checksum (image : list byte) (location : Z) : Z :=
  le_value (load image (location + 16) 4).

Definition stored_array_checksum (image : list byte) (location : Z) : Z :=
  le_value (load image (location + 88) 4).

Definition stored_backup_lba (image : list byte) : Z :=
  le_value (load image (512 + 32) 8).

Definition stored_partition_headers_lba (image : list byte) (location : Z) : Z :=
  le_value (load image (location + 72) 8).

(** A header validates when the CRC of its 92 bytes, taken with a zero
    checksum field, is the checksum it stores. *)
Definition header_validates (image : list byte) (location : Z) : Prop :=
  crc32 (with_zero_checksum (header_at image location))
  = stored_header_checksum image location.

(** The position at which the export of the file system ends in
    [ramfs_export]. *)
Definition export_end (pure64_data stage_three_data : list byte) (fs : pure64_fs) : Z :=
  round_up_512 (0x2000 + pure64_data_size pure64_data
                + stage_three_data_size stage_three_data)
  + Z.of_nat (length (dir_bytes (root fs))).

(** Concrete parameters to run [init] with. *)
Definition sample_uuid_parse (str : list byte) : status * list byte :=
  (OK, firstn 16 str).

(** [consumed w w' bs]: between [w] and [w'] the stream moved over the
    bytes [bs] of the medium, which it left as it was. *)
Definition consumed (w w' : world) (bs : list byte) : Prop :=
  f_data (io w') = f_data (io w)
  /\ f_pos (io w') = f_pos (io w) + Z.of_nat (length bs)
  /\ load (f_data (io w)) (f_pos (io w)) (Z.of_nat (length bs)) = bs.

(** [yields m Q]: whenever [m] succeeds with [x], it has consumed bytes
    [bs] with [Q x bs]. *)
Definition yields {A : Type} (m : M A) (Q : A -> list byte -> Prop) : Prop :=
  forall w x w', 0 <= f_pos (io w) -> m w = Done x w' ->
    exists bs, consumed w w' bs /\ Q x bs.



(** The fields of a header sector whose two checksum fields hold [c]
    and [p], in the order [export_gpt_header] writes them. *)
Definition gpt_header_sector_fields (header : gpt_header) (c p : Z) : list (list byte) :=
  [ ["E"; "F"; "I"; " "; "P"; "A"; "R"; "T"]%byte;
    [x00; x00; x01; x00];
    [x5c; x00; x00; x00];
    le_bytes 4 c;
    [x00; x00; x00; x00];
    le_bytes 8 (current_lba header);
    le_bytes 8 (backup_lba header);
    le_bytes 8 (first_usable_lba header);
    le_bytes 8 (last_usable_lba header);
    disk_uuid header;
    le_bytes 8 (partition_headers_lba header);
    le_bytes 4 (partition_header_count header);
    [x80; x00; x00; x00];
    le_bytes 4 p;
    zeros 420 ].

(** The value of the [size]-byte field at [offset] of the header found
    at [location] of an image. *)
Definition header_field (image : list byte) (location offset size : Z) : Z :=
  le_value (load image (location + offset) size).

(** The arguments that pairs of a file option and its value take on the
    command line. *)
Definition file_options (pairs : list (list byte * list byte)) : list (list byte) :=
  flat_map (fun p => [fst p; snd p]) pairs.

(* ================================================================== *)
(** * Properties *)

(** ** Bytes and integers *)

Lemma byte_to_Z_range (b : byte) : 0 <= byte_to_Z b < 256.
Proof.
  unfold byte_to_Z. pose proof (Byte.to_N_bounded b). lia.
Qed.

Lemma byte_of_to_Z (b : byte) : byte_of_Z (byte_to_Z b) = b.
Proof.
  unfold byte_of_Z. pose proof (byte_to_Z_range b) as R.
  rewrite Z.mod_small by lia. unfold byte_to_Z.
  now rewrite N2Z.id, Byte.of_to_N.
Qed.

Lemma byte_to_of_Z (z : Z) : byte_to_Z (byte_of_Z z) = z mod 256.
Proof.
  unfold byte_of_Z, byte_to_Z.
  pose proof (Z.mod_pos_bound z 256 ltac:(lia)) as R.
  destruct (Byte.of_N (Z.to_N (z mod 256))) as [b|] eqn:E.
  - apply Byte.to_of_N in E. rewrite E. lia.
  - apply Byte.of_N_None_iff in E. lia.
Qed.

(** ** CRC-32 *)

Lemma lxor_range (n a b : Z) :
  0 <= n -> 0 <= a < 2 ^ n -> 0 <= b < 2 ^ n -> 0 <= Z.lxor a b < 2 ^ n.
Proof.
  intros Hn Ha Hb.
  assert (Hnn : 0 <= Z.lxor a b) by (apply Z.lxor_nonneg; lia).
  split; [exact Hnn|].
  destruct (Z.eq_dec (Z.lxor a b) 0) as [->|Hne]; [apply Z.pow_pos_nonneg; lia|].
  assert (Hpos : 0 < n).
  { destruct (Z.eq_dec n 0) as [->|]; [|lia].
    assert (a = 0) by lia. assert (b = 0) by lia. subst. now elim Hne. }
  apply Z.log2_lt_pow2; [lia|].
  pose proof (Z.log2_lxor a b ltac:(lia) ltac:(lia)) as Hl.
  assert (La : Z.log2 a < n).
  { destruct (Z.eq_dec a 0) as [->|]; [simpl|apply Z.log2_lt_pow2]; lia. }
  assert (Lb : Z.log2 b < n).
  { destruct (Z.eq_dec b 0) as [->|]; [simpl|apply Z.log2_lt_pow2]; lia. }
  lia.
Qed.

Lemma shiftr1_range (crc : Z) : 0 <= crc < 2 ^ 32 -> 0 <= Z.shiftr crc 1 < 2 ^ 31.
Proof.
  intros H. rewrite Z.shiftr_div_pow2 by lia. change (2 ^ 1) with 2.
  split; [apply Z.div_pos; lia|].
  apply Z.div_lt_upper_bound; lia.
Qed.

Lemma crc32_bit_reference (crc : Z) :
  0 <= crc < 2 ^ 32 -> crc32_bit crc = crc32_round_reference crc.
Proof.
  intros H. unfold crc32_bit, crc32_round_reference, u32.
  rewrite Z.bit0_odd.
  pose proof (Z.land_ones crc 1 ltac:(lia)) as L.
  change (Z.ones 1) with 1 in L. change (2 ^ 1) with 2 in L.
  rewrite L, Zmod_odd. destruct (Z.odd crc); cbv beta iota.
  - change ((- (1)) mod 2 ^ 32) with (Z.ones 32).
    rewrite Z.land_ones by lia. now rewrite Z.mod_small by lia.
  - change ((- 0) mod 2 ^ 32) with 0. now rewrite Z.land_0_r, Z.lxor_0_r.
Qed.

Lemma crc32_round_reference_range (reg : Z) :
  0 <= reg < 2 ^ 32 -> 0 <= crc32_round_reference reg < 2 ^ 32.
Proof.
  intros H. unfold crc32_round_reference.
  pose proof (shiftr1_range reg H) as S.
  destruct (Z.testbit reg 0).
  - apply lxor_range; lia.
  - lia.
Qed.

Lemma crc32_rounds (n : nat) (crc : Z) :
  0 <= crc < 2 ^ 32 ->
  Nat.iter n crc32_bit crc = Nat.iter n crc32_round_reference crc
  /\ 0 <= Nat.iter n crc32_round_reference crc < 2 ^ 32.
Proof.
  intros H. induction n as [|n [IH R]]; simpl.
  - split; [reflexivity|exact H].
  - rewrite IH. split.
    + now apply crc32_bit_reference.
    + now apply crc32_round_reference_range.
Qed.

Lemma crc32_byte_agrees (crc : Z) (b : byte) :
  0 <= crc < 2 ^ 32 ->
  crc32_byte crc b = crc32_byte_reference crc b
  /\ 0 <= crc32_byte_reference crc b < 2 ^ 32.
Proof.
  intros H.
  assert (X : 0 <= Z.lxor crc (byte_to_Z b) < 2 ^ 32).
  { apply lxor_range; [lia|lia|]. pose proof (byte_to_Z_range b). lia. }
  exact (crc32_rounds 8 _ X).
Qed.

Lemma fold_left_cons {A B : Type} (f : A -> B -> A) (b : B) (l : list B) (a : A) :
  fold_left f (b :: l) a = fold_left f l (f a b).
Proof. reflexivity. Qed.

Lemma crc32_register_reference_cons (reg : Z) (b : byte) (rest : list byte) :
  crc32_register_reference reg (b :: rest)
  = crc32_register_reference (crc32_byte_reference reg b) rest.
Proof. reflexivity. Qed.

Lemma crc32_register (buf : list byte) (crc : Z) :
  0 <= crc < 2 ^ 32 ->
  fold_left crc32_byte buf crc = crc32_register_reference crc buf
  /\ 0 <= crc32_register_reference crc buf < 2 ^ 32.
Proof.
  revert crc. induction buf as [|b buf IH]; intros crc H.
  - split; [reflexivity|exact H].
  - destruct (crc32_byte_agrees crc b H) as [E R].
    rewrite fold_left_cons, crc32_register_reference_cons, E.
    apply IH. exact R.
Qed.

Lemma lnot_u32 (crc : Z) : 0 <= crc < 2 ^ 32 -> u32 (Z.lnot crc) = Z.lxor crc 0xFFFFFFFF.
Proof.
  intros H. unfold u32.
  change 0xFFFFFFFF with (Z.ones 32).
  rewrite <- Z.land_ones by lia.
  apply Z.bits_inj'. intros i Hi.
  rewrite Z.land_spec, Z.lxor_spec, Z.lnot_spec by lia.
  destruct (Z.ltb_spec i 32) as [L|G].
  - rewrite Z.ones_spec_low by lia. now rewrite andb_true_r, xorb_true_r.
  - rewrite Z.ones_spec_high by lia.
    rewrite andb_false_r, xorb_false_r.
    symmetry. apply Z.bits_above_log2; [lia|].
    destruct (Z.eq_dec crc 0) as [->|]; [simpl; lia|].
    assert (Z.log2 crc < 32) by (apply Z.log2_lt_pow2; lia). lia.
Qed.

Lemma crc32_range (buf : list byte) : 0 <= crc32 buf < 2 ^ 32.
Proof.
  unfold crc32, u32. apply Z.mod_pos_bound. lia.
Qed.

(** C2. [crc32] is the reflected CRC-32 of the specification (register
    initialised to 0xFFFFFFFF, polynomial 0xEDB88320 XORed in under the
    low-bit mask after each of the eight shifts of a byte, complemented
    at the end): it agrees with [crc32_reference] on every input, gives
    0x00000000 on the empty input and 0xCBF43926 on the nine bytes
    "123456789". *)
Theorem crc32_is_reflected_crc32 :
  (forall buf : list byte, crc32 buf = crc32_reference buf)
  /\ crc32 [] = 0x00000000
  /\ length check_vector = 9%nat
  /\ crc32 check_vector = 0xCBF43926.
Proof.
  split; [|repeat split; vm_compute; reflexivity].
  intros buf. unfold crc32, crc32_reference.
  destruct (crc32_register buf 0xFFFFFFFF ltac:(lia)) as [E R].
  rewrite E. now apply lnot_u32.
Qed.

(** ** C strings *)

Lemma byte_eqb_eq (x y : byte) : Byte.eqb x y = true <-> x = y.
Proof.
  split; [apply Byte.byte_dec_bl|apply Byte.byte_dec_lb].
Qed.

Lemma byte_to_Z_inj (x y : byte) : byte_to_Z x = byte_to_Z y -> x = y.
Proof.
  intros H. rewrite <- (byte_of_to_Z x), <- (byte_of_to_Z y). now rewrite H.
Qed.

Lemma byte_to_Z_x00 : byte_to_Z x00 = 0.
Proof. reflexivity. Qed.

Lemma pure64_strlen_nonneg (s : list byte) : 0 <= pure64_strlen s.
Proof.
  induction s as [|c s IH]; cbn [pure64_strlen]; [lia|]. destruct (Byte.eqb c x00); lia.
Qed.

Lemma c_str_nil : c_str [] = [].
Proof. reflexivity. Qed.

Lemma c_str_cons (c : byte) (s : list byte) :
  c_str (c :: s) = if Byte.eqb c x00 then [] else c :: c_str s.
Proof.
  unfold c_str, pure64_memcpy. cbn [pure64_strlen].
  destruct (Byte.eqb c x00); [reflexivity|].
  pose proof (pure64_strlen_nonneg s).
  replace (Z.to_nat (1 + pure64_strlen s)) with (S (Z.to_nat (pure64_strlen s))) by lia.
  reflexivity.
Qed.

(** [pure64_strcmp] returns zero exactly on equal C strings. *)
Lemma pure64_strcmp_zero (a b : list byte) :
  pure64_strcmp a b = 0 <-> c_str a = c_str b.
Proof.
  revert b. induction a as [|x a IH]; intros [|y b]; cbn [pure64_strcmp];
    rewrite ?c_str_cons, ?c_str_nil.
  - tauto.
  - destruct (Byte.eqb y x00); split; intros; try reflexivity; discriminate.
  - destruct (Byte.eqb x x00); split; intros; try reflexivity; discriminate.
  - pose proof (byte_to_Z_range x) as Rx. pose proof (byte_to_Z_range y) as Ry.
    destruct (Z.gtb_spec (byte_to_Z x) (byte_to_Z y)) as [G|G].
    { assert (Nx : Byte.eqb x x00 = false).
      { destruct (Byte.eqb x x00) eqn:E; [|reflexivity].
        apply byte_eqb_eq in E. subst x. rewrite byte_to_Z_x00 in G. lia. }
      rewrite Nx. split; [discriminate|].
      destruct (Byte.eqb y x00); [discriminate|].
      intros E. injection E as E _. subst. lia. }
    destruct (Z.ltb_spec (byte_to_Z x) (byte_to_Z y)) as [L|L].
    { assert (Ny : Byte.eqb y x00 = false).
      { destruct (Byte.eqb y x00) eqn:E; [|reflexivity].
        apply byte_eqb_eq in E. subst y. rewrite byte_to_Z_x00 in L. lia. }
      rewrite Ny. split; [discriminate|].
      destruct (Byte.eqb x x00); [discriminate|].
      intros E. injection E as E _. subst. lia. }
    assert (x = y) by (apply byte_to_Z_inj; lia). subst y.
    destruct (Byte.eqb x x00); [tauto|].
    rewrite IH. split; [now intros ->|]. intros E. now injection E.
Qed.

(** ** Name-checked inserts *)

Lemma pure64_dir_name_exists_iff (dir : pure64_dir) (name : list byte) :
  pure64_dir_name_exists dir name = true <-> sibling_named dir name.
Proof.
  unfold pure64_dir_name_exists, sibling_named.
  rewrite orb_true_iff, !existsb_exists.
  split; (intros [[x [I E]]|[x [I E]]]; [left|right]; exists x; (split; [exact I|])).
  - now apply pure64_strcmp_zero, Z.eqb_eq.
  - now apply pure64_strcmp_zero, Z.eqb_eq.
  - now apply Z.eqb_eq, pure64_strcmp_zero.
  - now apply Z.eqb_eq, pure64_strcmp_zero.
Qed.

Section Inserts.

Variable set_name : pure64_file -> list byte -> heap -> status * pure64_file * heap.

(** C7. When [name] already names a child of [dir], file or
    subdirectory, both inserts return the duplicate-name error
    [PURE64_EEXIST] and hand the directory back exactly as it was:
    same name, same children in the same order, same file data, and
    therefore the same counts. *)
Theorem duplicate_insert_rejected (dir : pure64_dir) (name : list byte) (h : heap) :
  sibling_named dir name ->
  pure64_dir_add_file set_name dir name h = (PURE64_EEXIST, dir, h)
  /\ pure64_dir_add_subdir dir name h = (PURE64_EEXIST, dir, h).
Proof.
  intros H. apply pure64_dir_name_exists_iff in H.
  unfold pure64_dir_add_file, pure64_dir_add_subdir. now rewrite H.
Qed.

Lemma add_file_error_unchanged (dir : pure64_dir) (name : list byte) (h : heap) :
  is_error (fst (fst (pure64_dir_add_file set_name dir name h))) = true ->
  snd (fst (pure64_dir_add_file set_name dir name h)) = dir.
Proof.
  unfold pure64_dir_add_file.
  destruct (pure64_dir_name_exists dir name); [reflexivity|].
  destruct (pure64_realloc h) as [[|] h1]; cbn [negb]; [|reflexivity].
  destruct (set_name pure64_file_init name h1) as [[err file] h2].
  destruct (is_error err) eqn:E; [reflexivity|].
  cbn [fst snd is_error]. discriminate.
Qed.

Lemma add_subdir_error_unchanged (dir : pure64_dir) (name : list byte) (h : heap) :
  is_error (fst (fst (pure64_dir_add_subdir dir name h))) = true ->
  snd (fst (pure64_dir_add_subdir dir name h)) = dir.
Proof.
  unfold pure64_dir_add_subdir.
  destruct (pure64_dir_name_exists dir name); [reflexivity|].
  destruct (pure64_realloc h) as [[|] h1]; cbn [negb]; [|reflexivity].
  destruct (pure64_dir_set_name pure64_dir_init name h1) as [[err sub] h2].
  destruct (is_error err) eqn:E; [reflexivity|].
  cbn [fst snd is_error]. discriminate.
Qed.

(** C10. Whatever makes an insert fail, the directory it leaves has the
    [file_count] and [subdir_count] it had before; and the two failures
    of the claim do make it fail: when the allocator has no memory for
    the grown array the insert returns [PURE64_ENOMEM], and when naming
    the new child fails the insert returns that failure's code.  All
    these codes differ from 0. *)
Theorem failed_insert_keeps_counts (dir : pure64_dir) (name : list byte) (h : heap) :
  let add_file := pure64_dir_add_file set_name dir name h in
  let add_subdir := pure64_dir_add_subdir dir name h in
  (is_error (fst (fst add_file)) = true ->
     file_count (snd (fst add_file)) = file_count dir
     /\ subdir_count (snd (fst add_file)) = subdir_count dir)
  /\ (is_error (fst (fst add_subdir)) = true ->
     file_count (snd (fst add_subdir)) = file_count dir
     /\ subdir_count (snd (fst add_subdir)) = subdir_count dir)
  /\ (pure64_dir_name_exists dir name = false ->
      fst (pure64_realloc h) = false ->
      fst (fst add_file) = PURE64_ENOMEM /\ fst (fst add_subdir) = PURE64_ENOMEM)
  /\ (pure64_dir_name_exists dir name = false ->
      fst (pure64_realloc h) = true ->
      let naming := set_name pure64_file_init name (snd (pure64_realloc h)) in
      is_error (fst (fst naming)) = true ->
      fst (fst add_file) = fst (fst naming))
  /\ (pure64_dir_name_exists dir name = false ->
      fst (pure64_realloc h) = true ->
      let naming := pure64_dir_set_name pure64_dir_init name (snd (pure64_realloc h)) in
      is_error (fst (fst naming)) = true ->
      fst (fst add_subdir) = fst (fst naming)).
Proof.
  intros add_file add_subdir. subst add_file add_subdir.
  split; [|split; [|split; [|split]]].
  - intros E. now rewrite (add_file_error_unchanged dir name h E).
  - intros E. now rewrite (add_subdir_error_unchanged dir name h E).
  - intros N F. unfold pure64_dir_add_file, pure64_dir_add_subdir.
    rewrite N. destruct (pure64_realloc h) as [ok h1].
    cbn [fst] in F. subst ok. split; reflexivity.
  - intros N T naming E. subst naming. unfold pure64_dir_add_file.
    rewrite N. destruct (pure64_realloc h) as [ok h1].
    cbn [fst snd] in *. subst ok. cbn [negb].
    destruct (set_name pure64_file_init name h1) as [[err file] h2].
    cbn [fst] in *. now rewrite E.
  - intros N T naming E. subst naming. unfold pure64_dir_add_subdir.
    rewrite N. destruct (pure64_realloc h) as [ok h1].
    cbn [fst snd] in *. subst ok. cbn [negb].
    destruct (pure64_dir_set_name pure64_dir_init name h1) as [[err sub] h2].
    cbn [fst] in *. now rewrite E.
Qed.

End Inserts.

Lemma duplicate_insert_rejected_witness :
  let dir := mkdir [] [] [mkfile ["a"%byte] [x01]] in
  sibling_named dir ["a"%byte]
  /\ pure64_dir_add_file file_set_name_like_dir dir ["a"%byte] plentiful
     = (PURE64_EEXIST, dir, plentiful)
  /\ pure64_dir_add_subdir dir ["a"%byte] plentiful = (PURE64_EEXIST, dir, plentiful).
Proof.
  intros dir.
  assert (H : sibling_named dir ["a"%byte]).
  { left. exists (mkfile ["a"%byte] [x01]). split; [left; reflexivity|reflexivity]. }
  split; [exact H|].
  exact (duplicate_insert_rejected file_set_name_like_dir dir ["a"%byte] plentiful H).
Defined.

Lemma failed_insert_keeps_counts_witness :
  let none : heap := fun _ => false in
  let dir := mkdir [] [] [mkfile ["a"%byte] [x01]] in
  let add_file := pure64_dir_add_file file_set_name_like_dir dir ["b"%byte] none in
  let add_subdir := pure64_dir_add_subdir dir ["b"%byte] none in
  fst (fst add_file) = PURE64_ENOMEM /\ fst (fst add_subdir) = PURE64_ENOMEM
  /\ file_count (snd (fst add_file)) = 1 /\ subdir_count (snd (fst add_subdir)) = 0.
Proof.
  intros none dir add_file add_subdir.
  destruct (failed_insert_keeps_counts file_set_name_like_dir dir ["b"%byte] none)
    as (F & S & A & _).
  destruct (A eq_refl eq_refl) as [EF ES].
  split; [exact EF|]. split; [exact ES|].
  split.
  - apply F. reflexivity.
  - apply S. reflexivity.
Defined.

(** ** Reading and writing a [FILE] *)

Lemma firstn_exact {A : Type} (n : nat) (l1 l2 : list A) :
  n = length l1 -> firstn n (l1 ++ l2) = l1.
Proof.
  intros ->. rewrite firstn_app, Nat.sub_diag, firstn_O, app_nil_r.
  apply firstn_all2. lia.
Qed.

Lemma skipn_exact {A : Type} (n : nat) (l1 l2 : list A) :
  n = length l1 -> skipn n (l1 ++ l2) = l2.
Proof.
  intros ->. rewrite skipn_app, Nat.sub_diag, skipn_O.
  rewrite skipn_all2 by lia. reflexivity.
Qed.

Lemma length_zeros (n : Z) : length (zeros n) = Z.to_nat n.
Proof. apply repeat_length. Qed.

Lemma zeros_nonpos (n : Z) : n <= 0 -> zeros n = [].
Proof.
  intros H. unfold zeros. replace (Z.to_nat n) with O by lia. reflexivity.
Qed.

Lemma length_before (data : list byte) (pos : Z) :
  0 <= pos -> length (before data pos) = Z.to_nat pos.
Proof.
  intros H. unfold before. rewrite length_app, length_firstn, length_zeros. lia.
Qed.

Lemma store_nonempty (data : list byte) (pos : Z) (buf : list byte) :
  buf <> [] ->
  store data pos buf
  = before data pos ++ buf ++ skipn (Z.to_nat pos + length buf) data.
Proof.
  intros N. destruct buf as [|b buf]; [now elim N|].
  unfold store, before. now rewrite <- app_assoc.
Qed.

Lemma store_store (data : list byte) (pos : Z) (a b : list byte) :
  0 <= pos ->
  store (store data pos a) (pos + Z.of_nat (length a)) b = store data pos (a ++ b).
Proof.
  intros Hp. destruct a as [|x a].
  - cbn [store length app]. now rewrite Z.add_0_r.
  - destruct b as [|y b]; [now rewrite app_nil_r|].
    set (a' := x :: a). set (b' := y :: b).
    assert (Na : a' <> []) by discriminate.
    assert (Nb : b' <> []) by discriminate.
    assert (Nab : a' ++ b' <> []) by (intros E; apply app_eq_nil in E; tauto).
    rewrite (store_nonempty data pos (a' ++ b') Nab).
    rewrite (store_nonempty data pos a' Na).
    set (P := before data pos).
    assert (LP : length P = Z.to_nat pos) by (apply length_before; exact Hp).
    set (S := skipn (Z.to_nat pos + length a') data).
    rewrite (store_nonempty _ _ b' Nb). unfold before.
    replace (P ++ a' ++ S) with ((P ++ a') ++ S) by now rewrite <- app_assoc.
    rewrite firstn_exact by (rewrite length_app; lia).
    rewrite zeros_nonpos by (rewrite !length_app; lia).
    rewrite skipn_app.
    rewrite (skipn_all2 (P ++ a')) by (rewrite length_app; lia).
    replace (Z.to_nat (pos + Z.of_nat (length a')) + length b'
             - length (P ++ a'))%nat with (length b')
      by (rewrite length_app; lia).
    unfold S. rewrite skipn_skipn.
    replace (length b' + (Z.to_nat pos + length a'))%nat
      with (Z.to_nat pos + length (a' ++ b'))%nat
      by (rewrite length_app; lia).
    cbn [app]. now rewrite app_nil_r, <- !app_assoc.
Qed.

Lemma f_pos_written (buf : list byte) (f : FILE) :
  f_pos (written buf f) = f_pos f + Z.of_nat (length buf).
Proof. reflexivity. Qed.

Lemma f_data_written (buf : list byte) (f : FILE) :
  f_data (written buf f) = store (f_data f) (f_pos f) buf.
Proof. reflexivity. Qed.

Lemma written_nil (f : FILE) : written [] f = f.
Proof.
  destruct f as [data pos]. unfold written, fwrite. cbn [snd f_data f_pos store length].
  now rewrite Z.add_0_r.
Qed.

Lemma written_app (a b : list byte) (f : FILE) :
  0 <= f_pos f -> written b (written a f) = written (a ++ b) f.
Proof.
  intros H. destruct f as [data pos]. cbn [f_pos] in H.
  unfold written, fwrite. cbn [snd f_data f_pos].
  rewrite store_store by exact H. rewrite length_app. f_equal. lia.
Qed.

(** What a non-empty write leaves in the file: the bytes written sit at
    the position the write started from. *)
Lemma written_layout (buf : list byte) (f : FILE) :
  0 <= f_pos f -> buf <> [] ->
  exists pre post,
    f_data (written buf f) = pre ++ buf ++ post
    /\ Z.of_nat (length pre) = f_pos f.
Proof.
  intros H N. destruct buf as [|b buf]; [now elim N|].
  exists (before (f_data f) (f_pos f)),
    (skipn (Z.to_nat (f_pos f) + length (b :: buf)) (f_data f)).
  split.
  - rewrite f_data_written. apply store_nonempty. discriminate.
  - rewrite length_before by exact H. lia.
Qed.

Lemma load_exact (pre bs post : list byte) (pos n : Z) :
  pos = Z.of_nat (length pre) -> n = Z.of_nat (length bs) ->
  load (pre ++ bs ++ post) pos n = bs.
Proof.
  intros -> ->. unfold load. rewrite !Nat2Z.id.
  rewrite skipn_exact by reflexivity. now apply firstn_exact.
Qed.

Lemma fread_exact (pre bs post : list byte) (pos n : Z) :
  pos = Z.of_nat (length pre) -> n = Z.of_nat (length bs) ->
  fread n (mkFILE (pre ++ bs ++ post) pos) = (bs, mkFILE (pre ++ bs ++ post) (pos + n)).
Proof.
  intros Hp Hn. unfold fread. cbn [f_data f_pos].
  replace (Z.min n (Z.max 0 (Z.of_nat (length (pre ++ bs ++ post)) - pos))) with n
    by (rewrite !length_app; lia).
  rewrite (load_exact pre bs post pos n Hp Hn). now rewrite <- Hn.
Qed.

(** ** Little-endian fields *)

Lemma length_le_bytes (n : nat) (v : Z) : length (le_bytes n v) = n.
Proof.
  revert v. induction n as [|n IH]; intros v; cbn [le_bytes length]; [reflexivity|].
  now rewrite IH.
Qed.

Lemma le_value_le_bytes (n : nat) (v : Z) :
  le_value (le_bytes n v) = v mod 256 ^ Z.of_nat n.
Proof.
  revert v. induction n as [|n IH]; intros v; cbn [le_bytes le_value].
  - now rewrite Z.mod_1_r.
  - rewrite IH, byte_to_of_Z.
    replace (256 ^ Z.of_nat (S n)) with (256 * 256 ^ Z.of_nat n)
      by (rewrite Nat2Z.inj_succ, Z.pow_succ_r by lia; reflexivity).
    rewrite Z.rem_mul_r by (try apply Z.pow_pos_nonneg; lia). reflexivity.
Qed.

Lemma le_value_le_bytes_8 (v : Z) : 0 <= v < 2 ^ 64 -> le_value (le_bytes 8 v) = v.
Proof.
  intros H. rewrite le_value_le_bytes.
  change (256 ^ Z.of_nat 8) with (2 ^ 64). now apply Z.mod_small.
Qed.

Lemma le_value_le_bytes_4 (v : Z) : 0 <= v < 2 ^ 32 -> le_value (le_bytes 4 v) = v.
Proof.
  intros H. rewrite le_value_le_bytes.
  change (256 ^ Z.of_nat 4) with (2 ^ 32). now apply Z.mod_small.
Qed.

(** ** The tree codec *)

Lemma All_In {A : Type} (P : A -> Prop) (l : list A) (x : A) :
  All P l -> In x l -> P x.
Proof.
  induction l as [|y l IH]; intros HA HI; [contradiction|].
  destruct HA as [Hy Hl]. destruct HI as [->|HI]; [exact Hy|now apply IH].
Qed.

Lemma writes_ret : writes (ret tt) [].
Proof.
  intros [f h] _. unfold ret. cbn [io mem]. now rewrite written_nil.
Qed.

Lemma writes_bind (m k : M unit) (a b : list byte) :
  writes m a -> writes k b -> writes (m ;; k) (a ++ b).
Proof.
  intros Hm Hk w Hw. unfold bind. rewrite (Hm w Hw).
  rewrite Hk by (cbn [io]; rewrite f_pos_written; lia).
  cbn [io mem]. now rewrite written_app.
Qed.

Lemma writes_stream_write (bs : list byte) : writes (pure64_stream_write bs) bs.
Proof.
  intros w _. unfold pure64_stream_write, fstream_write, fwrite.
  now rewrite Z.eqb_refl.
Qed.

Lemma writes_encode_uint64 (n : Z) : writes (encode_uint64 n) (le_bytes 8 n).
Proof. apply writes_stream_write. Qed.

Lemma writes_for_each {A : Type} (f : A -> M unit) (enc : A -> list byte) (xs : list A) :
  (forall x, In x xs -> writes (f x) (enc x)) ->
  writes (for_each f xs) (flat_map enc xs).
Proof.
  induction xs as [|x xs IH]; intros H; cbn [for_each flat_map].
  - apply writes_ret.
  - apply writes_bind; [apply H; now left|].
    apply IH. intros y Hy. apply H. now right.
Qed.

Lemma writes_conv (m : M unit) (bs bs' : list byte) :
  writes m bs -> bs = bs' -> writes m bs'.
Proof. now intros H <-. Qed.

Lemma pure64_file_export_writes (file : pure64_file) :
  writes (pure64_file_export file) (file_bytes file).
Proof.
  unfold pure64_file_export, file_bytes.
  repeat (apply writes_bind; [first [apply writes_encode_uint64|apply writes_stream_write]|]).
  apply writes_stream_write.
Qed.

Lemma pure64_dir_export_writes (dir : pure64_dir) :
  writes (pure64_dir_export dir) (dir_bytes dir).
Proof.
  induction dir as [name subdirs files IH] using pure64_dir_ind.
  cbn [pure64_dir_export dir_bytes].
  repeat (apply writes_bind; [first [apply writes_encode_uint64|apply writes_stream_write]|]).
  apply writes_bind.
  - apply writes_for_each. intros d Hd. exact (All_In _ _ _ IH Hd).
  - apply writes_for_each. intros f _. apply pure64_file_export_writes.
Qed.

Lemma reads_conv {A : Type} (m : M A) (bs bs' : list byte) (x : A) :
  reads m bs x -> bs = bs' -> reads m bs' x.
Proof. now intros H <-. Qed.

Lemma reads_ret {A : Type} (x : A) : reads (ret x) [] x.
Proof.
  intros pre post h Hh. exists h. split; [|exact Hh].
  unfold ret. cbn [length]. now rewrite Z.add_0_r.
Qed.

Lemma reads_bind {A B : Type} (m : M A) (k : A -> M B) (a b : list byte) (x : A) (y : B) :
  reads m a x -> reads (k x) b y -> reads (bind m k) (a ++ b) y.
Proof.
  intros Hm Hk pre post h Hh.
  destruct (Hm pre (b ++ post) h Hh) as (h1 & E1 & H1).
  destruct (Hk (pre ++ a) post h1 H1) as (h2 & E2 & H2).
  exists h2. split; [|exact H2].
  unfold bind. rewrite <- (app_assoc a b post), E1.
  rewrite <- (app_assoc pre a), length_app, Nat2Z.inj_add in E2.
  rewrite E2, length_app, Nat2Z.inj_add, Z.add_assoc. reflexivity.
Qed.

Lemma reads_allocate : reads allocate [] true.
Proof.
  intros pre post h Hh. exists (fun n => h (S n)). split.
  - unfold allocate, pure64_malloc. cbn [mem io length].
    now rewrite Hh, Z.add_0_r.
  - intros n. apply Hh.
Qed.

Lemma reads_stream_read (bs : list byte) :
  reads (pure64_stream_read (Z.of_nat (length bs))) bs bs.
Proof.
  intros pre post h Hh. exists h. split; [|exact Hh].
  unfold pure64_stream_read, fstream_read. cbn [io mem].
  rewrite (fread_exact pre bs post _ _ eq_refl eq_refl).
  now rewrite Z.eqb_refl.
Qed.

Lemma reads_decode_uint64 (v : Z) :
  0 <= v < 2 ^ 64 -> reads decode_uint64 (le_bytes 8 v) v.
Proof.
  intros H. unfold decode_uint64.
  apply reads_conv with (bs := le_bytes 8 v ++ []); [|apply app_nil_r].
  apply reads_bind with (x := le_bytes 8 v).
  - pose proof (reads_stream_read (le_bytes 8 v)) as R.
    now rewrite length_le_bytes in R.
  - rewrite (le_value_le_bytes_8 v H). apply reads_ret.
Qed.

Lemma reads_fill_each {A : Type} (m : M A) (enc : A -> list byte) (xs : list A) :
  (forall x, In x xs -> reads m (enc x) x) ->
  reads (fill_each (length xs) m) (flat_map enc xs) xs.
Proof.
  induction xs as [|x xs IH]; intros H; cbn [fill_each length flat_map].
  - apply reads_ret.
  - apply reads_bind with (x := x); [apply H; now left|].
    apply reads_conv with (bs := flat_map enc xs ++ []); [|apply app_nil_r].
    apply reads_bind with (x := xs); [|apply reads_ret].
    apply IH. intros y Hy. apply H. now right.
Qed.

Lemma pure64_file_import_reads (file : pure64_file) :
  file_fits file -> reads pure64_file_import (file_bytes file) file.
Proof.
  intros [Hn Hd]. destruct file as [name data].
  unfold file_name_size, file_data_size in Hn, Hd. cbn [file_name file_data] in Hn, Hd.
  unfold pure64_file_import, file_bytes, file_name_size, file_data_size.
  cbn [file_name file_data].
  apply reads_bind with (x := Z.of_nat (length name)); [apply reads_decode_uint64; lia|].
  apply reads_bind with (x := Z.of_nat (length data)); [apply reads_decode_uint64; lia|].
  apply (reads_bind allocate _ [] _ true); [apply reads_allocate|].
  apply (reads_bind allocate _ [] _ true); [apply reads_allocate|].
  cbn [negb orb].
  apply reads_bind with (x := name); [apply reads_stream_read|].
  apply reads_conv with (bs := data ++ []); [|apply app_nil_r].
  apply reads_bind with (x := data); [apply reads_stream_read|].
  apply reads_ret.
Qed.

Lemma height_subdir (name : list byte) (subdirs : list pure64_dir)
  (files : list pure64_file) (d : pure64_dir) (fuel : nat) :
  In d subdirs -> (height (mkdir name subdirs files) <= S fuel)%nat ->
  (height d <= fuel)%nat.
Proof.
  cbn [height]. intros HI HH. apply le_S_n in HH. revert HI HH.
  induction subdirs as [|s subdirs IH]; [contradiction|].
  cbn [fold_right]. intros [->|HI] HH; [lia|apply IH; [exact HI|lia]].
Qed.

Lemma pure64_dir_import_fuel_reads (dir : pure64_dir) :
  dir_fits dir ->
  forall fuel, (height dir <= fuel)%nat ->
    reads (pure64_dir_import_fuel fuel) (dir_bytes dir) dir.
Proof.
  induction dir as [name subdirs files IH] using pure64_dir_ind.
  intros (Hn & Hs & Hf & Ffiles & Fsubs) fuel Hfuel.
  destruct fuel as [|fuel]; [cbn [height] in Hfuel; lia|].
  cbn [pure64_dir_import_fuel dir_bytes].
  apply reads_bind with (x := Z.of_nat (length name)); [apply reads_decode_uint64; lia|].
  apply reads_bind with (x := Z.of_nat (length subdirs)); [apply reads_decode_uint64; lia|].
  apply reads_bind with (x := Z.of_nat (length files)); [apply reads_decode_uint64; lia|].
  apply (reads_bind allocate _ [] _ true); [apply reads_allocate|].
  apply (reads_bind allocate _ [] _ true); [apply reads_allocate|].
  apply (reads_bind allocate _ [] _ true); [apply reads_allocate|].
  cbn [negb orb].
  apply reads_bind with (x := name); [apply reads_stream_read|].
  rewrite !Nat2Z.id.
  apply reads_bind with (x := subdirs).
  { apply reads_fill_each. intros d Hd.
    apply (All_In _ _ _ IH Hd).
    - exact (All_In _ _ _ Fsubs Hd).
    - exact (height_subdir name subdirs files d fuel Hd Hfuel). }
  apply reads_conv with (bs := flat_map file_bytes files ++ []); [|apply app_nil_r].
  apply reads_bind with (x := files); [|apply reads_ret].
  apply reads_fill_each. intros f Hf'.
  apply pure64_file_import_reads. exact (All_In _ _ _ Ffiles Hf').
Qed.

Lemma dir_bytes_header (dir : pure64_dir) : (24 <= length (dir_bytes dir))%nat.
Proof.
  destruct dir as [name subdirs files]. cbn [dir_bytes].
  rewrite !length_app, !length_le_bytes. lia.
Qed.

Lemma height_le_bytes (dir : pure64_dir) : (height dir <= length (dir_bytes dir))%nat.
Proof.
  induction dir as [name subdirs files IH] using pure64_dir_ind.
  cbn [height dir_bytes]. rewrite !length_app, !length_le_bytes.
  assert (fold_right (fun d acc => Nat.max (height d) acc) O subdirs
          <= length (flat_map dir_bytes subdirs))%nat; [|lia].
  induction subdirs as [|s subdirs IHs]; cbn [fold_right flat_map]; [lia|].
  destruct IH as [Hs Hrest]. rewrite length_app. specialize (IHs Hrest). lia.
Qed.

(** C1. A tree whose counts fit the [uint64_t] fields of the C structs
    and whose sibling names are unique is exported without error at any
    position of any stream; and importing from that position of the
    medium just written, with an allocator that does not fail, succeeds
    and yields the very same tree - names, nesting, order of children and
    file data - leaving the stream where the export ended. *)
Theorem export_import_roundtrip (tree : pure64_dir) (out : FILE) (h : heap) :
  dir_fits tree ->
  unique_sibling_names tree ->
  0 <= f_pos out ->
  all_true h ->
  exists exported : world,
    pure64_dir_export tree (mkworld out h) = Done tt exported
    /\ exists imported : world,
         pure64_dir_import (mkworld (mkFILE (f_data (io exported)) (f_pos out)) h)
         = Done tree imported
         /\ f_data (io imported) = f_data (io exported)
         /\ f_pos (io imported) = f_pos (io exported).
Proof.
  intros Hfits _ Hpos Hh.
  exists (mkworld (written (dir_bytes tree) out) h). split.
  { exact (pure64_dir_export_writes tree (mkworld out h) Hpos). }
  cbn [io].
  assert (N : dir_bytes tree <> []).
  { intros E. pose proof (dir_bytes_header tree) as L. rewrite E in L. cbn in L. lia. }
  destruct (written_layout (dir_bytes tree) out Hpos N) as (pre & post & D & P).
  unfold pure64_dir_import. cbn [io f_data].
  assert (F : (height tree <= S (length (f_data (written (dir_bytes tree) out))))%nat).
  { pose proof (height_le_bytes tree). rewrite D, !length_app. lia. }
  destruct (pure64_dir_import_fuel_reads tree Hfits _ F pre post h Hh) as (h' & E & _).
  rewrite D, <- P. rewrite D in E. rewrite E.
  eexists. split; [reflexivity|]. cbn [io f_data f_pos]. split; [reflexivity|].
  rewrite f_pos_written. lia.
Qed.

Lemma export_import_roundtrip_witness :
  let tree :=
    mkdir []
      [mkdir ["b"; "i"; "n"]%byte [] [mkfile ["s"; "h"]%byte [x7f; x45]];
       mkdir ["e"; "t"; "c"]%byte [] []]
      [mkfile ["a"]%byte [x00; xff]] in
  let out := mkFILE [x07; x07; x07] 5 in
  exists exported : world,
    pure64_dir_export tree (mkworld out plentiful) = Done tt exported
    /\ exists imported : world,
         pure64_dir_import (mkworld (mkFILE (f_data (io exported)) (f_pos out)) plentiful)
         = Done tree imported
         /\ f_data (io imported) = f_data (io exported)
         /\ f_pos (io imported) = f_pos (io exported).
Proof.
  intros tree out.
  apply (export_import_roundtrip tree out plentiful).
  - cbn. repeat split; reflexivity.
  - cbn. repeat split; repeat constructor; cbn; intuition discriminate.
  - cbn. lia.
  - intros n. reflexivity.
Defined.

(** ** The layout of the image *)

Ltac Zify.zify_post_hook ::= Z.to_euclidean_division_equations.

Lemma u64_small (z : Z) : 0 <= z < 2 ^ 64 -> u64 z = z.
Proof. intros H. unfold u64. now apply Z.mod_small. Qed.

Lemma to_long_small (z : Z) : 0 <= z <= LONG_MAX -> to_long z = z.
Proof.
  unfold to_long, LONG_MAX. intros H.
  rewrite u64_small by lia.
  destruct (Z.leb_spec z (2 ^ 63 - 1)); [reflexivity|lia].
Qed.

Lemma stage_too_big_iff (data_size : Z) :
  0 <= data_size < 2 ^ 64 - 511 ->
  (stage_too_big data_size = true <-> 0x7f * 512 < data_size).
Proof.
  intros H. unfold stage_too_big. rewrite u64_small by lia.
  destruct (Z.gtb_spec ((data_size + 511) / 512) 127); split; intros; try lia; discriminate.
Qed.

Lemma stage_fits (data_size : Z) :
  0 <= data_size <= 0x7f * 512 -> stage_too_big data_size = false.
Proof.
  intros H. destruct (stage_too_big data_size) eqn:E; [|reflexivity].
  apply stage_too_big_iff in E; lia.
Qed.

Lemma ramfs_export_offsets_eq (s2 s3 : Z) :
  0 <= s2 <= 0x7f * 512 -> 0 <= s3 <= 0x7f * 512 ->
  ramfs_export_offsets s2 s3
  = (0x2000, round_up_512 (0x2000 + s2), round_up_512 (0x2000 + s2 + s3)).
Proof.
  intros H2 H3. unfold ramfs_export_offsets, round_up_512.
  rewrite (u64_small (0x2000 + s2)) by lia.
  rewrite (u64_small (0x2000 + s2 + s3)) by lia.
  rewrite (u64_small (0x2000 + s2 + 511)) by lia.
  rewrite (u64_small (0x2000 + s2 + s3 + 511)) by lia.
  rewrite (u64_small ((0x2000 + s2 + 511) / 512 * 512)) by lia.
  rewrite (u64_small ((0x2000 + s2 + s3 + 511) / 512 * 512)) by lia.
  reflexivity.
Qed.

(** What does hold of the offsets: all three are sector multiples,
    stage 2 lies before stage 3, and the file system does not lie before
    stage 3. *)
Lemma ramfs_export_offsets_ordered (s2 s3 : Z) :
  0 < s2 <= 0x7f * 512 -> 0 < s3 <= 0x7f * 512 ->
  let '(st2_offset, st3_offset, fs_offset) := ramfs_export_offsets s2 s3 in
  st2_offset mod 512 = 0 /\ st3_offset mod 512 = 0 /\ fs_offset mod 512 = 0
  /\ st2_offset < st3_offset <= fs_offset.
Proof.
  intros H2 H3. rewrite ramfs_export_offsets_eq by lia.
  unfold round_up_512. lia.
Qed.

(** C4, at the sizes where the code departs from the claim: stage
    binaries of one byte each pass the size check, and the offsets
    computed for them put the file system at the very offset of stage 3,
    not after it; in the file the assembly writes, the byte of stage 3
    (0xAA here) is gone, overwritten by the first byte of the exported
    tree. *)
Theorem ramfs_export_offsets_collide :
  stage_too_big 1 = false
  /\ ramfs_export_offsets 1 1 = (8192, 8704, 8704)
  /\ exists file,
       ramfs_export_write (zeros 512) [x01] [xaa] (mkfs pure64_dir_init) plentiful
       = (EXIT_SUCCESS, Some file)
       /\ load (f_data file) 8192 1 = [x01]
       /\ load (f_data file) 8704 1 = [x00].
Proof.
  split; [vm_compute; reflexivity|]. split; [vm_compute; reflexivity|].
  eexists. split; [vm_compute; reflexivity|].
  split; vm_compute; reflexivity.
Qed.

(** ** The size check of [init] *)

Lemma minimum_size_eq : minimum_size = 92 + 128 * 128 + 128 * 512 + 128 * 128 + 92.
Proof. vm_compute. reflexivity. Qed.

(** C5 as stated fails: a disk size equal to the minimum of the claim
    (33464 bytes) does not pass the size check, and [init] returns
    [EXIT_FAILURE] without opening the file. *)
Lemma claimed_minimum_size_rejected :
  claimed_minimum_size = 33464
  /\ disk_size_rejected claimed_minimum_size = true
  /\ pure64_init_disk (zeros 512) (fun str => (OK, firstn 16 str)) None claimed_minimum_size
     = (EXIT_FAILURE, None).
Proof. repeat split; vm_compute; reflexivity. Qed.

Lemma disk_size_rejected_iff (disk_size : Z) :
  disk_size_rejected disk_size = true <-> disk_size < 98488.
Proof.
  unfold disk_size_rejected. rewrite minimum_size_eq.
  destruct (Z.ltb_spec disk_size (92 + 128 * 128 + 128 * 512 + 128 * 128 + 92));
    split; intros; try lia; discriminate.
Qed.

(** ** More on reading and writing a [FILE] *)

Lemma fseek_ok (f : FILE) (offset : Z) :
  0 <= offset -> fseek f offset = (0, mkFILE (f_data f) offset).
Proof.
  intros H. unfold fseek. destruct (Z.ltb_spec offset 0); [lia|reflexivity].
Qed.

Lemma fwrite_written (buf : list byte) (f : FILE) :
  fwrite buf f = (Z.of_nat (length buf), written buf f).
Proof. reflexivity. Qed.

Lemma length_store (data : list byte) (pos : Z) (buf : list byte) :
  0 <= pos -> buf <> [] ->
  Z.of_nat (length (store data pos buf))
  = Z.max (Z.of_nat (length data)) (pos + Z.of_nat (length buf)).
Proof.
  intros Hp N. rewrite store_nonempty by exact N.
  rewrite !length_app, length_before, length_skipn by exact Hp. lia.
Qed.

(** A write over bytes that are already there. *)
Lemma written_at (data pre old post new : list byte) (pos : Z) :
  data = pre ++ old ++ post -> pos = Z.of_nat (length pre) ->
  length old = length new ->
  written new (mkFILE data pos) = mkFILE (pre ++ new ++ post) (pos + Z.of_nat (length new)).
Proof.
  intros -> -> L. unfold written, fwrite. cbn [snd f_data f_pos]. f_equal.
  destruct new as [|b new].
  - destruct old; [reflexivity|discriminate].
  - rewrite store_nonempty by discriminate. unfold before.
    rewrite Nat2Z.id, firstn_exact by reflexivity.
    rewrite zeros_nonpos by (rewrite !length_app; lia).
    rewrite <- L, app_nil_r. do 2 f_equal.
    replace (pre ++ old ++ post) with ((pre ++ old) ++ post) by now rewrite <- app_assoc.
    apply skipn_exact. rewrite length_app. lia.
Qed.

(** A write at or past the end of the file. *)
Lemma written_past_end (data new : list byte) (pos : Z) :
  Z.of_nat (length data) <= pos -> new <> [] ->
  written new (mkFILE data pos)
  = mkFILE (data ++ zeros (pos - Z.of_nat (length data)) ++ new)
      (pos + Z.of_nat (length new)).
Proof.
  intros H N. unfold written, fwrite. cbn [snd f_data f_pos]. f_equal.
  rewrite store_nonempty by exact N. unfold before.
  rewrite firstn_all2 by lia. rewrite skipn_all2 by lia.
  now rewrite app_nil_r, <- app_assoc.
Qed.

Lemma written_at_end (data new : list byte) (pos : Z) :
  pos = Z.of_nat (length data) ->
  written new (mkFILE data pos) = mkFILE (data ++ new) (pos + Z.of_nat (length new)).
Proof.
  intros ->. destruct new as [|b new].
  - rewrite written_nil. cbn [length]. now rewrite app_nil_r, Z.add_0_r.
  - rewrite written_past_end by (try discriminate; lia).
    rewrite zeros_nonpos by lia. reflexivity.
Qed.

Lemma fread_at (data pre bs post : list byte) (pos n : Z) :
  data = pre ++ bs ++ post -> pos = Z.of_nat (length pre) -> n = Z.of_nat (length bs) ->
  fread n (mkFILE data pos) = (bs, mkFILE data (pos + n)).
Proof. intros ->. apply fread_exact. Qed.

Lemma zeros_succ (n : nat) : zeros (Z.of_nat (S n)) = x00 :: zeros (Z.of_nat n).
Proof. unfold zeros. now rewrite !Nat2Z.id. Qed.

Lemma zeros_app (a b : Z) : 0 <= a -> 0 <= b -> zeros (a + b) = zeros a ++ zeros b.
Proof.
  intros Ha Hb. unfold zeros. rewrite Z2Nat.inj_add by lia. apply repeat_app.
Qed.

Lemma zero_file_data_loop_written (size : nat) (file : FILE) :
  0 <= f_pos file ->
  zero_file_data_loop size file = written (zeros (Z.of_nat size)) file.
Proof.
  revert file. induction size as [|size IH]; intros file H.
  - cbn [zero_file_data_loop]. now rewrite written_nil.
  - cbn [zero_file_data_loop]. unfold fputc. rewrite fwrite_written. cbn [snd].
    rewrite IH by (rewrite f_pos_written; lia).
    rewrite written_app by exact H. now rewrite zeros_succ.
Qed.

Lemma zero_file_data_written (file : FILE) (size : Z) :
  0 <= f_pos file -> 0 <= size ->
  zero_file_data file size = written (zeros size) file.
Proof.
  intros H Hs. unfold zero_file_data. rewrite zero_file_data_loop_written by exact H.
  now rewrite Z2Nat.id.
Qed.

Lemma counted_fwrite_fold (fields : list (list byte)) (count : Z) (file : FILE) :
  0 <= f_pos file ->
  fold_left counted_fwrite fields (count, file)
  = (count + Z.of_nat (length (concat fields)), written (concat fields) file).
Proof.
  revert count file. induction fields as [|buf fields IH]; intros count file H.
  - cbn [fold_left concat length]. now rewrite written_nil, Z.add_0_r.
  - rewrite fold_left_cons. unfold counted_fwrite at 2. rewrite fwrite_written.
    cbn [fst snd]. rewrite IH by (rewrite f_pos_written; lia).
    cbn [concat]. rewrite written_app by exact H. rewrite length_app. f_equal. lia.
Qed.

Lemma length_written_bounds (buf : list byte) (f : FILE) :
  0 <= f_pos f ->
  Z.of_nat (length (f_data f)) <= Z.of_nat (length (f_data (written buf f)))
  /\ Z.of_nat (length (f_data (written buf f)))
     <= Z.max (Z.of_nat (length (f_data f))) (f_pos f + Z.of_nat (length buf)).
Proof.
  intros H. rewrite f_data_written. destruct buf as [|b buf].
  - cbn [store]. lia.
  - rewrite length_store by (try discriminate; exact H). lia.
Qed.

Lemma length_written (buf : list byte) (f : FILE) :
  0 <= f_pos f -> buf <> [] ->
  Z.of_nat (length (f_data (written buf f)))
  = Z.max (Z.of_nat (length (f_data f))) (f_pos f + Z.of_nat (length buf)).
Proof.
  intros H N. rewrite f_data_written. now apply length_store.
Qed.

(** ** Image assembly *)

Section MkfsFacts.

Variable mbr_data : list byte.
Variable pure64_data : list byte.
Variable stage_three_data : list byte.
Variable mbr_set_daps : list byte -> Z -> Z -> Z -> Z -> list byte.

Let S2 := pure64_data_size pure64_data.
Let S3 := stage_three_data_size stage_three_data.

Hypothesis mbr_is_a_sector : Z.of_nat (length mbr_data) = 512.
Hypothesis stage_two_fits : S2 <= 0x7f * 512.
Hypothesis stage_three_fits : S3 <= 0x7f * 512.

Lemma ramfs_export_write_ok (fs : pure64_fs) (h : heap) :
  exists file,
    ramfs_export_write mbr_data pure64_data stage_three_data fs h
    = (EXIT_SUCCESS, Some file)
    /\ ftell file = export_end pure64_data stage_three_data fs
    /\ export_end pure64_data stage_three_data fs <= Z.of_nat (length (f_data file))
    /\ Z.of_nat (length (f_data file)) <= Z.max (export_end pure64_data stage_three_data fs) 139264.
Proof.
  assert (R2 : 0 <= S2) by (unfold S2, pure64_data_size; lia).
  assert (R3 : 0 <= S3) by (unfold S3, stage_three_data_size; lia).
  unfold ramfs_export_write.
  fold S2 S3.
  rewrite (stage_fits S2), (stage_fits S3) by lia.
  rewrite fwrite_written, Z.eqb_refl. cbn [negb].
  rewrite ramfs_export_offsets_eq by lia.
  set (f1 := written mbr_data fopen_wb).
  assert (P1 : f_pos f1 = 512) by (unfold f1; rewrite f_pos_written; cbn [fopen_wb f_pos]; lia).
  assert (L1 : Z.of_nat (length (f_data f1)) = 512).
  { unfold f1, fopen_wb. rewrite written_at_end by reflexivity. cbn [f_data app]. lia. }
  rewrite to_long_small by (unfold LONG_MAX; lia).
  rewrite fseek_ok by lia. rewrite Z.eqb_refl. cbn [negb].
  rewrite fwrite_written. change (Z.of_nat (length pure64_data)) with S2.
  rewrite Z.eqb_refl. cbn [negb].
  set (f2 := written pure64_data (mkFILE (f_data f1) 8192)).
  destruct (length_written_bounds pure64_data (mkFILE (f_data f1) 8192)) as [L2a L2b];
    [cbn [f_pos]; lia|].
  fold f2 in L2a, L2b. cbn [f_data f_pos] in L2a, L2b.
  change (Z.of_nat (length pure64_data)) with S2 in L2b.
  assert (Q3 : 0 <= round_up_512 (8192 + S2) <= 8192 + S2 + 511) by (unfold round_up_512; lia).
  rewrite to_long_small by (unfold LONG_MAX; lia).
  rewrite fseek_ok by lia. rewrite Z.eqb_refl. cbn [negb].
  rewrite fwrite_written. change (Z.of_nat (length stage_three_data)) with S3.
  rewrite Z.eqb_refl. cbn [negb].
  set (f3 := written stage_three_data (mkFILE (f_data f2) (round_up_512 (8192 + S2)))).
  destruct (length_written_bounds stage_three_data
              (mkFILE (f_data f2) (round_up_512 (8192 + S2)))) as [L3a L3b];
    [cbn [f_pos]; lia|].
  fold f3 in L3a, L3b. cbn [f_data f_pos] in L3a, L3b.
  change (Z.of_nat (length stage_three_data)) with S3 in L3b.
  assert (Q4 : 0 <= round_up_512 (8192 + S2 + S3) <= 8192 + S2 + S3 + 511)
    by (unfold round_up_512; lia).
  rewrite to_long_small by (unfold LONG_MAX; lia).
  rewrite fseek_ok by lia. rewrite Z.eqb_refl. cbn [negb].
  unfold pure64_fs_export.
  rewrite pure64_dir_export_writes by (cbn [io f_pos]; lia).
  cbn [io mem].
  eexists. split; [reflexivity|].
  assert (N : dir_bytes (root fs) <> []).
  { intros E. pose proof (dir_bytes_header (root fs)) as L. rewrite E in L. cbn in L. lia. }
  unfold ftell, export_end. fold S2 S3. rewrite f_pos_written. cbn [f_pos].
  split; [reflexivity|].
  rewrite length_written by (try exact N; cbn [f_pos]; lia).
  cbn [f_data f_pos]. lia.
Qed.

Hypothesis mbr_set_daps_length :
  forall mbr s2 c2 s3 c3, length (mbr_set_daps mbr s2 c2 s3 c3) = length mbr.

Lemma pure64_mbr_update_ok (file : FILE) (h : heap) (s2 c2 s3 c3 : Z) :
  512 <= Z.of_nat (length (f_data file)) ->
  exists mbr w w',
    pure64_mbr_read (mkworld file h) = Done mbr w
    /\ pure64_mbr_write (mbr_set_daps mbr s2 c2 s3 c3) w = Done tt w'
    /\ length (f_data (io w')) = length (f_data file).
Proof.
  intros L. destruct file as [data pos]. cbn [f_data] in L.
  set (mbr := firstn (Z.to_nat 512) data).
  set (rest := skipn (Z.to_nat 512) data).
  assert (D : data = [] ++ mbr ++ rest) by (cbn [app]; symmetry; apply firstn_skipn).
  assert (Lm : Z.of_nat (length mbr) = 512) by (unfold mbr; rewrite length_firstn; lia).
  exists mbr. eexists. eexists.
  unfold pure64_mbr_read, pure64_mbr_write, bind, pure64_stream_set_pos,
    fstream_set_pos, pure64_stream_read, pure64_stream_write, fstream_read, fstream_write.
  cbn [io mem].
  replace (0 >? LONG_MAX) with false by reflexivity.
  rewrite fseek_ok by lia. cbn [Z.eqb negb is_error io mem f_data].
  rewrite (fread_at data [] mbr rest 0 512 D) by (cbn [length]; lia).
  rewrite Lm, Z.eqb_refl. cbn [negb is_error io mem].
  split; [reflexivity|].
  rewrite fseek_ok by lia. cbn [Z.eqb negb is_error io mem f_data].
  rewrite fwrite_written, Z.eqb_refl. cbn [negb is_error].
  split; [reflexivity|]. cbn [io].
  rewrite (written_at data [] mbr rest _ 0 D) by (rewrite ?mbr_set_daps_length; reflexivity).
  cbn [f_data app]. rewrite D. cbn [app].
  rewrite !length_app, mbr_set_daps_length. reflexivity.
Qed.

Lemma length_ramfs_export_pad (file : FILE) :
  ftell file <= Z.of_nat (length (f_data file)) ->
  Z.of_nat (length (f_data file)) <= Z.max (ftell file) 139264 ->
  0 <= ftell file ->
  Z.of_nat (length (f_data (ramfs_export_pad file (ftell file))))
  = if ftell file <? PURE64_MINIMUM_DISK_SIZE
    then PURE64_MINIMUM_DISK_SIZE
    else round_up_512 (ftell file).
Proof.
  unfold ftell, PURE64_MINIMUM_DISK_SIZE. intros La Lb Hp.
  unfold ramfs_export_pad, PURE64_MINIMUM_DISK_SIZE, fputc.
  change (1 * 1024 * 1024) with 1048576.
  destruct (Z.ltb_spec (f_pos file) 1048576) as [Lt|Ge].
  - rewrite fseek_ok by lia. rewrite fwrite_written. cbn [snd].
    rewrite length_written by (try discriminate; cbn [f_pos]; lia).
    cbn [f_data f_pos length]. lia.
  - destruct (Z.eqb_spec (f_pos file mod 512) 0) as [E|NE]; cbn [negb].
    + unfold round_up_512. lia.
    + rewrite fseek_ok by lia. rewrite fwrite_written. cbn [snd].
      rewrite length_written by (try discriminate; cbn [f_pos]; lia).
      cbn [f_data f_pos length]. unfold round_up_512. lia.
Qed.

(** The whole assembly: it succeeds, and the length of the image is
    decided by the position at which the export ended. *)
Lemma ramfs_export_ok (fs : pure64_fs) (h : heap) :
  exists exported image : FILE,
    ramfs_export_write mbr_data pure64_data stage_three_data fs h
    = (EXIT_SUCCESS, Some exported)
    /\ ramfs_export mbr_data pure64_data stage_three_data mbr_set_daps fs h
       = (EXIT_SUCCESS, Some image)
    /\ 0 <= ftell exported
    /\ Z.of_nat (length (f_data image))
       = if ftell exported <? PURE64_MINIMUM_DISK_SIZE
         then PURE64_MINIMUM_DISK_SIZE
         else round_up_512 (ftell exported).
Proof.
  destruct (ramfs_export_write_ok fs h) as (exported & W & P & La & Lb).
  assert (P0 : 0 <= ftell exported).
  { rewrite P. unfold export_end, round_up_512. fold S2 S3.
    assert (0 <= S2) by (unfold S2, pure64_data_size; lia).
    assert (0 <= S3) by (unfold S3, stage_three_data_size; lia). lia. }
  rewrite <- P in La, Lb.
  pose proof (length_ramfs_export_pad exported La Lb P0) as Lp.
  set (padded := ramfs_export_pad exported (ftell exported)) in *.
  assert (L512 : 512 <= Z.of_nat (length (f_data padded))).
  { rewrite Lp. unfold PURE64_MINIMUM_DISK_SIZE, round_up_512.
    destruct (ftell exported <? 1 * 1024 * 1024) eqn:E; [lia|].
    apply Z.ltb_ge in E. lia. }
  destruct (pure64_mbr_update_ok padded h
              (fst (fst (ramfs_export_offsets S2 S3)) / 512) (u64 (S2 + 511) / 512)
              (snd (fst (ramfs_export_offsets S2 S3)) / 512) (u64 (S3 + 511) / 512) L512)
    as (mbr & w & w' & Rd & Wr & Len).
  exists exported, (io w'). split; [exact W|]. split; [|split; [exact P0|]].
  - unfold ramfs_export. rewrite W. cbn [Z.eqb EXIT_SUCCESS negb].
    unfold ramfs_export_finish. fold S2 S3.
    destruct (Z.eqb_spec (ftell exported) (-1)) as [E|_]; [lia|].
    fold padded.
    destruct (ramfs_export_offsets S2 S3) as [[st2 st3] fso]. cbn [fst snd] in Rd, Wr.
    rewrite Rd, Wr. reflexivity.
  - rewrite Len. exact Lp.
Qed.

(** C8. With a 512-byte boot sector and stage binaries within the
    size limit, [ramfs_export] succeeds; [P] being the position
    [ftell] reports once the file system is exported, the image it
    leaves is [PURE64_MINIMUM_DISK_SIZE] bytes long when [P] is below
    that minimum and otherwise [P] rounded up to the next multiple of
    512 ([P] itself when it is one); either way the length is a
    multiple of 512 and at least the minimum. *)
Theorem ramfs_export_image_length (fs : pure64_fs) (h : heap) :
  exists exported image : FILE,
    ramfs_export_write mbr_data pure64_data stage_three_data fs h
    = (EXIT_SUCCESS, Some exported)
    /\ ramfs_export mbr_data pure64_data stage_three_data mbr_set_daps fs h
       = (EXIT_SUCCESS, Some image)
    /\ let P := ftell exported in
       let image_length := Z.of_nat (length (f_data image)) in
       (P < PURE64_MINIMUM_DISK_SIZE -> image_length = PURE64_MINIMUM_DISK_SIZE)
       /\ (PURE64_MINIMUM_DISK_SIZE <= P ->
           image_length = (P + 511) / 512 * 512
           /\ (P mod 512 = 0 -> image_length = P))
       /\ image_length mod 512 = 0
       /\ PURE64_MINIMUM_DISK_SIZE <= image_length.
Proof.
  destruct (ramfs_export_ok fs h) as (exported & image & W & R & P0 & L).
  exists exported, image. split; [exact W|]. split; [exact R|].
  cbv zeta. rewrite L. unfold PURE64_MINIMUM_DISK_SIZE, round_up_512.
  change (1 * 1024 * 1024) with 1048576.
  destruct (Z.ltb_spec (ftell exported) 1048576) as [Below|Above].
  - split; [reflexivity|]. split; [lia|]. split; [reflexivity|lia].
  - split; [lia|]. split; [intros _; split; [reflexivity|lia]|]. split; lia.
Qed.

End MkfsFacts.

Lemma ramfs_export_image_length_witness :
  let mbr_data := zeros 512 in
  let pure64_data := zeros 6144 in
  let stage_three_data := zeros 700 in
  let keep := fun (mbr : list byte) (_ _ _ _ : Z) => mbr in
  let fs := mkfs (mkdir [] [] [mkfile ["a"]%byte [x01; x02]]) in
  exists exported image : FILE,
    ramfs_export_write mbr_data pure64_data stage_three_data fs plentiful
    = (EXIT_SUCCESS, Some exported)
    /\ ramfs_export mbr_data pure64_data stage_three_data keep fs plentiful
       = (EXIT_SUCCESS, Some image)
    /\ let P := ftell exported in
       let image_length := Z.of_nat (length (f_data image)) in
       (P < PURE64_MINIMUM_DISK_SIZE -> image_length = PURE64_MINIMUM_DISK_SIZE)
       /\ (PURE64_MINIMUM_DISK_SIZE <= P ->
           image_length = (P + 511) / 512 * 512
           /\ (P mod 512 = 0 -> image_length = P))
       /\ image_length mod 512 = 0
       /\ PURE64_MINIMUM_DISK_SIZE <= image_length.
Proof.
  intros mbr_data pure64_data stage_three_data keep fs.
  apply (ramfs_export_image_length mbr_data pure64_data stage_three_data keep).
  - vm_compute. reflexivity.
  - vm_compute. discriminate.
  - vm_compute. discriminate.
  - intros mbr s2 c2 s3 c3. reflexivity.
Defined.

(** C6. The size check of the image assembly lets a stage binary of
    exactly 0x7F * 512 = 65024 bytes pass and stops one of 65025 bytes;
    a second or third stage of more than 0x7F sectors makes
    [ramfs_export] return [EXIT_FAILURE] before the image file is even
    opened, and with both stages within the limit (and a 512-byte boot
    sector) the assembly runs to [EXIT_SUCCESS].  Sizes are those of
    objects in memory, so [size + 511] does not wrap. *)
Theorem stage_size_limit
  (mbr_data pure64_data stage_three_data : list byte)
  (mbr_set_daps : list byte -> Z -> Z -> Z -> Z -> list byte)
  (fs : pure64_fs) (h : heap) :
  let run := ramfs_export mbr_data pure64_data stage_three_data mbr_set_daps fs h in
  let S2 := pure64_data_size pure64_data in
  let S3 := stage_three_data_size stage_three_data in
  0x7f * 512 = 65024
  /\ stage_too_big (0x7f * 512) = false
  /\ stage_too_big (0x7f * 512 + 1) = true
  /\ (0x7f * 512 < S2 < 2 ^ 64 - 511 -> run = (EXIT_FAILURE, None))
  /\ (0x7f * 512 < S3 < 2 ^ 64 - 511 -> run = (EXIT_FAILURE, None))
  /\ (Z.of_nat (length mbr_data) = 512 ->
      (forall mbr s2 c2 s3 c3, length (mbr_set_daps mbr s2 c2 s3 c3) = length mbr) ->
      S2 <= 0x7f * 512 -> S3 <= 0x7f * 512 ->
      fst run = EXIT_SUCCESS).
Proof.
  intros run S2 S3.
  split; [reflexivity|]. split; [vm_compute; reflexivity|].
  split; [vm_compute; reflexivity|].
  split; [|split].
  - intros H. assert (B : stage_too_big S2 = true) by (apply stage_too_big_iff; lia).
    unfold run, ramfs_export, ramfs_export_write. fold S2. now rewrite B.
  - intros H. assert (B : stage_too_big S3 = true) by (apply stage_too_big_iff; lia).
    unfold run, ramfs_export, ramfs_export_write. fold S3. rewrite B.
    now destruct (stage_too_big (pure64_data_size pure64_data)).
  - intros Hm Hp H2 H3.
    destruct (ramfs_export_ok mbr_data pure64_data stage_three_data
                mbr_set_daps Hm H2 H3 Hp fs h) as (exported & image & _ & R & _).
    unfold run. now rewrite R.
Qed.

Lemma stage_size_limit_witness :
  let keep := fun (mbr : list byte) (_ _ _ _ : Z) => mbr in
  let fs := mkfs pure64_dir_init in
  ramfs_export (zeros 512) (zeros 65025) (zeros 1) keep fs plentiful = (EXIT_FAILURE, None)
  /\ ramfs_export (zeros 512) (zeros 1) (zeros 65025) keep fs plentiful = (EXIT_FAILURE, None)
  /\ fst (ramfs_export (zeros 512) (zeros 65024) (zeros 65024) keep fs plentiful)
     = EXIT_SUCCESS.
Proof.
  intros keep fs. split; [|split].
  - destruct (stage_size_limit (zeros 512) (zeros 65025) (zeros 1) keep fs plentiful)
      as (_ & _ & _ & Big2 & _).
    apply Big2. vm_compute. split; reflexivity.
  - destruct (stage_size_limit (zeros 512) (zeros 1) (zeros 65025) keep fs plentiful)
      as (_ & _ & _ & _ & Big3 & _).
    apply Big3. vm_compute. split; reflexivity.
  - destruct (stage_size_limit (zeros 512) (zeros 65024) (zeros 65024) keep fs plentiful)
      as (_ & _ & _ & _ & _ & Fit).
    apply Fit.
    + vm_compute. reflexivity.
    + intros mbr s2 c2 s3 c3. reflexivity.
    + vm_compute. discriminate.
    + vm_compute. discriminate.
Defined.

(** ** GPT headers *)

Lemma gpt_header_fields_concat (header : gpt_header) :
  concat (gpt_header_fields header) = gpt_header_sector header 0 0.
Proof.
  unfold gpt_header_fields, gpt_header_sector, gpt_header_core, hdr_sig, hdr_lba1, hdr_rest.
  rewrite concat_app. cbn [concat].
  replace (concat (repeat [x00; x00; x00; x00] (Z.to_nat ((512 - 92) / 4))))
    with (zeros 420) by (vm_compute; reflexivity).
  change (le_bytes 4 0) with [x00; x00; x00; x00].
  rewrite <- ?app_assoc. reflexivity.
Qed.

Create Rewrite HintDb len.
#[local] Hint Rewrite @length_app length_le_bytes length_zeros : len.

Ltac len := autorewrite with len; cbn [length]; try lia.
Ltac list_eq := rewrite <- ?app_assoc; reflexivity.

Lemma length_hdr_sig : Z.of_nat (length hdr_sig) = 16.
Proof. reflexivity. Qed.

Lemma length_hdr_lba1 (header : gpt_header) : Z.of_nat (length (hdr_lba1 header)) = 12.
Proof. unfold hdr_lba1. len. Qed.

Lemma length_hdr_rest (header : gpt_header) :
  Z.of_nat (length (disk_uuid header)) = 16 ->
  Z.of_nat (length (hdr_rest header)) = 48.
Proof. intros H. unfold hdr_rest. len. Qed.

Lemma length_gpt_header_core (header : gpt_header) (c p : Z) :
  Z.of_nat (length (disk_uuid header)) = 16 ->
  Z.of_nat (length (gpt_header_core header c p)) = 92.
Proof.
  intros H. pose proof (length_hdr_rest header H). pose proof (length_hdr_lba1 header).
  pose proof length_hdr_sig. unfold gpt_header_core. len.
Qed.

Lemma length_gpt_header_sector (header : gpt_header) (c p : Z) :
  Z.of_nat (length (disk_uuid header)) = 16 ->
  Z.of_nat (length (gpt_header_sector header c p)) = 512.
Proof.
  intros H. pose proof (length_gpt_header_core header c p H).
  unfold gpt_header_sector. len.
Qed.

Lemma export_gpt_header_ok (file : FILE) (header : gpt_header) :
  0 <= f_pos file ->
  Z.of_nat (length (disk_uuid header)) = 16 ->
  export_gpt_header file header
  = (EXIT_SUCCESS, written (gpt_header_sector header 0 0) file).
Proof.
  intros Hp Hu. unfold export_gpt_header.
  rewrite counted_fwrite_fold by exact Hp.
  rewrite gpt_header_fields_concat, length_gpt_header_sector by exact Hu.
  reflexivity.
Qed.

(** The header pass on a file that holds 92 header bytes at
    [header_location], whatever they are: the CRC of these bytes lands
    at offset 16 of the header and nothing else changes. *)
Lemma calculate_header_checksum_ok
  (pre a16 c4 r72 post : list byte) (pos header_location : Z) :
  header_location = Z.of_nat (length pre) ->
  Z.of_nat (length a16) = 16 -> Z.of_nat (length c4) = 4 -> Z.of_nat (length r72) = 72 ->
  calculate_header_checksum (mkFILE (pre ++ a16 ++ c4 ++ r72 ++ post) pos) header_location
  = (EXIT_SUCCESS,
     mkFILE (pre ++ a16 ++ le_bytes 4 (crc32 (a16 ++ c4 ++ r72)) ++ r72 ++ post)
       (header_location + 20)).
Proof.
  intros Hl Ha Hc Hr. unfold calculate_header_checksum, GPT_HEADER_SIZE.
  rewrite fseek_ok by lia. cbn [Z.eqb negb f_data].
  rewrite (fread_at _ pre (a16 ++ c4 ++ r72) post) by (try list_eq; len).
  replace (Z.of_nat (length (a16 ++ c4 ++ r72))) with 92 by len.
  cbn [Z.eqb Pos.eqb negb].
  rewrite fseek_ok by lia. cbn [Z.eqb negb f_data].
  rewrite fwrite_written, length_le_bytes. cbn [Z.of_nat Pos.of_succ_nat Pos.succ Z.eqb Pos.eqb negb].
  rewrite (written_at _ (pre ++ a16) c4 (r72 ++ post)) by (try list_eq; len).
  rewrite length_le_bytes. f_equal. f_equal; [list_eq|lia].
Qed.

Lemma backup_partition_headers_offset_eq (B : Z) :
  32 <= B -> B * 512 <= LONG_MAX ->
  backup_partition_headers_offset B = B * 512 - 16384.
Proof.
  unfold LONG_MAX. intros H1 H2.
  unfold backup_partition_headers_offset, GPT_PARTITION_HEADER_COUNT, GPT_PARTITION_HEADER_SIZE.
  rewrite (u64_small (B * 512)) by lia.
  apply to_long_small. unfold LONG_MAX. lia.
Qed.

(** The first stage of the pass on a file laid out as a GPT disk: 512
    bytes, a header sector whose backup-LBA field holds [B], the primary
    array [PA1], and further on the backup array [PA2] ending where the
    backup header starts, at [B * 512]. *)
Lemma calculate_partition_headers_checksum_ok
  (mbr a32 r48 p4 pad PA1 gap PA2 k88 q4 tail : list byte) (B pos : Z) :
  Z.of_nat (length mbr) = 512 ->
  Z.of_nat (length a32) = 32 -> Z.of_nat (length r48) = 48 ->
  Z.of_nat (length p4) = 4 -> Z.of_nat (length pad) = 420 ->
  Z.of_nat (length PA1) = 16384 -> Z.of_nat (length PA2) = 16384 ->
  Z.of_nat (length gap) = B * 512 - 16384 - 17408 ->
  Z.of_nat (length k88) = 88 -> Z.of_nat (length q4) = 4 ->
  0 <= B < 2 ^ 64 -> B * 512 + 88 <= LONG_MAX ->
  calculate_partition_headers_checksum
    (mkFILE (mbr ++ (a32 ++ le_bytes 8 B ++ r48) ++ p4 ++ pad
               ++ PA1 ++ gap ++ PA2 ++ k88 ++ q4 ++ tail) pos)
  = (EXIT_SUCCESS,
     mkFILE (mbr ++ (a32 ++ le_bytes 8 B ++ r48) ++ le_bytes 4 (crc32 PA1) ++ pad
               ++ PA1 ++ gap ++ PA2 ++ k88 ++ le_bytes 4 (crc32 PA2) ++ tail)
       (B * 512 + 92)).
Proof.
  intros Hmbr Ha Hr Hp Hpad H1 H2 Hgap Hk Hq HB HL.
  assert (LM : LONG_MAX = 2 ^ 63 - 1) by reflexivity.
  unfold calculate_partition_headers_checksum,
    GPT_PARTITION_HEADER_SIZE, GPT_PARTITION_HEADER_COUNT.
  change (128 * 128) with 16384. change (512 + 88) with 600. change (512 + 32) with 544.
  rewrite fseek_ok by lia. cbn [Z.eqb negb f_data].
  rewrite (fread_at _ (mbr ++ (a32 ++ le_bytes 8 B ++ r48) ++ p4 ++ pad) PA1
             (gap ++ PA2 ++ k88 ++ q4 ++ tail)) by (try list_eq; len).
  rewrite H1. cbn [Z.eqb Pos.eqb negb].
  rewrite fseek_ok by lia. cbn [Z.eqb negb f_data].
  rewrite fwrite_written, length_le_bytes.
  cbn [Z.of_nat Pos.of_succ_nat Pos.succ Z.eqb Pos.eqb negb].
  rewrite (written_at _ (mbr ++ (a32 ++ le_bytes 8 B ++ r48)) p4
             (pad ++ PA1 ++ gap ++ PA2 ++ k88 ++ q4 ++ tail)) by (try list_eq; len).
  rewrite fseek_ok by lia. cbn [Z.eqb negb f_data].
  rewrite (fread_at _ (mbr ++ a32) (le_bytes 8 B)
             (r48 ++ le_bytes 4 (crc32 PA1) ++ pad ++ PA1 ++ gap ++ PA2 ++ k88 ++ q4 ++ tail))
    by (try list_eq; len).
  rewrite length_le_bytes. cbn [Z.of_nat Pos.of_succ_nat Pos.succ Z.eqb Pos.eqb negb].
  rewrite le_value_le_bytes_8 by exact HB.
  rewrite backup_partition_headers_offset_eq by lia.
  rewrite fseek_ok by lia. cbn [Z.eqb negb f_data].
  rewrite (fread_at _
             (mbr ++ (a32 ++ le_bytes 8 B ++ r48) ++ le_bytes 4 (crc32 PA1) ++ pad ++ PA1 ++ gap)
             PA2 (k88 ++ q4 ++ tail)) by (try list_eq; len).
  rewrite H2. cbn [Z.eqb Pos.eqb negb].
  rewrite (u64_small (B * 512)) by lia.
  rewrite to_long_small by lia.
  rewrite fseek_ok by lia. cbn [Z.eqb negb f_data].
  rewrite fwrite_written, length_le_bytes.
  cbn [Z.of_nat Pos.of_succ_nat Pos.succ Z.eqb Pos.eqb negb].
  rewrite (written_at _
             (mbr ++ (a32 ++ le_bytes 8 B ++ r48) ++ le_bytes 4 (crc32 PA1) ++ pad
                ++ PA1 ++ gap ++ PA2 ++ k88)
             q4 tail) by (try list_eq; len).
  rewrite length_le_bytes. f_equal. f_equal; [list_eq|lia].
Qed.

Section GptDisk.

Variable mbr : list byte.
Variable uuid : list byte.
Variable B : Z.

Hypothesis mbr_is_a_sector : Z.of_nat (length mbr) = 512.
Hypothesis uuid_is_16_bytes : Z.of_nat (length uuid) = 16.
Hypothesis B_range : 66 <= B.
Hypothesis B_long : B * 512 + 512 <= LONG_MAX.

Let h1 := primary_header B uuid.
Let h2 := backup_header B uuid.

Lemma length_gpt_disk (c1 p1 c2 p2 : Z) :
  Z.of_nat (length (gpt_disk mbr B uuid c1 p1 c2 p2)) = B * 512 + 512.
Proof.
  unfold gpt_disk.
  pose proof (length_gpt_header_sector h1 c1 p1 uuid_is_16_bytes).
  pose proof (length_gpt_header_sector h2 c2 p2 uuid_is_16_bytes).
  fold h1 h2. len.
Qed.

Lemma calculate_partition_headers_checksum_gpt_disk (c1 p1 c2 p2 pos : Z) :
  calculate_partition_headers_checksum (mkFILE (gpt_disk mbr B uuid c1 p1 c2 p2) pos)
  = (EXIT_SUCCESS,
     mkFILE (gpt_disk mbr B uuid c1 array_crc c2 array_crc) (B * 512 + 92)).
Proof.
  assert (LM : LONG_MAX = 2 ^ 63 - 1) by reflexivity.
  pose proof (length_hdr_rest h1 uuid_is_16_bytes) as R1.
  pose proof (length_hdr_rest h2 uuid_is_16_bytes) as R2.
  pose proof (length_hdr_lba1 h1) as A1. pose proof (length_hdr_lba1 h2) as A2.
  pose proof length_hdr_sig as S.
  pose proof (calculate_partition_headers_checksum_ok mbr
                (hdr_sig ++ le_bytes 4 c1 ++ hdr_lba1 h1) (hdr_rest h1)
                (le_bytes 4 p1) (zeros 420) (zeros 16384)
                (zeros (B * 512 - 16384 - 17408)) (zeros 16384)
                (hdr_sig ++ le_bytes 4 c2 ++ hdr_lba1 h2
                   ++ le_bytes 8 (backup_lba h2) ++ hdr_rest h2)
                (le_bytes 4 p2) (zeros 420) B pos) as K.
  unfold gpt_disk, gpt_header_sector, gpt_header_core. fold h1 h2.
  change (backup_lba h1) with B.
  rewrite <- ?app_assoc. rewrite <- ?app_assoc in K.
  apply K; len.
Qed.

Lemma calculate_header_checksum_primary (c1 p1 c2 p2 pos : Z) :
  calculate_header_checksum (mkFILE (gpt_disk mbr B uuid c1 p1 c2 p2) pos) 512
  = (EXIT_SUCCESS,
     mkFILE (gpt_disk mbr B uuid (crc32 (gpt_header_core h1 c1 p1)) p1 c2 p2) (512 + 20)).
Proof.
  pose proof (length_hdr_rest h1 uuid_is_16_bytes) as R1.
  pose proof (length_hdr_lba1 h1) as A1. pose proof length_hdr_sig as S.
  pose proof (calculate_header_checksum_ok mbr hdr_sig (le_bytes 4 c1)
                (hdr_lba1 h1 ++ le_bytes 8 (backup_lba h1) ++ hdr_rest h1 ++ le_bytes 4 p1)
                (zeros 420 ++ zeros 16384 ++ zeros (B * 512 - 16384 - 17408)
                   ++ zeros 16384 ++ gpt_header_sector h2 c2 p2) pos 512) as K.
  unfold gpt_disk, gpt_header_sector at 1 3, gpt_header_core. fold h1 h2.
  rewrite <- ?app_assoc. rewrite <- ?app_assoc in K.
  apply K; len.
Qed.

Lemma calculate_header_checksum_backup (c1 p1 c2 p2 pos : Z) :
  calculate_header_checksum (mkFILE (gpt_disk mbr B uuid c1 p1 c2 p2) pos) (B * 512)
  = (EXIT_SUCCESS,
     mkFILE (gpt_disk mbr B uuid c1 p1 (crc32 (gpt_header_core h2 c2 p2)) p2)
       (B * 512 + 20)).
Proof.
  pose proof (length_hdr_rest h2 uuid_is_16_bytes) as R2.
  pose proof (length_hdr_lba1 h2) as A2. pose proof length_hdr_sig as S.
  pose proof (length_gpt_header_sector h1 c1 p1 uuid_is_16_bytes) as S1.
  pose proof (calculate_header_checksum_ok
                (mbr ++ gpt_header_sector h1 c1 p1 ++ zeros 16384
                   ++ zeros (B * 512 - 16384 - 17408) ++ zeros 16384)
                hdr_sig (le_bytes 4 c2)
                (hdr_lba1 h2 ++ le_bytes 8 (backup_lba h2) ++ hdr_rest h2 ++ le_bytes 4 p2)
                (zeros 420) pos (B * 512)) as K.
  unfold gpt_disk, gpt_header_sector at 2 4, gpt_header_core. fold h1 h2.
  rewrite <- ?app_assoc. rewrite <- ?app_assoc in K.
  apply K; len.
Qed.

(** The backup LBA as the pass reads it back from the primary
    header. *)
Lemma fread_backup_lba (c1 p1 c2 p2 : Z) :
  fread 8 (mkFILE (gpt_disk mbr B uuid c1 p1 c2 p2) 544)
  = (le_bytes 8 B, mkFILE (gpt_disk mbr B uuid c1 p1 c2 p2) 552).
Proof.
  pose proof (length_hdr_lba1 h1) as A1. pose proof length_hdr_sig as S.
  apply (fread_at _ (mbr ++ hdr_sig ++ le_bytes 4 c1 ++ hdr_lba1 h1) (le_bytes 8 B)
           (hdr_rest h1 ++ le_bytes 4 p1 ++ zeros 420 ++ zeros 16384
              ++ zeros (B * 512 - 16384 - 17408) ++ zeros 16384
              ++ gpt_header_sector h2 c2 p2)); [|len|len].
  unfold gpt_disk, gpt_header_sector at 1, gpt_header_core. fold h1 h2.
  change (backup_lba h1) with B. list_eq.
Qed.

(** The whole pass on the disk as [init] leaves it. *)
Lemma calculate_checksums_gpt_disk (pos : Z) :
  calculate_checksums (mkFILE (gpt_disk mbr B uuid 0 0 0 0) pos)
  = (EXIT_SUCCESS,
     mkFILE (gpt_disk mbr B uuid
               (crc32 (gpt_header_core h1 0 array_crc)) array_crc
               (crc32 (gpt_header_core h2 0 array_crc)) array_crc)
       (B * 512 + 20)).
Proof.
  assert (LM : LONG_MAX = 2 ^ 63 - 1) by reflexivity.
  unfold calculate_checksums.
  rewrite calculate_partition_headers_checksum_gpt_disk.
  unfold EXIT_SUCCESS at 1 2. cbn [Z.eqb negb].
  rewrite calculate_header_checksum_primary.
  unfold EXIT_SUCCESS at 1 2. cbn [Z.eqb negb].
  change (512 + 32) with 544.
  rewrite fseek_ok by lia. cbn [Z.eqb negb f_data orb].
  rewrite fread_backup_lba, length_le_bytes.
  cbn [Z.of_nat Pos.of_succ_nat Pos.succ Z.eqb Pos.eqb negb].
  rewrite le_value_le_bytes_8 by lia.
  rewrite to_long_small by lia.
  rewrite calculate_header_checksum_backup.
  unfold EXIT_SUCCESS at 1 2. cbn [Z.eqb negb]. reflexivity.
Qed.

End GptDisk.

(** ** The [init] command *)

Lemma backup_lba_of_range (disk_size : Z) :
  98488 <= disk_size -> disk_size + 511 <= LONG_MAX ->
  192 <= backup_lba_of disk_size /\ backup_lba_of disk_size * 512 + 512 <= LONG_MAX.
Proof. unfold backup_lba_of, LONG_MAX. lia. Qed.

Section InitFacts.

Variable mbr_data : list byte.
Variable pure64_uuid_parse : list byte -> status * list byte.
Variable disk_uuid_str : option (list byte).
Variable disk_size : Z.
Variable uuid : list byte.

Hypothesis mbr_is_a_sector : Z.of_nat (length mbr_data) = 512.
Hypothesis uuid_parsed :
  pure64_uuid_parse
    (match disk_uuid_str with
     | None => PURE64_DEFAULT_DISK_UUID
     | Some str => str
     end) = (OK, uuid).
Hypothesis uuid_is_16_bytes : Z.of_nat (length uuid) = 16.
Hypothesis size_accepted : 98488 <= disk_size.
Hypothesis size_long : disk_size + 511 <= LONG_MAX.

Let B := backup_lba_of disk_size.

Lemma pure64_init_write_ok :
  pure64_init_write mbr_data pure64_uuid_parse disk_uuid_str disk_size
  = (EXIT_SUCCESS, Some (mkFILE (gpt_disk mbr_data B uuid 0 0 0 0) (B * 512 + 512))).
Proof.
  destruct (backup_lba_of_range disk_size size_accepted size_long) as [B1 B2].
  fold B in B1, B2.
  assert (LM : LONG_MAX = 2 ^ 63 - 1) by reflexivity.
  unfold pure64_init_write.
  replace (disk_size_rejected disk_size) with false
    by (symmetry; apply not_true_is_false; rewrite disk_size_rejected_iff; lia).
  rewrite uuid_parsed. cbn [is_error].
  replace (if negb (disk_size mod 512 =? 0)
           then u64 (disk_size + (512 - disk_size mod 512))
           else disk_size) with (B * 512 + 512).
  2:{ unfold B, backup_lba_of.
      destruct (Z.eqb_spec (disk_size mod 512) 0); cbn [negb];
        [|rewrite u64_small by lia]; lia. }
  replace (u64 (B * 512 + 512 - 512) / 512) with B by (rewrite u64_small by lia; lia).
  unfold GPT_PARTITION_HEADER_COUNT, GPT_PARTITION_HEADER_SIZE.
  replace (u64 ((1 + 1) * 512 + 128 * 128) / 512) with 34 by reflexivity.
  replace (u64 (u64 (u64 (B * 512) - 128 * 128) - 512) / 512) with (B - 33)
    by (rewrite (u64_small (B * 512)), (u64_small (B * 512 - 128 * 128)),
          (u64_small (B * 512 - 128 * 128 - 512)) by lia; lia).
  fold (primary_header B uuid). fold (backup_header B uuid).
  rewrite fwrite_written, mbr_is_a_sector. cbn [Z.eqb Pos.eqb negb].
  unfold fopen_wb. rewrite (written_at_end [] mbr_data 0) by reflexivity.
  cbn [app]. rewrite mbr_is_a_sector.
  rewrite export_gpt_header_ok by (cbn [f_pos disk_uuid primary_header]; lia).
  cbn [Z.eqb EXIT_SUCCESS negb].
  rewrite written_at_end by (cbn [f_pos]; lia).
  rewrite length_gpt_header_sector by exact uuid_is_16_bytes.
  change (128 * 128) with 16384.
  rewrite zero_file_data_written by (cbn [f_pos]; lia).
  rewrite written_at_end
    by (pose proof (length_gpt_header_sector (primary_header B uuid) 0 0 uuid_is_16_bytes);
        len).
  rewrite backup_partition_headers_offset_eq by lia.
  rewrite fseek_ok by lia. cbn [Z.eqb negb f_data].
  rewrite zero_file_data_written by (cbn [f_pos]; lia).
  assert (N : zeros 16384 <> []) by (vm_compute; discriminate).
  rewrite written_past_end
    by (try exact N;
        pose proof (length_gpt_header_sector (primary_header B uuid) 0 0 uuid_is_16_bytes);
        len).
  rewrite to_long_small by lia.
  rewrite fseek_ok by lia. cbn [Z.eqb negb f_data].
  rewrite export_gpt_header_ok by (cbn [f_pos disk_uuid backup_header]; lia).
  cbn [Z.eqb EXIT_SUCCESS negb].
  pose proof (length_gpt_header_sector (primary_header B uuid) 0 0 uuid_is_16_bytes) as S1.
  pose proof (length_gpt_header_sector (backup_header B uuid) 0 0 uuid_is_16_bytes) as S2.
  replace (B * 512 - 16384
           - Z.of_nat (length ((mbr_data ++ gpt_header_sector (primary_header B uuid) 0 0)
                                 ++ zeros 16384)))
    with (B * 512 - 16384 - 17408) by len.
  rewrite written_at_end by len.
  rewrite S2. unfold gpt_disk. f_equal. f_equal. f_equal. list_eq.
Qed.

End InitFacts.

(** ** Reading the fields of a GPT disk back *)

Lemma load_at (data pre bs post : list byte) (pos n : Z) :
  data = pre ++ bs ++ post -> pos = Z.of_nat (length pre) -> n = Z.of_nat (length bs) ->
  load data pos n = bs.
Proof. intros ->. apply load_exact. Qed.

Lemma with_zero_checksum_core (header : gpt_header) (c p : Z) :
  with_zero_checksum (gpt_header_core header c p) = gpt_header_core header 0 p.
Proof.
  unfold with_zero_checksum, gpt_header_core.
  rewrite (firstn_exact 16 hdr_sig) by reflexivity.
  replace (hdr_sig ++ le_bytes 4 c ++ hdr_lba1 header ++ le_bytes 8 (backup_lba header)
             ++ hdr_rest header ++ le_bytes 4 p)
    with ((hdr_sig ++ le_bytes 4 c) ++ hdr_lba1 header ++ le_bytes 8 (backup_lba header)
             ++ hdr_rest header ++ le_bytes 4 p) by list_eq.
  rewrite skipn_exact by (rewrite length_app, length_le_bytes; reflexivity).
  reflexivity.
Qed.

Section GptDiskFields.

Variable mbr : list byte.
Variable uuid : list byte.
Variable B : Z.
Variables c1 p1 c2 p2 : Z.

Hypothesis mbr_is_a_sector : Z.of_nat (length mbr) = 512.
Hypothesis uuid_is_16_bytes : Z.of_nat (length uuid) = 16.
Hypothesis B_range : 66 <= B < 2 ^ 64.

Let h1 := primary_header B uuid.
Let h2 := backup_header B uuid.
Let disk := gpt_disk mbr B uuid c1 p1 c2 p2.

Let R1 := length_hdr_rest h1 uuid_is_16_bytes.
Let R2 := length_hdr_rest h2 uuid_is_16_bytes.
Let A1 := length_hdr_lba1 h1.
Let A2 := length_hdr_lba1 h2.
Let S1 := length_gpt_header_sector h1 c1 p1 uuid_is_16_bytes.
Let C1 := length_gpt_header_core h1 c1 p1 uuid_is_16_bytes.
Let C2 := length_gpt_header_core h2 c2 p2 uuid_is_16_bytes.

Ltac facts :=
  pose proof R1; pose proof R2; pose proof A1; pose proof A2; pose proof S1;
  pose proof C1; pose proof C2; pose proof length_hdr_sig.

Lemma header_at_primary : header_at disk 512 = gpt_header_core h1 c1 p1.
Proof.
  facts. unfold header_at, GPT_HEADER_SIZE.
  apply (load_at _ mbr (gpt_header_core h1 c1 p1)
           (zeros 420 ++ zeros 16384 ++ zeros (B * 512 - 16384 - 17408) ++ zeros 16384
              ++ gpt_header_sector h2 c2 p2)); [|len|len].
  unfold disk, gpt_disk, gpt_header_sector at 1. fold h1 h2. list_eq.
Qed.

Lemma header_at_backup : header_at disk (B * 512) = gpt_header_core h2 c2 p2.
Proof.
  facts. unfold header_at, GPT_HEADER_SIZE.
  apply (load_at _ (mbr ++ gpt_header_sector h1 c1 p1 ++ zeros 16384
                      ++ zeros (B * 512 - 16384 - 17408) ++ zeros 16384)
           (gpt_header_core h2 c2 p2) (zeros 420)); [|len|len].
  unfold disk, gpt_disk, gpt_header_sector at 2. fold h1 h2. list_eq.
Qed.

Lemma stored_header_checksum_primary :
  0 <= c1 < 2 ^ 32 -> stored_header_checksum disk 512 = c1.
Proof.
  intros H. facts. unfold stored_header_checksum.
  rewrite (load_at disk (mbr ++ hdr_sig) (le_bytes 4 c1)
             (hdr_lba1 h1 ++ le_bytes 8 (backup_lba h1) ++ hdr_rest h1 ++ le_bytes 4 p1
                ++ zeros 420 ++ zeros 16384 ++ zeros (B * 512 - 16384 - 17408)
                ++ zeros 16384 ++ gpt_header_sector h2 c2 p2));
    [now apply le_value_le_bytes_4| |len|len].
  unfold disk, gpt_disk, gpt_header_sector at 1, gpt_header_core. fold h1 h2. list_eq.
Qed.

Lemma stored_header_checksum_backup :
  0 <= c2 < 2 ^ 32 -> stored_header_checksum disk (B * 512) = c2.
Proof.
  intros H. facts. unfold stored_header_checksum.
  rewrite (load_at disk (mbr ++ gpt_header_sector h1 c1 p1 ++ zeros 16384
                           ++ zeros (B * 512 - 16384 - 17408) ++ zeros 16384 ++ hdr_sig)
             (le_bytes 4 c2)
             (hdr_lba1 h2 ++ le_bytes 8 (backup_lba h2) ++ hdr_rest h2 ++ le_bytes 4 p2
                ++ zeros 420));
    [now apply le_value_le_bytes_4| |len|len].
  unfold disk, gpt_disk, gpt_header_sector at 2, gpt_header_core. fold h1 h2. list_eq.
Qed.

Lemma stored_array_checksum_primary :
  0 <= p1 < 2 ^ 32 -> stored_array_checksum disk 512 = p1.
Proof.
  intros H. facts. unfold stored_array_checksum.
  rewrite (load_at disk
             (mbr ++ hdr_sig ++ le_bytes 4 c1 ++ hdr_lba1 h1
                ++ le_bytes 8 (backup_lba h1) ++ hdr_rest h1)
             (le_bytes 4 p1)
             (zeros 420 ++ zeros 16384 ++ zeros (B * 512 - 16384 - 17408)
                ++ zeros 16384 ++ gpt_header_sector h2 c2 p2));
    [now apply le_value_le_bytes_4| |len|len].
  unfold disk, gpt_disk, gpt_header_sector at 1, gpt_header_core. fold h1 h2. list_eq.
Qed.

Lemma stored_array_checksum_backup :
  0 <= p2 < 2 ^ 32 -> stored_array_checksum disk (B * 512) = p2.
Proof.
  intros H. facts. unfold stored_array_checksum.
  rewrite (load_at disk
             (mbr ++ gpt_header_sector h1 c1 p1 ++ zeros 16384
                ++ zeros (B * 512 - 16384 - 17408) ++ zeros 16384
                ++ hdr_sig ++ le_bytes 4 c2 ++ hdr_lba1 h2
                ++ le_bytes 8 (backup_lba h2) ++ hdr_rest h2)
             (le_bytes 4 p2) (zeros 420));
    [now apply le_value_le_bytes_4| |len|len].
  unfold disk, gpt_disk, gpt_header_sector at 2, gpt_header_core. fold h1 h2. list_eq.
Qed.

Lemma stored_backup_lba_eq : stored_backup_lba disk = B.
Proof.
  facts. unfold stored_backup_lba.
  rewrite (load_at disk (mbr ++ hdr_sig ++ le_bytes 4 c1 ++ hdr_lba1 h1) (le_bytes 8 B)
             (hdr_rest h1 ++ le_bytes 4 p1 ++ zeros 420 ++ zeros 16384
                ++ zeros (B * 512 - 16384 - 17408) ++ zeros 16384
                ++ gpt_header_sector h2 c2 p2));
    [apply le_value_le_bytes_8; lia| |len|len].
  unfold disk, gpt_disk, gpt_header_sector at 1, gpt_header_core. fold h1 h2.
  change (backup_lba h1) with B. list_eq.
Qed.

Lemma stored_partition_headers_lba_primary : stored_partition_headers_lba disk 512 = 2.
Proof.
  facts. unfold stored_partition_headers_lba.
  rewrite (load_at disk
             (mbr ++ hdr_sig ++ le_bytes 4 c1 ++ hdr_lba1 h1 ++ le_bytes 8 (backup_lba h1)
                ++ le_bytes 8 (first_usable_lba h1) ++ le_bytes 8 (last_usable_lba h1)
                ++ disk_uuid h1)
             (le_bytes 8 (partition_headers_lba h1))
             (le_bytes 4 (partition_header_count h1) ++ [x80; x00; x00; x00]
                ++ le_bytes 4 p1 ++ zeros 420 ++ zeros 16384
                ++ zeros (B * 512 - 16384 - 17408) ++ zeros 16384
                ++ gpt_header_sector h2 c2 p2));
    [reflexivity| |cbn [disk_uuid h1 primary_header]; len|len].
  unfold disk, gpt_disk, gpt_header_sector at 1, gpt_header_core, hdr_rest.
  fold h1 h2. list_eq.
Qed.

Lemma stored_partition_headers_lba_backup :
  stored_partition_headers_lba disk (B * 512) = B - 33.
Proof.
  facts. unfold stored_partition_headers_lba.
  rewrite (load_at disk
             (mbr ++ gpt_header_sector h1 c1 p1 ++ zeros 16384
                ++ zeros (B * 512 - 16384 - 17408) ++ zeros 16384
                ++ hdr_sig ++ le_bytes 4 c2 ++ hdr_lba1 h2 ++ le_bytes 8 (backup_lba h2)
                ++ le_bytes 8 (first_usable_lba h2) ++ le_bytes 8 (last_usable_lba h2)
                ++ disk_uuid h2)
             (le_bytes 8 (partition_headers_lba h2))
             (le_bytes 4 (partition_header_count h2) ++ [x80; x00; x00; x00]
                ++ le_bytes 4 p2 ++ zeros 420));
    [apply le_value_le_bytes_8; cbn [partition_headers_lba h2 backup_header]; lia
    | |cbn [disk_uuid h2 backup_header]; len|len].
  unfold disk, gpt_disk, gpt_header_sector at 2, gpt_header_core, hdr_rest.
  fold h1 h2. list_eq.
Qed.

Lemma load_primary_array : load disk 1024 16384 = zeros 16384.
Proof.
  facts.
  apply (load_at _ (mbr ++ gpt_header_sector h1 c1 p1) (zeros 16384)
           (zeros (B * 512 - 16384 - 17408) ++ zeros 16384 ++ gpt_header_sector h2 c2 p2));
    [|len|len].
  unfold disk, gpt_disk. fold h1 h2. list_eq.
Qed.

Lemma load_backup_array : load disk (B * 512 - 16384) 16384 = zeros 16384.
Proof.
  facts.
  apply (load_at _ (mbr ++ gpt_header_sector h1 c1 p1 ++ zeros 16384
                      ++ zeros (B * 512 - 16384 - 17408))
           (zeros 16384) (gpt_header_sector h2 c2 p2)); [|len|len].
  unfold disk, gpt_disk. fold h1 h2. list_eq.
Qed.

End GptDiskFields.

Lemma array_crc_eq : crc32 (zeros 16384) = array_crc.
Proof. unfold array_crc. reflexivity. Qed.

Section InitTheorems.

Variable mbr_data : list byte.
Variable pure64_uuid_parse : list byte -> status * list byte.
Variable disk_uuid_str : option (list byte).
Variable disk_size : Z.
Variable uuid : list byte.

Hypothesis mbr_is_a_sector : Z.of_nat (length mbr_data) = 512.
Hypothesis uuid_parsed :
  pure64_uuid_parse
    (match disk_uuid_str with
     | None => PURE64_DEFAULT_DISK_UUID
     | Some str => str
     end) = (OK, uuid).
Hypothesis uuid_is_16_bytes : Z.of_nat (length uuid) = 16.
Hypothesis size_accepted : 98488 <= disk_size.
Hypothesis size_long : disk_size + 511 <= LONG_MAX.

Let B := backup_lba_of disk_size.
Let h1 := primary_header B uuid.
Let h2 := backup_header B uuid.
Let prepared := mkFILE (gpt_disk mbr_data B uuid 0 0 0 0) (B * 512 + 512).
Let patched := mkFILE (gpt_disk mbr_data B uuid 0 array_crc 0 array_crc) (B * 512 + 92).
Let image :=
  mkFILE (gpt_disk mbr_data B uuid
            (crc32 (gpt_header_core h1 0 array_crc)) array_crc
            (crc32 (gpt_header_core h2 0 array_crc)) array_crc)
    (B * 512 + 20).

Lemma pure64_init_disk_ok :
  pure64_init_write mbr_data pure64_uuid_parse disk_uuid_str disk_size
  = (EXIT_SUCCESS, Some prepared)
  /\ calculate_partition_headers_checksum prepared = (EXIT_SUCCESS, patched)
  /\ calculate_checksums prepared = (EXIT_SUCCESS, image)
  /\ pure64_init_disk mbr_data pure64_uuid_parse disk_uuid_str disk_size
     = (EXIT_SUCCESS, Some image).
Proof.
  destruct (backup_lba_of_range disk_size size_accepted size_long) as [B1 B2].
  fold B in B1, B2.
  assert (W := pure64_init_write_ok mbr_data pure64_uuid_parse disk_uuid_str disk_size
                 uuid mbr_is_a_sector uuid_parsed uuid_is_16_bytes size_accepted size_long).
  fold B in W. fold prepared in W.
  assert (K := calculate_checksums_gpt_disk mbr_data uuid B mbr_is_a_sector
                 uuid_is_16_bytes ltac:(lia) B2 (B * 512 + 512)).
  fold h1 h2 in K. fold prepared image in K.
  split; [exact W|]. split.
  - apply calculate_partition_headers_checksum_gpt_disk;
      [exact mbr_is_a_sector|exact uuid_is_16_bytes|lia|exact B2].
  - split; [exact K|].
    unfold pure64_init_disk. rewrite W. cbn [Z.eqb EXIT_SUCCESS negb].
    fold EXIT_SUCCESS. rewrite K. cbn [Z.eqb EXIT_SUCCESS negb]. reflexivity.
Qed.

(** C3. [init] succeeds, and on the image it leaves both GPT headers
    validate: the CRC-32 of the 92 header bytes at sector 1 and at the
    backup sector, taken with bytes 16..19 zeroed, is the value stored
    in those bytes.  The pass gets there in two stages: after
    [calculate_partition_headers_checksum] both array checksums are in
    place at offset 88 while both header checksum fields are still
    zero, and the header checksums of the final image are the CRCs of
    the headers as that first stage left them, array checksums
    included. *)
Theorem init_checksums_validate :
  exists prepared patched image : FILE,
    pure64_init_write mbr_data pure64_uuid_parse disk_uuid_str disk_size
    = (EXIT_SUCCESS, Some prepared)
    /\ calculate_partition_headers_checksum prepared = (EXIT_SUCCESS, patched)
    /\ calculate_checksums prepared = (EXIT_SUCCESS, image)
    /\ pure64_init_disk mbr_data pure64_uuid_parse disk_uuid_str disk_size
       = (EXIT_SUCCESS, Some image)
    /\ let primary := 512 in
       let backup := stored_backup_lba (f_data image) * 512 in
       header_validates (f_data image) primary
       /\ header_validates (f_data image) backup
       /\ stored_array_checksum (f_data patched) primary
          = crc32 (load (f_data patched) 1024 16384)
       /\ stored_array_checksum (f_data patched) backup
          = crc32 (load (f_data patched) (backup_partition_headers_offset
                                            (stored_backup_lba (f_data image))) 16384)
       /\ stored_header_checksum (f_data patched) primary = 0
       /\ stored_header_checksum (f_data patched) backup = 0
       /\ stored_header_checksum (f_data image) primary
          = crc32 (header_at (f_data patched) primary)
       /\ stored_header_checksum (f_data image) backup
          = crc32 (header_at (f_data patched) backup)
       /\ stored_array_checksum (f_data image) primary
          = stored_array_checksum (f_data patched) primary
       /\ stored_array_checksum (f_data image) backup
          = stored_array_checksum (f_data patched) backup.
Proof.
  destruct (backup_lba_of_range disk_size size_accepted size_long) as [B1 B2].
  fold B in B1, B2.
  assert (LM : LONG_MAX = 2 ^ 63 - 1) by reflexivity.
  assert (BR : 66 <= B < 2 ^ 64) by lia.
  assert (R0 : 0 <= 0 < 2 ^ 32) by lia.
  assert (Off : backup_partition_headers_offset B = B * 512 - 16384)
    by (apply backup_partition_headers_offset_eq; lia).
  clear B1 B2 LM.
  destruct pure64_init_disk_ok as (W & P & K & R).
  exists prepared, patched, image.
  split; [exact W|]. split; [exact P|]. split; [exact K|]. split; [exact R|].
  clear W P K R.
  cbv zeta. unfold image, patched. cbn [f_data].
  set (c1 := crc32 (gpt_header_core h1 0 array_crc)).
  set (c2 := crc32 (gpt_header_core h2 0 array_crc)).
  assert (Rc1 : 0 <= c1 < 2 ^ 32) by apply crc32_range.
  assert (Rc2 : 0 <= c2 < 2 ^ 32) by apply crc32_range.
  assert (Rp : 0 <= array_crc < 2 ^ 32) by apply crc32_range.
  rewrite (stored_backup_lba_eq mbr_data uuid B c1 array_crc c2 array_crc
             mbr_is_a_sector uuid_is_16_bytes BR).
  rewrite Off.
  unfold header_validates.
  rewrite (header_at_primary mbr_data uuid B c1 array_crc c2 array_crc
             mbr_is_a_sector uuid_is_16_bytes).
  rewrite (header_at_backup mbr_data uuid B c1 array_crc c2 array_crc
             mbr_is_a_sector uuid_is_16_bytes BR).
  rewrite (header_at_primary mbr_data uuid B 0 array_crc 0 array_crc
             mbr_is_a_sector uuid_is_16_bytes).
  rewrite (header_at_backup mbr_data uuid B 0 array_crc 0 array_crc
             mbr_is_a_sector uuid_is_16_bytes BR).
  fold h1 h2. rewrite !with_zero_checksum_core. fold c1 c2.
  rewrite (stored_header_checksum_primary mbr_data uuid B c1 array_crc c2 array_crc
             mbr_is_a_sector uuid_is_16_bytes Rc1).
  rewrite (stored_header_checksum_backup mbr_data uuid B c1 array_crc c2 array_crc
             mbr_is_a_sector uuid_is_16_bytes BR Rc2).
  rewrite (stored_header_checksum_primary mbr_data uuid B 0 array_crc 0 array_crc
             mbr_is_a_sector uuid_is_16_bytes R0).
  rewrite (stored_header_checksum_backup mbr_data uuid B 0 array_crc 0 array_crc
             mbr_is_a_sector uuid_is_16_bytes BR R0).
  rewrite (stored_array_checksum_primary mbr_data uuid B c1 array_crc c2 array_crc
             mbr_is_a_sector uuid_is_16_bytes Rp).
  rewrite (stored_array_checksum_backup mbr_data uuid B c1 array_crc c2 array_crc
             mbr_is_a_sector uuid_is_16_bytes BR Rp).
  rewrite (stored_array_checksum_primary mbr_data uuid B 0 array_crc 0 array_crc
             mbr_is_a_sector uuid_is_16_bytes Rp).
  rewrite (stored_array_checksum_backup mbr_data uuid B 0 array_crc 0 array_crc
             mbr_is_a_sector uuid_is_16_bytes BR Rp).
  rewrite (load_primary_array mbr_data uuid B 0 array_crc 0 array_crc
             mbr_is_a_sector uuid_is_16_bytes).
  rewrite (load_backup_array mbr_data uuid B 0 array_crc 0 array_crc
             mbr_is_a_sector uuid_is_16_bytes BR).
  rewrite array_crc_eq.
  split; [reflexivity|]. split; [reflexivity|]. split; [reflexivity|].
  split; [reflexivity|]. split; [reflexivity|]. split; [reflexivity|].
  split; [reflexivity|]. split; [reflexivity|]. split; reflexivity.
Qed.


End InitTheorems.

(** C5, amended.  The minimum the size check of [init] works with is
    92 + 128 * 128 + 128 * 512 + 128 * 128 + 92 = 98488 bytes: the code
    counts one 512-byte sector for each of the 128 partition entries.  A
    disk size below it makes [init] return [EXIT_FAILURE] before the
    file is opened; one byte below the minimum is rejected, the minimum
    itself and every larger size pass the check, and with the minimum
    (a 512-byte boot sector and a UUID that parses) [init] runs to
    [EXIT_SUCCESS]. *)
Theorem init_size_check
  (mbr_data : list byte) (pure64_uuid_parse : list byte -> status * list byte)
  (disk_uuid_str : option (list byte)) (disk_size : Z) (uuid : list byte) :
  minimum_size = 92 + 128 * 128 + 128 * 512 + 128 * 128 + 92
  /\ disk_size_rejected (minimum_size - 1) = true
  /\ disk_size_rejected minimum_size = false
  /\ (disk_size < minimum_size ->
      disk_size_rejected disk_size = true
      /\ pure64_init_disk mbr_data pure64_uuid_parse disk_uuid_str disk_size
         = (EXIT_FAILURE, None))
  /\ (minimum_size <= disk_size -> disk_size_rejected disk_size = false)
  /\ (Z.of_nat (length mbr_data) = 512 ->
      pure64_uuid_parse
        (match disk_uuid_str with
         | None => PURE64_DEFAULT_DISK_UUID
         | Some str => str
         end) = (OK, uuid) ->
      Z.of_nat (length uuid) = 16 ->
      fst (pure64_init_disk mbr_data pure64_uuid_parse disk_uuid_str minimum_size)
      = EXIT_SUCCESS).
Proof.
  split; [apply minimum_size_eq|].
  split; [vm_compute; reflexivity|]. split; [vm_compute; reflexivity|].
  split; [|split].
  - intros H. rewrite minimum_size_eq in H.
    assert (R : disk_size_rejected disk_size = true) by (apply disk_size_rejected_iff; lia).
    split; [exact R|].
    unfold pure64_init_disk, pure64_init_write. now rewrite R.
  - intros H. rewrite minimum_size_eq in H.
    apply not_true_is_false. rewrite disk_size_rejected_iff. lia.
  - intros Hm Hp Hu.
    assert (A : 98488 <= minimum_size) by (rewrite minimum_size_eq; lia).
    assert (L : minimum_size + 511 <= LONG_MAX)
      by (rewrite minimum_size_eq; unfold LONG_MAX; lia).
    destruct (pure64_init_disk_ok mbr_data pure64_uuid_parse disk_uuid_str minimum_size uuid
                Hm Hp Hu A L) as (_ & _ & _ & R).
    now rewrite R.
Qed.

(** The option loop never lets a disk size through: whenever it
    completes, the size is still the one it started with.  A value after
    "--disk-size" that [sscanf] converts makes the command fail. *)
Lemma pure64_init_options_size (sscanf_llu : list byte -> scan) (n : nat) :
  forall argv disk_uuid_str disk_size r,
    (length argv <= n)%nat ->
    pure64_init_options sscanf_llu argv disk_uuid_str disk_size = Some r ->
    snd r = disk_size.
Proof.
  induction n as [|n IH]; intros argv u size r Hn H.
  - destruct argv; [|cbn [length] in Hn; lia].
    cbn [pure64_init_options] in H. now injection H as <-.
  - destruct argv as [|arg rest]; cbn [pure64_init_options] in H.
    + now injection H as <-.
    + cbn [length] in Hn.
      destruct (strcmp arg opt_disk_uuid =? 0).
      * destruct rest as [|value rest']; [now injection H as <-|].
        cbn [length] in Hn. apply (IH rest' (Some value) size r); [lia|exact H].
      * destruct (strcmp arg opt_disk_size =? 0); [|discriminate].
        destruct rest as [|value rest']; [discriminate|].
        destruct (sscanf_llu value); cbn [scan_result Z.eqb negb] in H; try discriminate.
        apply (IH (value :: rest') u size r); [lia|exact H].
Qed.

Lemma pure64_init_default_size
  (mbr_data : list byte) (pure64_uuid_parse : list byte -> status * list byte)
  (sscanf_llu : list byte -> scan) (argv : list (list byte)) :
  pure64_init mbr_data pure64_uuid_parse sscanf_llu argv = (EXIT_FAILURE, None)
  \/ exists disk_uuid_str,
       pure64_init mbr_data pure64_uuid_parse sscanf_llu argv
       = pure64_init_disk mbr_data pure64_uuid_parse disk_uuid_str (1 * 1024 * 1024).
Proof.
  unfold pure64_init.
  destruct (pure64_init_options sscanf_llu argv None (1 * 1024 * 1024)) as [[u s]|] eqn:E;
    [|now left].
  right. exists u.
  apply (pure64_init_options_size sscanf_llu (length argv)) in E; [|lia].
  cbn [snd] in E. now rewrite E.
Qed.

Lemma pure64_init_disk_size_option
  (mbr_data : list byte) (pure64_uuid_parse : list byte -> status * list byte)
  (sscanf_llu : list byte -> scan) (value : list byte) (rest : list (list byte)) (v : Z) :
  sscanf_llu value = Converted v ->
  pure64_init mbr_data pure64_uuid_parse sscanf_llu (opt_disk_size :: value :: rest)
  = (EXIT_FAILURE, None).
Proof.
  intros H. unfold pure64_init. cbn [pure64_init_options].
  replace (strcmp opt_disk_size opt_disk_uuid =? 0) with false by reflexivity.
  replace (strcmp opt_disk_size opt_disk_size =? 0) with true by reflexivity.
  now rewrite H.
Qed.

Lemma init_size_check_witness :
  disk_size_rejected 98487 = true
  /\ pure64_init_disk (zeros 512) sample_uuid_parse None 98487 = (EXIT_FAILURE, None)
  /\ disk_size_rejected 98488 = false
  /\ fst (pure64_init_disk (zeros 512) sample_uuid_parse None minimum_size) = EXIT_SUCCESS.
Proof.
  destruct (init_size_check (zeros 512) sample_uuid_parse None 98487
              (firstn 16 PURE64_DEFAULT_DISK_UUID)) as (_ & _ & _ & Low & _ & Run).
  destruct (init_size_check (zeros 512) sample_uuid_parse None 98488
              (firstn 16 PURE64_DEFAULT_DISK_UUID)) as (_ & _ & _ & _ & High & _).
  assert (L : 98487 < minimum_size) by (vm_compute; reflexivity).
  assert (G : minimum_size <= 98488) by (vm_compute; discriminate).
  destruct (Low L) as [R F].
  split; [exact R|]. split; [exact F|]. split; [exact (High G)|].
  apply Run.
  - vm_compute. reflexivity.
  - reflexivity.
  - vm_compute. reflexivity.
Defined.

Lemma init_checksums_validate_witness :
  exists prepared patched image : FILE,
    pure64_init_write (zeros 512) sample_uuid_parse None 98488
    = (EXIT_SUCCESS, Some prepared)
    /\ calculate_partition_headers_checksum prepared = (EXIT_SUCCESS, patched)
    /\ calculate_checksums prepared = (EXIT_SUCCESS, image)
    /\ pure64_init_disk (zeros 512) sample_uuid_parse None 98488
       = (EXIT_SUCCESS, Some image)
    /\ let primary := 512 in
       let backup := stored_backup_lba (f_data image) * 512 in
       header_validates (f_data image) primary
       /\ header_validates (f_data image) backup
       /\ stored_array_checksum (f_data patched) primary
          = crc32 (load (f_data patched) 1024 16384)
       /\ stored_array_checksum (f_data patched) backup
          = crc32 (load (f_data patched) (backup_partition_headers_offset
                                            (stored_backup_lba (f_data image))) 16384)
       /\ stored_header_checksum (f_data patched) primary = 0
       /\ stored_header_checksum (f_data patched) backup = 0
       /\ stored_header_checksum (f_data image) primary
          = crc32 (header_at (f_data patched) primary)
       /\ stored_header_checksum (f_data image) backup
          = crc32 (header_at (f_data patched) backup)
       /\ stored_array_checksum (f_data image) primary
          = stored_array_checksum (f_data patched) primary
       /\ stored_array_checksum (f_data image) backup
          = stored_array_checksum (f_data patched) backup.
Proof.
  apply (init_checksums_validate (zeros 512) sample_uuid_parse None 98488
           (firstn 16 PURE64_DEFAULT_DISK_UUID)).
  - vm_compute. reflexivity.
  - reflexivity.
  - vm_compute. reflexivity.
  - lia.
  - vm_compute. discriminate.
Defined.


(** ** The recursion budget of [pure64_dir_import] is never exhausted *)






Lemma length_load (data : list byte) (pos n : Z) :
  length (load data pos n) = Nat.min (Z.to_nat n) (length data - Z.to_nat pos).
Proof. unfold load. now rewrite length_firstn, length_skipn. Qed.








(* ================================================================== *)
(** * Further properties of the code *)

(** ** More on files and little-endian fields *)

(** Right after a write, the bytes written are read back from where
    the write started. *)
Lemma load_written (buf : list byte) (f : FILE) :
  0 <= f_pos f ->
  load (f_data (written buf f)) (f_pos f) (Z.of_nat (length buf)) = buf.
Proof.
  intros Hp. destruct buf as [|b buf].
  - unfold load. reflexivity.
  - destruct (written_layout (b :: buf) f Hp ltac:(discriminate)) as (pre & post & D & P).
    rewrite D. apply load_exact; [lia|reflexivity].
Qed.

Lemma split_at (data : list byte) (pos n : Z) :
  0 <= pos -> 0 <= n -> pos + n <= Z.of_nat (length data) ->
  data = firstn (Z.to_nat pos) data ++ load data pos n ++ skipn (Z.to_nat (pos + n)) data
  /\ Z.of_nat (length (firstn (Z.to_nat pos) data)) = pos
  /\ Z.of_nat (length (load data pos n)) = n.
Proof.
  intros Hp Hn Hl. split; [|split].
  - unfold load. rewrite <- (firstn_skipn (Z.to_nat pos) data) at 1. f_equal.
    rewrite <- (firstn_skipn (Z.to_nat n) (skipn (Z.to_nat pos) data)) at 1. f_equal.
    rewrite skipn_skipn. f_equal. lia.
  - rewrite length_firstn. lia.
  - rewrite length_load. lia.
Qed.

Lemma load_full (data : list byte) (pos : Z) (bs : list byte) :
  0 <= pos -> bs <> [] -> load data pos (Z.of_nat (length bs)) = bs ->
  pos + Z.of_nat (length bs) <= Z.of_nat (length data).
Proof.
  intros Hp N L.
  assert (Len : length (load data pos (Z.of_nat (length bs))) = length bs) by now rewrite L.
  rewrite length_load in Len. destruct bs; [now elim N|]. cbn [length] in *. lia.
Qed.

Lemma load_app_l (a rest : list byte) (p n : Z) :
  0 <= p -> 0 <= n -> p + n <= Z.of_nat (length a) ->
  load (a ++ rest) p n = load a p n.
Proof.
  intros Hp Hn Hl. unfold load. rewrite skipn_app.
  replace (Z.to_nat p - length a)%nat with O by lia. cbn [skipn].
  rewrite firstn_app, length_skipn.
  replace (Z.to_nat n - (length a - Z.to_nat p))%nat with O by lia.
  cbn [firstn]. apply app_nil_r.
Qed.

Lemma load_firstn (data : list byte) (q : nat) (p n : Z) :
  0 <= p -> 0 <= n -> p + n <= Z.of_nat q ->
  load (firstn q data) p n = load data p n.
Proof.
  intros Hp Hn Hl. unfold load.
  rewrite !firstn_skipn_comm, firstn_firstn. do 2 f_equal. lia.
Qed.

Lemma load_app_r (a rest : list byte) (p n : Z) :
  Z.of_nat (length a) <= p ->
  load (a ++ rest) p n = load rest (p - Z.of_nat (length a)) n.
Proof.
  intros Hp. unfold load. rewrite skipn_app.
  rewrite (skipn_all2 a) by lia. cbn [app]. do 2 f_equal. lia.
Qed.

Lemma load_skipn (data : list byte) (q : nat) (p n : Z) :
  0 <= p -> load (skipn q data) p n = load data (p + Z.of_nat q) n.
Proof.
  intros Hp. unfold load. rewrite skipn_skipn. do 2 f_equal. lia.
Qed.

(** A write leaves alone what lies entirely before it or entirely
    after it. *)
Lemma load_written_other (data buf bs : list byte) (p pos : Z) :
  0 <= p -> 0 <= pos ->
  load data p (Z.of_nat (length bs)) = bs ->
  p + Z.of_nat (length bs) <= pos \/ pos + Z.of_nat (length buf) <= p ->
  load (f_data (written buf (mkFILE data pos))) p (Z.of_nat (length bs)) = bs.
Proof.
  intros Hp Hpos L Dis. rewrite f_data_written. cbn [f_data f_pos].
  destruct bs as [|b bs]; [unfold load; reflexivity|].
  pose proof (load_full data p (b :: bs) Hp ltac:(discriminate) L) as Full.
  set (n := Z.of_nat (length (b :: bs))) in *.
  assert (Hn : 0 <= n) by (unfold n; lia).
  destruct buf as [|c buf]; [exact L|].
  rewrite store_nonempty by discriminate. unfold before.
  set (w := c :: buf) in *.
  destruct Dis as [Before|After].
  - rewrite <- app_assoc, load_app_l by (rewrite ?length_firstn; lia).
    rewrite load_firstn by lia. exact L.
  - rewrite zeros_nonpos by lia. rewrite app_nil_r.
    rewrite load_app_r by (rewrite ?length_firstn; lia).
    rewrite load_app_r by (rewrite ?length_firstn; lia).
    rewrite load_skipn by (rewrite ?length_firstn; lia).
    rewrite length_firstn.
    replace (p - Z.of_nat (Nat.min (Z.to_nat pos) (length data)) - Z.of_nat (length w)
             + Z.of_nat (Z.to_nat pos + length w)) with p by lia.
    exact L.
Qed.

Lemma fread_enough (data : list byte) (pos n : Z) :
  0 <= pos -> 0 <= n -> pos + n <= Z.of_nat (length data) ->
  fread n (mkFILE data pos) = (load data pos n, mkFILE data (pos + n))
  /\ Z.of_nat (length (load data pos n)) = n.
Proof.
  intros Hp Hn Hl. unfold fread. cbn [f_data f_pos].
  replace (Z.min n (Z.max 0 (Z.of_nat (length data) - pos))) with n by lia.
  assert (L : Z.of_nat (length (load data pos n)) = n) by (rewrite length_load; lia).
  rewrite L. split; reflexivity.
Qed.

Lemma firstn_add {A : Type} (n m : nat) (l : list A) :
  firstn (n + m) l = firstn n l ++ firstn m (skipn n l).
Proof.
  revert l. induction n as [|n IH]; intros l; [reflexivity|].
  destruct l as [|x l]; cbn [Nat.add firstn skipn app].
  - now rewrite firstn_nil.
  - now rewrite IH.
Qed.

Lemma load_app (data : list byte) (pos : Z) (a b : list byte) :
  0 <= pos ->
  load data pos (Z.of_nat (length a)) = a ->
  load data (pos + Z.of_nat (length a)) (Z.of_nat (length b)) = b ->
  load data pos (Z.of_nat (length (a ++ b))) = a ++ b.
Proof.
  unfold load. intros Hp Ha Hb. rewrite !Nat2Z.id in *.
  rewrite length_app, firstn_add, Ha. f_equal.
  rewrite skipn_skipn.
  replace (length a + Z.to_nat pos)%nat with (Z.to_nat (pos + Z.of_nat (length a))) by lia.
  exact Hb.
Qed.

(** Writing back the bytes that are already there changes nothing. *)
Lemma store_load (data : list byte) (pos : Z) (bs : list byte) :
  0 <= pos -> load data pos (Z.of_nat (length bs)) = bs -> store data pos bs = data.
Proof.
  intros Hp L. destruct bs as [|b bs]; [reflexivity|].
  set (buf := b :: bs) in *.
  rewrite store_nonempty by discriminate. unfold before.
  assert (Len : length (load data pos (Z.of_nat (length buf))) = length buf) by now rewrite L.
  rewrite length_load in Len.
  assert (0 < length buf)%nat by (cbn; lia).
  rewrite zeros_nonpos by lia. rewrite app_nil_r.
  rewrite <- (firstn_skipn (Z.to_nat pos) data) at 3. f_equal.
  rewrite <- (firstn_skipn (length buf) (skipn (Z.to_nat pos) data)). f_equal.
  - unfold load in L. now rewrite Nat2Z.id in L.
  - rewrite skipn_skipn. f_equal. lia.
Qed.

Lemma le_bytes_le_value (bs : list byte) : le_bytes (length bs) (le_value bs) = bs.
Proof.
  induction bs as [|b bs IH]; [reflexivity|].
  cbn [length le_bytes le_value]. pose proof (byte_to_Z_range b) as R.
  f_equal.
  - unfold byte_of_Z.
    replace ((byte_to_Z b + 256 * le_value bs) mod 256) with (byte_to_Z b) by lia.
    unfold byte_to_Z. now rewrite N2Z.id, Byte.of_to_N.
  - replace ((byte_to_Z b + 256 * le_value bs) / 256) with (le_value bs) by lia.
    exact IH.
Qed.

Lemma le_value_range (bs : list byte) : 0 <= le_value bs < 256 ^ Z.of_nat (length bs).
Proof.
  induction bs as [|b bs IH]; cbn [le_value length]; [cbn; lia|].
  pose proof (byte_to_Z_range b) as R.
  rewrite Nat2Z.inj_succ, Z.pow_succ_r by lia. lia.
Qed.

Lemma le_value_zero (bs : list byte) :
  le_value bs = 0 -> bs = zeros (Z.of_nat (length bs)).
Proof.
  intros H. rewrite <- (le_bytes_le_value bs) at 1. rewrite H.
  unfold zeros. rewrite Nat2Z.id.
  induction (length bs) as [|n IH]; [reflexivity|].
  cbn [le_bytes repeat]. now rewrite <- IH.
Qed.

(** A sequence of buffers written one after the other: each is found
    at the sum of the lengths of those before it. *)
Lemma load_concat_nth (fields : list (list byte)) :
  forall (k : nat) (pre post : list byte),
    load (pre ++ concat fields ++ post)
      (Z.of_nat (length pre) + Z.of_nat (length (concat (firstn k fields))))
      (Z.of_nat (length (nth k fields [])))
    = nth k fields [].
Proof.
  induction fields as [|f fields IH]; intros k pre post.
  - destruct k; cbn [nth length Z.of_nat]; unfold load; reflexivity.
  - destruct k as [|k]; cbn [nth firstn concat].
    + cbn [length Z.of_nat]. rewrite Z.add_0_r, <- app_assoc.
      now apply load_exact.
    + specialize (IH k (pre ++ f) post).
      rewrite <- !app_assoc in *. rewrite !length_app, !Nat2Z.inj_add in *.
      rewrite Z.add_assoc. exact IH.
Qed.

#[local] Hint Rewrite @length_app length_le_bytes length_zeros : len.

(** ** Inserts that succeed *)

Lemma pure64_strlen_le (s : list byte) : pure64_strlen s <= Z.of_nat (length s).
Proof.
  induction s as [|c s IH]; cbn [pure64_strlen length]; [lia|].
  destruct (Byte.eqb c x00); lia.
Qed.

Lemma length_c_str (s : list byte) : Z.of_nat (length (c_str s)) = pure64_strlen s.
Proof.
  unfold c_str, pure64_memcpy. rewrite length_firstn.
  pose proof (pure64_strlen_le s). pose proof (pure64_strlen_nonneg s). lia.
Qed.

Lemma c_str_no_terminator (s : list byte) : ~ In x00 (c_str s).
Proof.
  induction s as [|c s IH]; [now rewrite c_str_nil|].
  rewrite c_str_cons. destruct (Byte.eqb c x00) eqn:E; [intros []|].
  intros [H|H]; [|now apply IH].
  subst c. discriminate.
Qed.

Lemma c_str_idem (s : list byte) : c_str (c_str s) = c_str s.
Proof.
  induction s as [|c s IH]; [reflexivity|].
  rewrite c_str_cons. destruct (Byte.eqb c x00) eqn:E; [reflexivity|].
  rewrite c_str_cons, E. now rewrite IH.
Qed.

Lemma sibling_named_In (dir : pure64_dir) (name : list byte) :
  sibling_named dir name <-> In (c_str name) (sibling_names dir).
Proof.
  unfold sibling_named, sibling_names. rewrite in_app_iff, !in_map_iff.
  split; (intros [[x [A B]]|[x [A B]]]; [left|right]; exists x; tauto).
Qed.

Lemma pure64_dir_name_exists_In (dir : pure64_dir) (name : list byte) :
  pure64_dir_name_exists dir name = true <-> In (c_str name) (sibling_names dir).
Proof. rewrite pure64_dir_name_exists_iff. apply sibling_named_In. Qed.

Lemma pure64_dir_set_name_ok (dir : pure64_dir) (name : list byte) (h : heap) :
  h O = true ->
  pure64_dir_set_name dir name h
  = (OK, mkdir (c_str name) (dir_subdirs dir) (dir_files dir), fun n => h (S n)).
Proof.
  intros H. unfold pure64_dir_set_name, pure64_malloc. rewrite H. reflexivity.
Qed.

Lemma pure64_dir_add_subdir_ok (dir : pure64_dir) (name : list byte) (h : heap) :
  pure64_dir_name_exists dir name = false ->
  h O = true -> h 1%nat = true ->
  pure64_dir_add_subdir dir name h
  = (OK,
     mkdir (dir_name dir) (dir_subdirs dir ++ [mkdir (c_str name) [] []]) (dir_files dir),
     fun n => h (S (S n))).
Proof.
  intros N H0 H1. unfold pure64_dir_add_subdir, pure64_realloc.
  rewrite N, H0. cbn [negb].
  rewrite pure64_dir_set_name_ok by exact H1. reflexivity.
Qed.

Lemma sibling_names_add_subdir (name : list byte) (subdirs : list pure64_dir)
  (files : list pure64_file) (new : pure64_dir) :
  sibling_names (mkdir name (subdirs ++ [new]) files)
  = sibling_names (mkdir name subdirs files) ++ [c_str (dir_name new)].
Proof.
  unfold sibling_names. cbn [dir_files dir_subdirs].
  now rewrite map_app, app_assoc.
Qed.

Lemma In_sibling_names_add_file (name : list byte) (subdirs : list pure64_dir)
  (files : list pure64_file) (new : pure64_file) (s : list byte) :
  In s (sibling_names (mkdir name subdirs (files ++ [new])))
  <-> In s (sibling_names (mkdir name subdirs files)) \/ s = c_str (file_name new).
Proof.
  unfold sibling_names. cbn [dir_files dir_subdirs].
  rewrite map_app, !in_app_iff. cbn [map In]. intuition congruence.
Qed.



(** X1. When [name] names no child of [dir] and the allocator grants
    the two requests of the call (the grown array, the name buffer),
    [pure64_dir_add_subdir] returns 0 and appends one empty
    subdirectory, named by the bytes of [name] up to its terminator, at
    the end of [subdirs]; the name of [dir], its files and its earlier
    subdirectories stay as they were and [subdir_count] grows by one.
    Afterwards [pure64_dir_name_exists] finds exactly the names it found
    before and the new one, and a second insert of the same name is
    refused with [PURE64_EEXIST]. *)
Theorem add_subdir_then_lookup (dir : pure64_dir) (name : list byte) (h : heap) :
  pure64_dir_name_exists dir name = false ->
  h O = true -> h 1%nat = true ->
  exists dir',
    pure64_dir_add_subdir dir name h = (OK, dir', fun n => h (S (S n)))
    /\ dir_name dir' = dir_name dir
    /\ dir_files dir' = dir_files dir
    /\ dir_subdirs dir' = dir_subdirs dir ++ [mkdir (c_str name) [] []]
    /\ subdir_count dir' = subdir_count dir + 1
    /\ (forall other,
          pure64_dir_name_exists dir' other = true
          <-> pure64_dir_name_exists dir other = true \/ c_str other = c_str name)
    /\ (forall h2, pure64_dir_add_subdir dir' name h2 = (PURE64_EEXIST, dir', h2)).
Proof.
  intros N H0 H1. eexists. split; [now apply pure64_dir_add_subdir_ok|].
  cbn [dir_name dir_files dir_subdirs]. repeat (split; [reflexivity|]).
  split; [unfold subdir_count; cbn [dir_subdirs]; rewrite length_app; cbn [length]; lia|].
  assert (L : forall other,
             pure64_dir_name_exists
               (mkdir (dir_name dir) (dir_subdirs dir ++ [mkdir (c_str name) [] []])
                  (dir_files dir)) other = true
             <-> pure64_dir_name_exists dir other = true \/ c_str other = c_str name).
  { intros other. rewrite !pure64_dir_name_exists_In, sibling_names_add_subdir.
    cbn [dir_name]. rewrite c_str_idem, in_app_iff. cbn [In].
    destruct dir as [n s f]. cbn [dir_name dir_subdirs dir_files].
    intuition congruence. }
  split; [exact L|].
  intros h2. unfold pure64_dir_add_subdir.
  replace (pure64_dir_name_exists _ name) with true; [reflexivity|].
  symmetry. apply L. now right.
Qed.

Lemma add_subdir_then_lookup_witness :
  let dir := mkdir [] [] [mkfile ["a"%byte] [x01]] in
  let name := ["b"; x00; "c"]%byte in
  exists dir',
    pure64_dir_add_subdir dir name plentiful = (OK, dir', fun n => plentiful (S (S n)))
    /\ dir_subdirs dir' = [mkdir ["b"%byte] [] []]
    /\ pure64_dir_name_exists dir' ["b"%byte] = true.
Proof.
  intros dir name.
  destruct (add_subdir_then_lookup dir name plentiful eq_refl eq_refl eq_refl)
    as (dir' & E & _ & _ & S & _ & L & _).
  exists dir'. split; [exact E|]. split; [exact S|].
  apply L. right. reflexivity.
Defined.

Section MoreInserts.

Variable set_name : pure64_file -> list byte -> heap -> status * pure64_file * heap.

(** X2. When [name] names no child of [dir], [realloc] grants the
    grown array and [pure64_file_set_name] returns 0 on the fresh file,
    [pure64_dir_add_file] returns 0 and appends that file, as the name
    setter left it, at the end of [files]; the name of [dir], its
    subdirectories and its earlier files stay as they were and
    [file_count] grows by one.  Afterwards [pure64_dir_name_exists]
    finds exactly the names it found before and the name the new file
    carries. *)
Theorem add_file_then_lookup (dir : pure64_dir) (name : list byte) (h h' : heap)
  (file : pure64_file) :
  pure64_dir_name_exists dir name = false ->
  h O = true ->
  set_name pure64_file_init name (fun n => h (S n)) = (OK, file, h') ->
  exists dir',
    pure64_dir_add_file set_name dir name h = (OK, dir', h')
    /\ dir_name dir' = dir_name dir
    /\ dir_subdirs dir' = dir_subdirs dir
    /\ dir_files dir' = dir_files dir ++ [file]
    /\ file_count dir' = file_count dir + 1
    /\ (forall other,
          pure64_dir_name_exists dir' other = true
          <-> pure64_dir_name_exists dir other = true
              \/ c_str other = c_str (file_name file)).
Proof.
  intros N H0 S. eexists. split.
  { unfold pure64_dir_add_file, pure64_realloc. rewrite N, H0. cbn [negb].
    rewrite S. reflexivity. }
  cbn [dir_name dir_files dir_subdirs]. repeat (split; [reflexivity|]).
  split; [unfold file_count; cbn [dir_files]; rewrite length_app; cbn [length]; lia|].
  intros other. rewrite !pure64_dir_name_exists_In, In_sibling_names_add_file.
  destruct dir as [n s f]. cbn [dir_name dir_subdirs dir_files]. reflexivity.
Qed.


End MoreInserts.

Lemma add_file_then_lookup_witness :
  let dir := mkdir [] [mkdir ["d"%byte] [] []] [] in
  exists dir',
    pure64_dir_add_file file_set_name_like_dir dir ["a"%byte] plentiful
    = (OK, dir', fun n => plentiful (S (S n)))
    /\ dir_files dir' = [mkfile ["a"%byte] []]
    /\ pure64_dir_name_exists dir' ["a"%byte] = true.
Proof.
  intros dir.
  destruct (add_file_then_lookup file_set_name_like_dir dir ["a"%byte] plentiful
              (fun n => plentiful (S (S n))) (mkfile ["a"%byte] [])
              eq_refl eq_refl eq_refl)
    as (dir' & E & _ & _ & F & _ & L).
  exists dir'. split; [exact E|]. split; [exact F|].
  apply L. right. reflexivity.
Defined.


(** X4. [pure64_dir_set_name] makes one request to the allocator and
    never touches the children.  When the request is granted it returns
    0 and the directory is named by the bytes of [name] up to the first
    zero byte: [name_size] is [pure64_strlen (name)], the stored name
    holds no zero byte and compares equal to [name] under
    [pure64_strcmp].  When it is refused the call returns
    [PURE64_ENOMEM] and the directory is unchanged. *)
Theorem pure64_dir_set_name_copies (dir : pure64_dir) (name : list byte) (h : heap) :
  let '(err, dir', h') := pure64_dir_set_name dir name h in
  dir_subdirs dir' = dir_subdirs dir
  /\ dir_files dir' = dir_files dir
  /\ h' = (fun n => h (S n))
  /\ (if h O
      then err = OK
           /\ dir_name dir' = c_str name
           /\ name_size dir' = pure64_strlen name
           /\ ~ In x00 (dir_name dir')
           /\ pure64_strcmp (dir_name dir') name = 0
      else err = PURE64_ENOMEM /\ dir' = dir).
Proof.
  unfold pure64_dir_set_name, pure64_malloc.
  destruct (h O); cbn [negb dir_subdirs dir_files dir_name].
  - fold (c_str name). repeat (split; [reflexivity|]).
    split; [unfold name_size; cbn [dir_name]; apply length_c_str|].
    split; [apply c_str_no_terminator|].
    apply pure64_strcmp_zero, c_str_idem.
  - repeat split; reflexivity.
Qed.

(** ** The tree codec, read the other way round *)

Lemma consumed_nil (w w' : world) : io w' = io w -> consumed w w' [].
Proof.
  intros E. unfold consumed, load. rewrite E.
  cbn [length Z.of_nat Z.to_nat firstn]. repeat split. lia.
Qed.

Lemma consumed_app (w w1 w2 : world) (a b : list byte) :
  0 <= f_pos (io w) ->
  consumed w w1 a -> consumed w1 w2 b -> consumed w w2 (a ++ b).
Proof.
  intros Hp (D1 & P1 & L1) (D2 & P2 & L2). unfold consumed.
  rewrite D1 in *. rewrite P1 in *.
  split; [exact D2|]. split; [rewrite length_app; lia|].
  now apply load_app.
Qed.

Lemma yields_ret {A : Type} (x : A) : yields (ret x) (fun y bs => y = x /\ bs = []).
Proof.
  intros w y w' _ E. unfold ret in E. injection E as <- <-.
  exists []. split; [now apply consumed_nil|tauto].
Qed.

Lemma yields_bind {A B : Type} (m : M A) (k : A -> M B)
  (Q : A -> list byte -> Prop) (R : A -> B -> list byte -> Prop) :
  yields m Q -> (forall x, yields (k x) (R x)) ->
  yields (bind m k) (fun y bs => exists x a b, bs = a ++ b /\ Q x a /\ R x y b).
Proof.
  intros Hm Hk w y w' Hp E. unfold bind in E.
  destruct (m w) as [x w1|e w1|] eqn:E1; try discriminate.
  destruct (Hm w x w1 Hp E1) as (a & Ca & Qa).
  assert (Hp1 : 0 <= f_pos (io w1)) by (destruct Ca as (_ & P & _); lia).
  destruct (Hk x w1 y w' Hp1 E) as (b & Cb & Rb).
  exists (a ++ b). split; [now apply (consumed_app w w1 w')|].
  exists x, a, b. tauto.
Qed.

Lemma yields_weaken {A : Type} (m : M A) (Q Q' : A -> list byte -> Prop) :
  yields m Q -> (forall x bs, Q x bs -> Q' x bs) -> yields m Q'.
Proof.
  intros H HQ w x w' Hp E. destruct (H w x w' Hp E) as (bs & C & Hq).
  exists bs. split; [exact C|now apply HQ].
Qed.

Lemma yields_fail {A : Type} (e : status) (Q : A -> list byte -> Prop) :
  yields (fail e) Q.
Proof. intros w x w' _ E. discriminate. Qed.

Lemma yields_allocate : yields allocate (fun _ bs => bs = []).
Proof.
  intros w x w' _ E. unfold allocate, pure64_malloc in E. injection E as _ <-.
  exists []. split; [now apply consumed_nil|reflexivity].
Qed.

Lemma yields_stream_read (n : Z) :
  yields (pure64_stream_read n) (fun buf bs => bs = buf /\ Z.of_nat (length buf) = n).
Proof.
  intros [[data pos] h] buf w' Hp E. cbn [io f_pos] in Hp.
  unfold pure64_stream_read, fstream_read, fread in E. cbn [io mem f_data f_pos] in E.
  set (got := load data pos (Z.min n (Z.max 0 (Z.of_nat (length data) - pos)))) in *.
  destruct (Z.eqb_spec (Z.of_nat (length got)) n) as [L|L]; cbn [negb is_error] in E;
    [|discriminate].
  injection E as <- <-. exists got. split; [|tauto].
  unfold consumed. cbn [io f_data f_pos]. split; [reflexivity|]. split; [reflexivity|].
  rewrite L. unfold got. f_equal.
  assert (length got = Nat.min (Z.to_nat (Z.min n (Z.max 0 (Z.of_nat (length data) - pos))))
                         (length data - Z.to_nat pos)) by (unfold got; apply length_load).
  lia.
Qed.

Lemma yields_decode_uint64 :
  yields decode_uint64 (fun v bs => bs = le_bytes 8 v /\ 0 <= v < 2 ^ 64).
Proof.
  unfold decode_uint64.
  eapply yields_weaken; [apply yields_bind; [apply (yields_stream_read 8)|]|].
  - intros buf. apply yields_ret.
  - cbv beta. intros v bs (buf & a & b & -> & [-> L] & [-> ->]).
    rewrite app_nil_r.
    assert (L8 : length buf = 8%nat) by lia.
    split.
    + rewrite <- L8. symmetry. apply le_bytes_le_value.
    + pose proof (le_value_range buf) as R. rewrite L8 in R. exact R.
Qed.

Lemma yields_fill_each {A : Type} (m : M A) (enc : A -> list byte) (P : A -> Prop)
  (count : nat) :
  yields m (fun x bs => bs = enc x /\ P x) ->
  yields (fill_each count m)
    (fun xs bs => bs = flat_map enc xs /\ length xs = count /\ All P xs).
Proof.
  intros H. induction count as [|count IH]; cbn [fill_each].
  - eapply yields_weaken; [apply yields_ret|].
    cbv beta. intros xs bs [-> ->]. repeat split.
  - eapply yields_weaken;
      [apply yields_bind; [exact H|intros x; apply yields_bind; [exact IH|]]|].
    + intros rest. apply yields_ret.
    + cbv beta. intros xs bs (x & a & b & -> & [-> Px] & (rest & c & d & -> & (-> & L & Hr) & [-> ->])).
      rewrite app_nil_r. cbn [flat_map length All]. repeat split; try tauto. now rewrite L.
Qed.

Lemma bind_Done {A B : Type} (m : M A) (k : A -> M B) (w w' : world) (y : B) :
  bind m k w = Done y w' -> exists x w1, m w = Done x w1 /\ k x w1 = Done y w'.
Proof.
  unfold bind. destruct (m w) as [x w1|e w1|]; try discriminate.
  intros E. now exists x, w1.
Qed.

(** One more call of a sequence that has consumed [acc] so far. *)
Lemma yields_step {A : Type} (m : M A) (Q : A -> list byte -> Prop)
  (w0 w w1 : world) (acc : list byte) (x : A) :
  yields m Q -> 0 <= f_pos (io w0) -> consumed w0 w acc -> m w = Done x w1 ->
  exists bs, consumed w0 w1 (acc ++ bs) /\ Q x bs.
Proof.
  intros H Hp C E.
  assert (Hw : 0 <= f_pos (io w)) by (destruct C as (_ & P & _); lia).
  destruct (H w x w1 Hw E) as (bs & Cb & Hq).
  exists bs. split; [now apply (consumed_app w0 w w1)|exact Hq].
Qed.

Tactic Notation "next_call" ident(E) constr(lemma) "as" ident(x) ident(w1) ident(C) ident(Q) :=
  let E1 := fresh "E" in
  let bs := fresh "bs" in
  apply bind_Done in E as (x & w1 & E1 & E);
  match goal with
  | Hp : 0 <= f_pos (io ?w0), C0 : consumed ?w0 _ _ |- _ =>
      destruct (yields_step _ _ w0 _ w1 _ x lemma Hp C0 E1) as (bs & C & Q);
      clear C0 E1
  end.

Lemma yields_file_import :
  yields pure64_file_import (fun f bs => bs = file_bytes f /\ file_fits f).
Proof.
  intros w f w' Hp E. pose proof (consumed_nil w w eq_refl) as C0.
  unfold pure64_file_import in E.
  next_call E yields_decode_uint64 as name_size w1 C1 Q1. destruct Q1 as [-> R1].
  next_call E yields_decode_uint64 as data_size w2 C2 Q2. destruct Q2 as [-> R2].
  next_call E yields_allocate as name w3 C3 Q3. subst.
  next_call E yields_allocate as data w4 C4 Q4. subst.
  destruct (negb name || negb data); [discriminate|].
  next_call E (yields_stream_read name_size) as n w5 C5 Q5. destruct Q5 as [-> L5].
  next_call E (yields_stream_read data_size) as d w6 C6 Q6. destruct Q6 as [-> L6].
  unfold ret in E. injection E as <- <-.
  exists (file_bytes (mkfile n d)). split.
  - unfold file_bytes, file_name_size, file_data_size. cbn [file_name file_data].
    rewrite L5, L6. rewrite !app_nil_r, <- !app_assoc in C6. exact C6.
  - unfold file_fits, file_name_size, file_data_size. cbn [file_name file_data].
    split; [reflexivity|lia].
Qed.

Lemma yields_dir_import_fuel (fuel : nat) :
  yields (pure64_dir_import_fuel fuel) (fun d bs => bs = dir_bytes d /\ dir_fits d).
Proof.
  induction fuel as [|fuel IH]; [intros w x w' _ E; discriminate|].
  intros w dir w' Hp E. pose proof (consumed_nil w w eq_refl) as C0.
  cbn [pure64_dir_import_fuel] in E.
  next_call E yields_decode_uint64 as name_size w1 C1 Q1. destruct Q1 as [-> R1].
  next_call E yields_decode_uint64 as subdir_count w2 C2 Q2. destruct Q2 as [-> R2].
  next_call E yields_decode_uint64 as file_count w3 C3 Q3. destruct Q3 as [-> R3].
  next_call E yields_allocate as name w4 C4 Q4. subst.
  next_call E yields_allocate as subdirs w5 C5 Q5. subst.
  next_call E yields_allocate as files w6 C6 Q6. subst.
  destruct (negb name || negb subdirs || negb files); [discriminate|].
  next_call E (yields_stream_read name_size) as n w7 C7 Q7. destruct Q7 as [-> L7].
  next_call E (yields_fill_each _ dir_bytes dir_fits (Z.to_nat subdir_count) IH)
    as ds w8 C8 Q8.
  destruct Q8 as (-> & L8 & F8).
  next_call E (yields_fill_each _ file_bytes file_fits (Z.to_nat file_count)
                 yields_file_import) as fs w9 C9 Q9.
  destruct Q9 as (-> & L9 & F9).
  unfold ret in E. injection E as <- <-.
  exists (dir_bytes (mkdir n ds fs)). split.
  - cbn [dir_bytes].
    replace (Z.of_nat (length ds)) with subdir_count by lia.
    replace (Z.of_nat (length fs)) with file_count by lia.
    rewrite L7. rewrite !app_nil_r, <- !app_assoc in C9. exact C9.
  - split; [reflexivity|]. cbn [dir_fits]. repeat split; try tauto; lia.
Qed.

(** X5. Whatever [pure64_dir_import] accepts is the image of the tree
    it returns: when the import succeeds with [tree], the bytes it has
    read, from the position it started at to the position it stopped at,
    are exactly the bytes [pure64_dir_export] writes for [tree]; the
    medium is untouched, every count of [tree] fits its [uint64_t]
    field, and exporting [tree] at the position the import started from
    rewrites the medium byte for byte and ends where the import
    ended. *)
Theorem import_then_export_identity (w w' : world) (tree : pure64_dir) :
  0 <= f_pos (io w) ->
  pure64_dir_import w = Done tree w' ->
  f_data (io w') = f_data (io w)
  /\ f_pos (io w') = f_pos (io w) + Z.of_nat (length (dir_bytes tree))
  /\ load (f_data (io w)) (f_pos (io w)) (Z.of_nat (length (dir_bytes tree)))
     = dir_bytes tree
  /\ dir_fits tree
  /\ forall h, pure64_dir_export tree (mkworld (io w) h) = Done tt (mkworld (io w') h).
Proof.
  intros Hp E. unfold pure64_dir_import in E.
  destruct (yields_dir_import_fuel _ w tree w' Hp E) as (bs & (D & P & L) & -> & F).
  split; [exact D|]. split; [exact P|]. split; [exact L|]. split; [exact F|].
  intros h. rewrite (pure64_dir_export_writes tree) by exact Hp. cbn [io mem].
  do 2 f_equal. destruct (io w') as [d' p']. cbn [f_data f_pos] in D, P. subst d' p'.
  unfold written, fwrite. cbn [snd]. f_equal. now apply store_load.
Qed.

Lemma import_then_export_identity_witness :
  let data := [x07] ++ dir_bytes (mkdir ["r"%byte] [mkdir [] [] []] [mkfile ["a"%byte] [x01]])
              ++ [x09] in
  let w := mkworld (mkFILE data 1) plentiful in
  exists tree w',
    pure64_dir_import w = Done tree w'
    /\ f_pos (io w') = 1 + Z.of_nat (length (dir_bytes tree))
    /\ pure64_dir_export tree (mkworld (io w) plentiful) = Done tt (mkworld (io w') plentiful).
Proof.
  intros data w.
  assert (E : exists tree w', pure64_dir_import w = Done tree w').
  { eexists. eexists. vm_compute. reflexivity. }
  destruct E as (tree & w' & E). exists tree, w'. split; [exact E|].
  assert (Hp : 0 <= f_pos (io w)) by (cbn; lia).
  destruct (import_then_export_identity w w' tree Hp E) as (_ & P & _ & _ & X).
  split; [exact P|apply X].
Defined.

(** ** Streams that end too early, and allocation failures *)
















Lemma decode_uint64_enough (data : list byte) (pos : Z) (h : heap) :
  0 <= pos -> pos + 8 <= Z.of_nat (length data) ->
  decode_uint64 (mkworld (mkFILE data pos) h)
  = Done (le_value (load data pos 8)) (mkworld (mkFILE data (pos + 8)) h).
Proof.
  intros Hp Hl. unfold decode_uint64, bind, pure64_stream_read, fstream_read.
  cbn [io mem].
  destruct (fread_enough data pos 8 Hp ltac:(lia) Hl) as [-> L].
  rewrite L. reflexivity.
Qed.

(** X7. [pure64_dir_import] reads the three counts, makes its three
    requests to the allocator and only then looks at them: when any of
    the three is refused and the stream holds the 24 bytes of the
    counts, it returns [PURE64_ENOMEM] with the stream 24 bytes further
    and three requests spent, whatever the counts were. *)
Theorem import_out_of_memory (data : list byte) (pos : Z) (h : heap) :
  0 <= pos -> pos + 24 <= Z.of_nat (length data) ->
  h O = false \/ h 1%nat = false \/ h 2%nat = false ->
  pure64_dir_import (mkworld (mkFILE data pos) h)
  = Failed PURE64_ENOMEM
      (mkworld (mkFILE data (pos + 24)) (fun n => h (S (S (S n))))).
Proof.
  intros Hp Hl Hh. unfold pure64_dir_import. cbn [io f_data pure64_dir_import_fuel].
  unfold bind at 1. rewrite decode_uint64_enough by lia.
  unfold bind at 1. rewrite decode_uint64_enough by lia.
  unfold bind at 1. rewrite decode_uint64_enough by lia.
  unfold bind at 1, allocate at 1, pure64_malloc. cbn [io mem].
  unfold bind at 1, allocate at 1, pure64_malloc. cbn [io mem].
  unfold bind at 1, allocate at 1, pure64_malloc. cbn [io mem].
  replace (pos + 8 + 8 + 8) with (pos + 24) by lia.
  assert (B : negb (h O) || negb (h 1%nat) || negb (h 2%nat) = true).
  { destruct (h O), (h 1%nat), (h 2%nat); try reflexivity.
    destruct Hh as [H|[H|H]]; discriminate. }
  rewrite B. reflexivity.
Qed.

Lemma import_out_of_memory_witness :
  let h : heap := fun n => negb (Nat.eqb n 1) in
  pure64_dir_import (mkworld (mkFILE (dir_bytes pure64_dir_init) 0) h)
  = Failed PURE64_ENOMEM
      (mkworld (mkFILE (dir_bytes pure64_dir_init) 24) (fun n => h (S (S (S n))))).
Proof.
  intros h.
  apply (import_out_of_memory (dir_bytes pure64_dir_init) 0 h).
  - lia.
  - vm_compute. discriminate.
  - right. left. reflexivity.
Defined.

(** X9. [pure64_dir_export] started at a position [P] succeeds
    without a request to the allocator, leaves the stream at [P] plus
    the size of the image of the tree, which is at least 24 bytes plus
    the name; the image is found at [P], and whatever the medium held
    entirely before [P] or entirely after the image is still there. *)
Theorem pure64_dir_export_region (dir : pure64_dir) (w : world) :
  0 <= f_pos (io w) ->
  exists w',
    pure64_dir_export dir w = Done tt w'
    /\ mem w' = mem w
    /\ f_pos (io w') = f_pos (io w) + Z.of_nat (length (dir_bytes dir))
    /\ load (f_data (io w')) (f_pos (io w)) (Z.of_nat (length (dir_bytes dir)))
       = dir_bytes dir
    /\ 24 + name_size dir <= Z.of_nat (length (dir_bytes dir))
    /\ forall p bs,
         0 <= p ->
         load (f_data (io w)) p (Z.of_nat (length bs)) = bs ->
         p + Z.of_nat (length bs) <= f_pos (io w)
         \/ f_pos (io w) + Z.of_nat (length (dir_bytes dir)) <= p ->
         load (f_data (io w')) p (Z.of_nat (length bs)) = bs.
Proof.
  intros Hp. eexists. split; [now apply pure64_dir_export_writes|].
  cbn [io mem]. split; [reflexivity|]. split; [apply f_pos_written|].
  split; [now apply load_written|]. split.
  { destruct dir as [name subdirs files]. unfold name_size. cbn [dir_bytes dir_name].
    rewrite !length_app, !length_le_bytes. lia. }
  intros p bs P L D. destruct (io w) as [data pos]. cbn [f_data f_pos] in *.
  now apply load_written_other.
Qed.

Lemma pure64_dir_export_region_witness :
  let dir := mkdir ["r"%byte] [] [mkfile ["a"%byte] [x01]] in
  let w := mkworld (mkFILE [x07; x08; x09] 2) plentiful in
  exists w',
    pure64_dir_export dir w = Done tt w'
    /\ f_pos (io w') = 2 + Z.of_nat (length (dir_bytes dir))
    /\ load (f_data (io w')) 0 2 = [x07; x08].
Proof.
  intros dir w.
  destruct (pure64_dir_export_region dir w ltac:(cbn; lia)) as (w' & E & _ & P & _ & _ & K).
  exists w'. split; [exact E|]. split; [exact P|].
  apply (K 0 [x07; x08]); [lia|reflexivity|left; cbn; lia].
Defined.

(** ** The stream callbacks *)

(** X10. The four callbacks work together.  When the position and
    the end of the buffer written there are both positions a [long]
    holds, that is [pos + size <= LONG_MAX]: [fstream_set_pos]
    succeeds, [fstream_write] of [buf] there succeeds and leaves
    [fstream_get_pos] at the position plus the size of [buf]; seeking
    back and reading that many bytes with [fstream_read] succeeds and
    returns [buf].  A position above [LONG_MAX] makes [fstream_set_pos]
    return [PURE64_EINVAL] and leaves the stream as it was. *)
Theorem fstream_write_then_read (buf : list byte) (pos : Z) (file : FILE) :
  0 <= pos ->
  (pos + Z.of_nat (length buf) <= LONG_MAX ->
   exists f1 f2 f3,
     fstream_set_pos pos file = (OK, f1)
     /\ fstream_write buf f1 = (OK, f2)
     /\ fstream_get_pos f2 = (OK, pos + Z.of_nat (length buf))
     /\ fstream_set_pos pos f2 = (OK, f3)
     /\ fstream_read (Z.of_nat (length buf)) f3
        = (OK, buf, mkFILE (f_data f2) (pos + Z.of_nat (length buf))))
  /\ (LONG_MAX < pos -> fstream_set_pos pos file = (PURE64_EINVAL, file)).
Proof.
  intros Hp. split.
  - intros Hl.
    assert (S : forall f, fstream_set_pos pos f = (OK, mkFILE (f_data f) pos)).
    { intros f. unfold fstream_set_pos.
      destruct (Z.gtb_spec pos LONG_MAX); [lia|]. now rewrite fseek_ok. }
    exists (mkFILE (f_data file) pos), (written buf (mkFILE (f_data file) pos)).
    eexists. split; [apply S|]. split.
    { unfold fstream_write. rewrite fwrite_written, Z.eqb_refl. reflexivity. }
    split.
    { unfold fstream_get_pos, ftell. rewrite f_pos_written. cbn [f_pos].
      destruct (Z.eqb_spec (pos + Z.of_nat (length buf)) (-1)); [lia|reflexivity]. }
    split; [apply S|].
    unfold fstream_read, fread. cbn [f_data f_pos].
    set (data := f_data (written buf (mkFILE (f_data file) pos))).
    assert (L : load data pos (Z.of_nat (length buf)) = buf)
      by (apply (load_written buf (mkFILE (f_data file) pos)); exact Hp).
    assert (Len : length (load data pos (Z.of_nat (length buf))) = length buf)
      by now rewrite L.
    rewrite length_load in Len.
    replace (Z.min (Z.of_nat (length buf)) (Z.max 0 (Z.of_nat (length data) - pos)))
      with (Z.of_nat (length buf)) by lia.
    rewrite L, Z.eqb_refl. reflexivity.
  - intros Hl. unfold fstream_set_pos.
    destruct (Z.gtb_spec pos LONG_MAX); [reflexivity|lia].
Qed.

Lemma fstream_write_then_read_witness :
  let file := mkFILE [x01; x02; x03] 0 in
  let buf := [xaa; xbb] in
  exists f1 f2 f3,
    fstream_set_pos 5 file = (OK, f1)
    /\ fstream_write buf f1 = (OK, f2)
    /\ fstream_get_pos f2 = (OK, 5 + 2)
    /\ fstream_set_pos 5 f2 = (OK, f3)
    /\ fstream_read 2 f3 = (OK, buf, mkFILE (f_data f2) (5 + 2)).
Proof.
  intros file buf.
  apply (fstream_write_then_read buf 5 file); [lia|vm_compute; discriminate].
Defined.

(** X11. [fstream_read] never changes the file.  Asked for
    [buf_size] bytes with [left] bytes between the position and the end
    of the file, it returns 0 with exactly [buf_size] bytes when
    [buf_size <= left], and [PURE64_EIO] with the [left] bytes there
    were when the file ends too early; either way the position moves by
    the number of bytes obtained. *)
Theorem fstream_read_bounds (buf_size : Z) (file : FILE) :
  0 <= f_pos file -> 0 <= buf_size ->
  let left := Z.max 0 (Z.of_nat (length (f_data file)) - f_pos file) in
  let '(err, buf, file') := fstream_read buf_size file in
  f_data file' = f_data file
  /\ buf = load (f_data file) (f_pos file) (Z.min buf_size left)
  /\ f_pos file' = f_pos file + Z.min buf_size left
  /\ (buf_size <= left -> err = OK /\ Z.of_nat (length buf) = buf_size)
  /\ (left < buf_size -> err = PURE64_EIO /\ Z.of_nat (length buf) = left).
Proof.
  intros Hp Hn left. unfold fstream_read, fread. fold left.
  set (got := load (f_data file) (f_pos file) (Z.min buf_size left)).
  assert (L : Z.of_nat (length got) = Z.min buf_size left)
    by (unfold got; rewrite length_load; lia).
  destruct (Z.eqb_spec (Z.of_nat (length got)) buf_size) as [E|NE]; cbn [negb f_data f_pos];
    (split; [reflexivity|]; split; [reflexivity|]; split; [lia|]; split; intros H);
    try lia; split; try reflexivity; lia.
Qed.

Lemma fstream_read_bounds_witness :
  let file := mkFILE [x01; x02; x03] 2 in
  fst (fst (fstream_read 1 file)) = OK /\ fst (fst (fstream_read 2 file)) = PURE64_EIO.
Proof.
  intros file.
  pose proof (fstream_read_bounds 1 file ltac:(cbn; lia) ltac:(lia)) as A.
  pose proof (fstream_read_bounds 2 file ltac:(cbn; lia) ltac:(lia)) as B.
  cbv zeta in A, B.
  destruct (fstream_read 1 file) as [[e1 b1] f1].
  destruct (fstream_read 2 file) as [[e2 b2] f2].
  destruct A as (_ & _ & _ & A & _). destruct B as (_ & _ & _ & _ & B).
  split; [apply A|apply B]; cbn; lia.
Defined.

(** ** Zero filling *)

(** X12. [zero_file_data (file, size)] leaves the position [size]
    bytes further, and the [size] bytes from the position it started at
    read back as zero.  With [size = 0] nothing changes at all;
    otherwise the file is what it held before the position (zero-filled
    up to it when it was shorter), then the [size] zero bytes, then what
    it held after them. *)
Theorem zero_file_data_zeroes (file : FILE) (size : Z) :
  0 <= f_pos file -> 0 <= size ->
  let file' := zero_file_data file size in
  f_pos file' = f_pos file + size
  /\ load (f_data file') (f_pos file) size = zeros size
  /\ (size = 0 -> file' = file)
  /\ (0 < size ->
      f_data file'
      = before (f_data file) (f_pos file) ++ zeros size
          ++ skipn (Z.to_nat (f_pos file + size)) (f_data file)).
Proof.
  intros Hp Hs file'. unfold file'. rewrite zero_file_data_written by assumption.
  assert (Lz : Z.of_nat (length (zeros size)) = size) by (rewrite length_zeros; lia).
  split; [rewrite f_pos_written; lia|]. split.
  { pose proof (load_written (zeros size) file Hp) as L. now rewrite Lz in L. }
  split.
  { intros ->. apply written_nil. }
  intros H. rewrite f_data_written, store_nonempty.
  - do 3 f_equal. lia.
  - intros E. rewrite E in Lz. cbn in Lz. lia.
Qed.

Lemma zero_file_data_zeroes_witness :
  let file := mkFILE [x01; x02; x03; x04] 1 in
  let file' := zero_file_data file 2 in
  f_pos file' = 1 + 2 /\ f_data file' = [x01; x00; x00; x04].
Proof.
  intros file file'.
  destruct (zero_file_data_zeroes file 2 ltac:(cbn; lia) ltac:(lia)) as (P & _ & _ & D).
  split; [exact P|]. apply D. lia.
Defined.

(** ** The layout of a header sector *)

Ltac gpt_field F k :=
  etransitivity; [|exact (F k)];
  f_equal; unfold gpt_header_fields; cbn [app firstn concat nth];
  repeat (progress (autorewrite with len; cbn [length]));
  repeat match goal with U : length (disk_uuid _) = _ |- _ => rewrite U end;
  repeat (progress (autorewrite with len; cbn [length]));
  lia.

(** X13. [export_gpt_header] at a position [P] returns
    [EXIT_SUCCESS] (the 512-byte count of its partial-write check is
    always met), leaves the position at [P + 512] and the file at least
    that long, and lays the header out as follows, every integer least
    significant byte first: the signature "EFI PART" at offset 0,
    revision 0x00010000 at 8, header size 92 at 12, a zero header
    checksum at 16, a zero reserved field at 20, current LBA at 24,
    backup LBA at 32, first and last usable LBA at 40 and 48, the 16
    bytes of the disk UUID at 56, the LBA of the partition entries at
    72, their number at 80, the entry size 128 at 84, a zero array
    checksum at 88, and 420 zero bytes from offset 92 on. *)
Theorem export_gpt_header_layout (file : FILE) (header : gpt_header) :
  0 <= f_pos file ->
  Z.of_nat (length (disk_uuid header)) = 16 ->
  exists file',
    export_gpt_header file header = (EXIT_SUCCESS, file')
    /\ f_pos file' = f_pos file + 512
    /\ Z.of_nat (length (f_data file'))
       = Z.max (Z.of_nat (length (f_data file))) (f_pos file + 512)
    /\ let field := fun offset size => load (f_data file') (f_pos file + offset) size in
       field 0 8 = ["E"; "F"; "I"; " "; "P"; "A"; "R"; "T"]%byte
       /\ le_value (field 8 4) = 0x00010000
       /\ le_value (field 12 4) = 92
       /\ le_value (field 16 4) = 0
       /\ le_value (field 20 4) = 0
       /\ le_value (field 24 8) = u64 (current_lba header)
       /\ le_value (field 32 8) = u64 (backup_lba header)
       /\ le_value (field 40 8) = u64 (first_usable_lba header)
       /\ le_value (field 48 8) = u64 (last_usable_lba header)
       /\ field 56 16 = disk_uuid header
       /\ le_value (field 72 8) = u64 (partition_headers_lba header)
       /\ le_value (field 80 4) = u32 (partition_header_count header)
       /\ le_value (field 84 4) = 128
       /\ le_value (field 88 4) = 0
       /\ field 92 420 = zeros 420.
Proof.
  intros Hp Hu. unfold export_gpt_header.
  rewrite counted_fwrite_fold by exact Hp.
  assert (L512 : Z.of_nat (length (concat (gpt_header_fields header))) = 512).
  { rewrite gpt_header_fields_concat. now apply length_gpt_header_sector. }
  rewrite L512. cbn [Z.add Z.eqb Pos.eqb negb].
  eexists. split; [reflexivity|].
  split; [rewrite f_pos_written; lia|].
  assert (N : concat (gpt_header_fields header) <> []).
  { intros E. rewrite E in L512. cbn in L512. lia. }
  split; [rewrite length_written by assumption; lia|].
  rewrite f_data_written, store_nonempty by exact N.
  set (pre := before (f_data file) (f_pos file)).
  set (post := skipn _ (f_data file)).
  assert (Lp : Z.of_nat (length pre) = f_pos file)
    by (unfold pre; rewrite length_before; lia).
  cbv zeta. rewrite <- Lp.
  pose proof (fun k => load_concat_nth (gpt_header_fields header) k pre post) as F.
  assert (U : length (disk_uuid header) = 16%nat) by lia.
  set (D := pre ++ concat (gpt_header_fields header) ++ post).
  assert (E0 : load D (Z.of_nat (length pre) + 0) 8 = ["E"; "F"; "I"; " "; "P"; "A"; "R"; "T"]%byte)
    by gpt_field F 0%nat.
  assert (E8 : load D (Z.of_nat (length pre) + 8) 4 = [x00; x00; x01; x00])
    by gpt_field F 1%nat.
  assert (E12 : load D (Z.of_nat (length pre) + 12) 4 = [x5c; x00; x00; x00])
    by gpt_field F 2%nat.
  assert (E16 : load D (Z.of_nat (length pre) + 16) 4 = [x00; x00; x00; x00])
    by gpt_field F 3%nat.
  assert (E20 : load D (Z.of_nat (length pre) + 20) 4 = [x00; x00; x00; x00])
    by gpt_field F 4%nat.
  assert (E24 : load D (Z.of_nat (length pre) + 24) 8 = le_bytes 8 (current_lba header))
    by gpt_field F 5%nat.
  assert (E32 : load D (Z.of_nat (length pre) + 32) 8 = le_bytes 8 (backup_lba header))
    by gpt_field F 6%nat.
  assert (E40 : load D (Z.of_nat (length pre) + 40) 8 = le_bytes 8 (first_usable_lba header))
    by gpt_field F 7%nat.
  assert (E48 : load D (Z.of_nat (length pre) + 48) 8 = le_bytes 8 (last_usable_lba header))
    by gpt_field F 8%nat.
  assert (E56 : load D (Z.of_nat (length pre) + 56) 16 = disk_uuid header)
    by gpt_field F 9%nat.
  assert (E72 : load D (Z.of_nat (length pre) + 72) 8
                = le_bytes 8 (partition_headers_lba header))
    by gpt_field F 10%nat.
  assert (E80 : load D (Z.of_nat (length pre) + 80) 4
                = le_bytes 4 (partition_header_count header))
    by gpt_field F 11%nat.
  assert (E84 : load D (Z.of_nat (length pre) + 84) 4 = [x80; x00; x00; x00])
    by gpt_field F 12%nat.
  assert (E88 : load D (Z.of_nat (length pre) + 88) 4 = [x00; x00; x00; x00])
    by gpt_field F 13%nat.
  assert (E92 : load D (Z.of_nat (length pre) + 92) 420 = zeros 420).
  { unfold D. rewrite gpt_header_fields_concat. unfold gpt_header_sector.
    pose proof (length_gpt_header_core header 0 0 Hu) as Lc.
    apply (load_at _ (pre ++ gpt_header_core header 0 0) (zeros 420) post);
      [list_eq|rewrite length_app; lia|rewrite length_zeros; lia]. }
  rewrite E0, E8, E12, E16, E20, E24, E32, E40, E48, E56, E72, E80, E84, E88, E92.
  rewrite !le_value_le_bytes.
  repeat split.
Qed.

Lemma export_gpt_header_layout_witness :
  let header := mk_gpt_header 1 2047 34 2014 (zeros 16) 2 128 in
  exists file',
    export_gpt_header (mkFILE (zeros 512) 512) header = (EXIT_SUCCESS, file')
    /\ f_pos file' = 1024
    /\ le_value (load (f_data file') (512 + 32) 8) = 2047.
Proof.
  intros header.
  destruct (export_gpt_header_layout (mkFILE (zeros 512) 512) header
              ltac:(cbn; lia) ltac:(reflexivity))
    as (file' & E & P & _ & _ & _ & _ & _ & _ & _ & B & _).
  exists file'. split; [exact E|]. split; [exact P|exact B].
Defined.

(** ** The checksum pass on an arbitrary file *)

(** X14. On a file that holds 92 bytes at [header_location],
    [calculate_header_checksum] returns [EXIT_SUCCESS], keeps the length
    of the file and changes nothing but the four bytes at offset 16 of
    the header, where it stores the CRC-32 of the 92 bytes as it found
    them, old checksum field included.  So the header it leaves
    validates when that field was zero before the call. *)
Theorem calculate_header_checksum_effect (file : FILE) (header_location : Z) :
  0 <= header_location ->
  header_location + 92 <= Z.of_nat (length (f_data file)) ->
  exists image,
    calculate_header_checksum file header_location
    = (EXIT_SUCCESS, mkFILE image (header_location + 20))
    /\ length image = length (f_data file)
    /\ stored_header_checksum image header_location
       = crc32 (header_at (f_data file) header_location)
    /\ firstn (Z.to_nat (header_location + 16)) image
       = firstn (Z.to_nat (header_location + 16)) (f_data file)
    /\ skipn (Z.to_nat (header_location + 20)) image
       = skipn (Z.to_nat (header_location + 20)) (f_data file)
    /\ (stored_header_checksum (f_data file) header_location = 0 ->
        header_validates image header_location).
Proof.
  intros Hp Hl. destruct file as [data pos]. cbn [f_data] in *.
  destruct (split_at data header_location 92 Hp ltac:(lia) Hl) as (D & Lpre & Lhdr).
  set (pre := firstn (Z.to_nat header_location) data) in *.
  set (hdr := load data header_location 92) in *.
  set (post := skipn (Z.to_nat (header_location + 92)) data) in *.
  set (a16 := firstn 16 hdr). set (c4 := firstn 4 (skipn 16 hdr)).
  set (r72 := skipn 20 hdr).
  assert (Dh : hdr = a16 ++ c4 ++ r72).
  { unfold a16, c4, r72. rewrite <- (firstn_skipn 16 hdr) at 1. f_equal.
    rewrite <- (firstn_skipn 4 (skipn 16 hdr)) at 1. f_equal.
    now rewrite skipn_skipn. }
  assert (La : Z.of_nat (length a16) = 16) by (unfold a16; rewrite length_firstn; lia).
  assert (Lc : Z.of_nat (length c4) = 4)
    by (unfold c4; rewrite length_firstn, length_skipn; lia).
  assert (Lr : Z.of_nat (length r72) = 72) by (unfold r72; rewrite length_skipn; lia).
  assert (D' : data = pre ++ a16 ++ c4 ++ r72 ++ post).
  { rewrite D at 1. rewrite Dh. list_eq. }
  set (crc := crc32 (a16 ++ c4 ++ r72)).
  assert (Rc : 0 <= crc < 2 ^ 32) by apply crc32_range.
  exists (pre ++ a16 ++ le_bytes 4 crc ++ r72 ++ post).
  split.
  { replace (mkFILE data pos) with (mkFILE (pre ++ a16 ++ c4 ++ r72 ++ post) pos)
      by (now rewrite <- D').
    apply (calculate_header_checksum_ok pre a16 c4 r72 post pos header_location); lia. }
  assert (S : stored_header_checksum (pre ++ a16 ++ le_bytes 4 crc ++ r72 ++ post)
                header_location = crc).
  { unfold stored_header_checksum.
    rewrite (load_at _ (pre ++ a16) (le_bytes 4 crc) (r72 ++ post));
      [now apply le_value_le_bytes_4|list_eq|rewrite length_app; lia
      |now rewrite length_le_bytes]. }
  assert (H : header_at (pre ++ a16 ++ le_bytes 4 crc ++ r72 ++ post) header_location
              = a16 ++ le_bytes 4 crc ++ r72).
  { unfold header_at, GPT_HEADER_SIZE.
    apply (load_at _ pre (a16 ++ le_bytes 4 crc ++ r72) post);
      [list_eq|lia|rewrite !length_app, length_le_bytes; lia]. }
  split.
  { replace (length data) with (length (pre ++ a16 ++ c4 ++ r72 ++ post))
      by (now rewrite <- D').
    rewrite !length_app, length_le_bytes. lia. }
  split.
  { rewrite S. unfold crc, header_at, GPT_HEADER_SIZE. fold hdr. now rewrite Dh. }
  split.
  { replace (firstn (Z.to_nat (header_location + 16)) data)
      with (firstn (Z.to_nat (header_location + 16)) (pre ++ a16 ++ c4 ++ r72 ++ post))
      by (now rewrite <- D').
    replace (pre ++ a16 ++ le_bytes 4 crc ++ r72 ++ post)
      with ((pre ++ a16) ++ le_bytes 4 crc ++ r72 ++ post) by list_eq.
    replace (pre ++ a16 ++ c4 ++ r72 ++ post)
      with ((pre ++ a16) ++ c4 ++ r72 ++ post) by list_eq.
    rewrite !firstn_exact by (rewrite length_app; lia). reflexivity. }
  split.
  { replace (skipn (Z.to_nat (header_location + 20)) data)
      with (skipn (Z.to_nat (header_location + 20)) (pre ++ a16 ++ c4 ++ r72 ++ post))
      by (now rewrite <- D').
    replace (pre ++ a16 ++ le_bytes 4 crc ++ r72 ++ post)
      with ((pre ++ a16 ++ le_bytes 4 crc) ++ r72 ++ post) by list_eq.
    replace (pre ++ a16 ++ c4 ++ r72 ++ post)
      with ((pre ++ a16 ++ c4) ++ r72 ++ post) by list_eq.
    rewrite !skipn_exact by (rewrite !length_app, ?length_le_bytes; lia). reflexivity. }
  intros Z0. unfold header_validates. rewrite S, H.
  assert (C0 : c4 = zeros 4).
  { unfold stored_header_checksum in Z0.
    rewrite (load_at data (pre ++ a16) c4 (r72 ++ post)) in Z0;
      [|rewrite <- app_assoc; exact D'|rewrite length_app; lia|lia].
    apply le_value_zero in Z0. now rewrite Lc in Z0. }
  unfold with_zero_checksum, crc.
  rewrite (firstn_exact 16 a16) by lia.
  replace (a16 ++ le_bytes 4 (crc32 (a16 ++ c4 ++ r72)) ++ r72)
    with ((a16 ++ le_bytes 4 (crc32 (a16 ++ c4 ++ r72))) ++ r72) by list_eq.
  rewrite skipn_exact by (rewrite length_app, length_le_bytes; lia).
  now rewrite C0.
Qed.

Lemma calculate_header_checksum_effect_witness :
  let file := mkFILE (zeros 100) 3 in
  exists image,
    calculate_header_checksum file 4 = (EXIT_SUCCESS, mkFILE image 24)
    /\ length image = 100%nat
    /\ header_validates image 4.
Proof.
  intros file.
  destruct (calculate_header_checksum_effect file 4 ltac:(lia)
              ltac:(vm_compute; discriminate))
    as (image & E & L & _ & _ & _ & V).
  exists image. split; [exact E|]. split; [exact L|].
  apply V. reflexivity.
Defined.

(** X15. [calculate_header_checksum] returns [EXIT_FAILURE] and
    leaves the contents of the file alone when [header_location] is
    negative or the file ends before the 92 bytes of the header. *)
Theorem calculate_header_checksum_bounds (file : FILE) (header_location : Z) :
  header_location < 0
  \/ Z.of_nat (length (f_data file)) < header_location + 92 ->
  fst (calculate_header_checksum file header_location) = EXIT_FAILURE
  /\ f_data (snd (calculate_header_checksum file header_location)) = f_data file.
Proof.
  unfold calculate_header_checksum, GPT_HEADER_SIZE. intros Bad.
  destruct (Z.ltb_spec header_location 0) as [Neg|Pos].
  - unfold fseek. destruct (Z.ltb_spec header_location 0); [|lia].
    cbn [Z.eqb negb fst snd]. split; reflexivity.
  - assert (Short : Z.of_nat (length (f_data file)) < header_location + 92) by lia.
    rewrite fseek_ok by exact Pos. cbn [Z.eqb negb].
    unfold fread. cbn [f_data f_pos].
    set (got := load _ _ _).
    assert (L : Z.of_nat (length got) <> 92)
      by (unfold got; rewrite length_load; lia).
    destruct (Z.eqb_spec (Z.of_nat (length got)) 92); [contradiction|].
    cbn [negb fst snd f_data]. split; reflexivity.
Qed.

Lemma calculate_header_checksum_bounds_witness :
  let file := mkFILE (zeros 600) 0 in
  fst (calculate_header_checksum file 512) = EXIT_FAILURE
  /\ f_data (snd (calculate_header_checksum file 512)) = zeros 600.
Proof.
  intros file. apply (calculate_header_checksum_bounds file 512).
  right. vm_compute. reflexivity.
Defined.

(** X16. On a file shorter than 1024 + 128 * 128 bytes, which cannot
    hold the primary partition array, [calculate_partition_headers_checksum]
    returns [EXIT_FAILURE] and leaves the contents of the file
    alone. *)
Theorem calculate_partition_headers_checksum_short (file : FILE) :
  Z.of_nat (length (f_data file)) < 1024 + 128 * 128 ->
  fst (calculate_partition_headers_checksum file) = EXIT_FAILURE
  /\ f_data (snd (calculate_partition_headers_checksum file)) = f_data file.
Proof.
  intros Short. unfold calculate_partition_headers_checksum,
    GPT_PARTITION_HEADER_SIZE, GPT_PARTITION_HEADER_COUNT.
  rewrite fseek_ok by lia. cbn [Z.eqb negb].
  destruct (fread (128 * 128) (mkFILE (f_data file) 1024)) as [buf f1] eqn:R.
  unfold fread in R. cbn [f_data f_pos] in R. injection R as <- <-.
  set (got := load _ _ _).
  assert (L : Z.of_nat (length got) <> 128 * 128)
    by (unfold got; rewrite length_load; lia).
  destruct (Z.eqb_spec (Z.of_nat (length got)) (128 * 128)); [contradiction|].
  cbn [negb fst snd f_data]. split; reflexivity.
Qed.

Lemma calculate_partition_headers_checksum_short_witness :
  let file := mkFILE (zeros 1024) 0 in
  fst (calculate_partition_headers_checksum file) = EXIT_FAILURE
  /\ f_data (snd (calculate_partition_headers_checksum file)) = zeros 1024.
Proof.
  intros file. apply (calculate_partition_headers_checksum_short file).
  vm_compute. reflexivity.
Defined.

(** X17. The array pass is not all-or-nothing.  On a file that holds
    the primary array but not the backup array where the backup LBA of
    the primary header puts it (the offset is negative, or the file ends
    before the 128 * 128 bytes there),
    [calculate_partition_headers_checksum] returns [EXIT_FAILURE] after
    it has stored the checksum of the primary array at offset 88 of the
    primary header; the length of the file and every byte outside these
    four are unchanged. *)
Theorem calculate_partition_headers_checksum_partial (file : FILE) :
  1024 + 128 * 128 <= Z.of_nat (length (f_data file)) ->
  (let offset := backup_partition_headers_offset (stored_backup_lba (f_data file)) in
   offset < 0 \/ Z.of_nat (length (f_data file)) < offset + 128 * 128) ->
  exists image pos,
    calculate_partition_headers_checksum file = (EXIT_FAILURE, mkFILE image pos)
    /\ length image = length (f_data file)
    /\ stored_array_checksum image 512 = crc32 (load (f_data file) 1024 (128 * 128))
    /\ firstn 600 image = firstn 600 (f_data file)
    /\ skipn 604 image = skipn 604 (f_data file).
Proof.
  destruct file as [data pos0]. cbn [f_data]. change (128 * 128) with 16384.
  intros Len Bad. cbv zeta in Bad.
  set (offset := backup_partition_headers_offset (stored_backup_lba data)) in *.
  destruct (split_at data 600 4 ltac:(lia) ltac:(lia) ltac:(lia)) as (D & Lpre & Lold).
  set (pre := firstn (Z.to_nat 600) data) in *.
  set (old := load data 600 4) in *.
  set (post := skipn (Z.to_nat (600 + 4)) data) in *.
  set (crc := crc32 (load data 1024 16384)).
  assert (Rc : 0 <= crc < 2 ^ 32) by apply crc32_range.
  set (image := pre ++ le_bytes 4 crc ++ post).
  assert (Li : length image = length data).
  { unfold image. replace (length data) with (length (pre ++ old ++ post))
      by (now rewrite <- D).
    rewrite !length_app, length_le_bytes. lia. }
  assert (B : load image 544 8 = load data 544 8).
  { unfold image. rewrite load_app_l by lia.
    unfold pre. apply load_firstn; lia. }
  assert (Run : exists pos,
             calculate_partition_headers_checksum (mkFILE data pos0)
             = (EXIT_FAILURE, mkFILE image pos)).
  { unfold calculate_partition_headers_checksum,
      GPT_PARTITION_HEADER_SIZE, GPT_PARTITION_HEADER_COUNT.
    change (128 * 128) with 16384. change (512 + 88) with 600. change (512 + 32) with 544.
    rewrite fseek_ok by lia. cbn [Z.eqb negb f_data].
    destruct (fread_enough data 1024 16384 ltac:(lia) ltac:(lia) ltac:(lia)) as [-> L1].
    rewrite L1. cbn [Z.eqb Pos.eqb negb].
    rewrite fseek_ok by lia. cbn [Z.eqb negb f_data].
    rewrite fwrite_written, length_le_bytes.
    cbn [Z.of_nat Pos.of_succ_nat Pos.succ Z.eqb Pos.eqb negb].
    rewrite (written_at data pre old post (le_bytes 4 (crc32 (load data 1024 16384))) 600 D)
      by (rewrite ?length_le_bytes; lia).
    fold crc. fold image.
    rewrite fseek_ok by lia. cbn [Z.eqb negb f_data].
    destruct (fread_enough image 544 8 ltac:(lia) ltac:(lia) ltac:(lia)) as [-> L2].
    rewrite L2. cbn [Z.eqb Pos.eqb negb]. rewrite B.
    change (backup_partition_headers_offset (le_value (load data 544 8))) with offset.
    destruct (Z.ltb_spec offset 0) as [Neg|Pos].
    - unfold fseek at 1. destruct (Z.ltb_spec offset 0); [|lia].
      cbn [Z.eqb negb]. eexists. reflexivity.
    - rewrite fseek_ok by exact Pos. cbn [Z.eqb negb f_data].
      destruct (fread 16384 (mkFILE image offset)) as [buf f1] eqn:R.
      unfold fread in R. cbn [f_data f_pos] in R. injection R as <- <-.
      set (got := load _ _ _).
      assert (L : Z.of_nat (length got) <> 16384)
        by (unfold got; rewrite length_load; lia).
      destruct (Z.eqb_spec (Z.of_nat (length got)) 16384); [contradiction|].
      cbn [negb]. eexists. reflexivity. }
  destruct Run as (pos & Run). exists image, pos.
  split; [exact Run|]. split; [exact Li|]. split.
  { unfold stored_array_checksum. change (512 + 88) with 600.
    rewrite (load_at image pre (le_bytes 4 crc) post);
      [now apply le_value_le_bytes_4|reflexivity|lia|now rewrite length_le_bytes]. }
  split.
  { unfold image. rewrite firstn_exact by lia.
    unfold pre. reflexivity. }
  unfold image.
  replace (pre ++ le_bytes 4 crc ++ post) with ((pre ++ le_bytes 4 crc) ++ post) by list_eq.
  rewrite skipn_exact by (rewrite length_app, length_le_bytes; lia).
  unfold post. reflexivity.
Qed.

Lemma calculate_partition_headers_checksum_partial_witness :
  let file := mkFILE (zeros 20000) 0 in
  exists image pos,
    calculate_partition_headers_checksum file = (EXIT_FAILURE, mkFILE image pos)
    /\ stored_array_checksum image 512 = crc32 (zeros 16384).
Proof.
  intros file.
  destruct (calculate_partition_headers_checksum_partial file) as (image & pos & R & L & C & _).
  - vm_compute. discriminate.
  - left. vm_compute. reflexivity.
  - exists image, pos. split; [exact R|exact C].
Defined.

Lemma skipn_load (data : list byte) (p n : Z) :
  0 <= p -> 0 <= n -> p + n <= Z.of_nat (length data) ->
  skipn (Z.to_nat p) data = load data p n ++ skipn (Z.to_nat (p + n)) data
  /\ Z.of_nat (length (load data p n)) = n.
Proof.
  intros Hp Hn Hl. split.
  - unfold load. rewrite Z2Nat.inj_add by lia.
    rewrite <- (firstn_skipn (Z.to_nat n) (skipn (Z.to_nat p) data)) at 1.
    f_equal. rewrite skipn_skipn. f_equal. lia.
  - rewrite length_load. lia.
Qed.

(** The array pass on any file that holds a primary header with backup
    LBA [B], the primary array and, from [B * 512 - 128 * 128] on, the
    backup array and the first 92 bytes of the backup header. *)
Lemma calculate_partition_headers_checksum_reads (disk : FILE) (B : Z) :
  stored_backup_lba (f_data disk) = B ->
  66 <= B -> B * 512 + 88 <= LONG_MAX ->
  B * 512 + 92 <= Z.of_nat (length (f_data disk)) ->
  exists disk',
    calculate_partition_headers_checksum disk = (EXIT_SUCCESS, disk')
    /\ stored_array_checksum (f_data disk') 512
       = crc32 (load (f_data disk) 1024 (128 * 128))
    /\ stored_array_checksum (f_data disk') (B * 512)
       = crc32 (load (f_data disk) (B * 512 - 128 * 128) (128 * 128)).
Proof.
  destruct disk as [data pos0]. cbn [f_data]. change (128 * 128) with 16384.
  intros SB B66 BL Len.
  assert (LM : LONG_MAX = 2 ^ 63 - 1) by reflexivity.
  unfold stored_backup_lba in SB. change (512 + 32) with 544 in SB.
  destruct (skipn_load data 0 512) as [D0 L0]; try lia.
  destruct (skipn_load data 512 32) as [D1 L1]; try lia.
  destruct (skipn_load data 544 8) as [D2 L2]; try lia.
  destruct (skipn_load data 552 48) as [D3 L3]; try lia.
  destruct (skipn_load data 600 4) as [D4 L4]; try lia.
  destruct (skipn_load data 604 420) as [D5 L5]; try lia.
  destruct (skipn_load data 1024 16384) as [D6 L6]; try lia.
  destruct (skipn_load data 17408 (B * 512 - 16384 - 17408)) as [D7 L7]; try lia.
  destruct (skipn_load data (B * 512 - 16384) 16384) as [D8 L8]; try lia.
  destruct (skipn_load data (B * 512) 88) as [D9 L9]; try lia.
  destruct (skipn_load data (B * 512 + 88) 4) as [D10 L10]; try lia.
  change (skipn (Z.to_nat 0) data) with data in D0.
  change (0 + 512) with 512 in D0. change (512 + 32) with 544 in D1.
  change (544 + 8) with 552 in D2. change (552 + 48) with 600 in D3.
  change (600 + 4) with 604 in D4. change (604 + 420) with 1024 in D5.
  change (1024 + 16384) with 17408 in D6.
  replace (17408 + (B * 512 - 16384 - 17408)) with (B * 512 - 16384) in D7 by lia.
  replace (B * 512 - 16384 + 16384) with (B * 512) in D8 by lia.
  replace (B * 512 + 88 + 4) with (B * 512 + 92) in D10 by lia.
  set (mbr := load data 0 512) in *.
  set (a32 := load data 512 32) in *.
  set (b8 := load data 544 8) in *.
  set (r48 := load data 552 48) in *.
  set (p4 := load data 600 4) in *.
  set (pad := load data 604 420) in *.
  set (PA1 := load data 1024 16384) in *.
  set (gap := load data 17408 (B * 512 - 16384 - 17408)) in *.
  set (PA2 := load data (B * 512 - 16384) 16384) in *.
  set (k88 := load data (B * 512) 88) in *.
  set (q4 := load data (B * 512 + 88) 4) in *.
  set (tail := skipn (Z.to_nat (B * 512 + 92)) data) in *.
  assert (E8 : b8 = le_bytes 8 B).
  { rewrite <- SB. replace 8%nat with (length b8) by lia.
    symmetry. apply le_bytes_le_value. }
  assert (BR : 0 <= B < 2 ^ 64) by lia.
  assert (D : data = mbr ++ (a32 ++ le_bytes 8 B ++ r48) ++ p4 ++ pad
                       ++ PA1 ++ gap ++ PA2 ++ k88 ++ q4 ++ tail).
  { rewrite D0, D1, D2, D3, D4, D5, D6, D7, D8, D9, D10, E8. list_eq. }
  eexists. split.
  { rewrite D at 1.
    apply (calculate_partition_headers_checksum_ok mbr a32 r48 p4 pad PA1 gap PA2 k88 q4 tail
             B pos0); lia. }
  cbn [f_data]. unfold stored_array_checksum. change (512 + 88) with 600.
  assert (R1 : 0 <= crc32 PA1 < 2 ^ 32) by apply crc32_range.
  assert (R2 : 0 <= crc32 PA2 < 2 ^ 32) by apply crc32_range.
  split.
  - rewrite (load_at _ (mbr ++ (a32 ++ le_bytes 8 B ++ r48)) (le_bytes 4 (crc32 PA1))
               (pad ++ PA1 ++ gap ++ PA2 ++ k88 ++ le_bytes 4 (crc32 PA2) ++ tail));
      [now apply le_value_le_bytes_4|list_eq|len|now rewrite length_le_bytes].
  - rewrite (load_at _
               (mbr ++ (a32 ++ le_bytes 8 B ++ r48) ++ le_bytes 4 (crc32 PA1) ++ pad
                  ++ PA1 ++ gap ++ PA2 ++ k88)
               (le_bytes 4 (crc32 PA2)) tail);
      [now apply le_value_le_bytes_4|list_eq|len|now rewrite length_le_bytes].
Qed.

(** ** The image [init] leaves *)

Lemma gpt_header_sector_fields_concat (header : gpt_header) (c p : Z) :
  concat (gpt_header_sector_fields header c p) = gpt_header_sector header c p.
Proof.
  unfold gpt_header_sector_fields, gpt_header_sector, gpt_header_core,
    hdr_sig, hdr_lba1, hdr_rest.
  cbn [concat]. rewrite app_nil_r, <- ?app_assoc. reflexivity.
Qed.

Ltac sector_field F k :=
  etransitivity; [|exact (F k)];
  f_equal; unfold gpt_header_sector_fields; cbn [app firstn concat nth];
  repeat (progress (autorewrite with len; cbn [length]));
  repeat match goal with U : length (disk_uuid _) = _ |- _ => rewrite U end;
  repeat (progress (autorewrite with len; cbn [length]));
  lia.

(** The fields of a header sector found at [location] of an image. *)
Lemma header_fields_at (image pre post : list byte) (header : gpt_header) (c p location : Z) :
  image = pre ++ gpt_header_sector header c p ++ post ->
  location = Z.of_nat (length pre) ->
  Z.of_nat (length (disk_uuid header)) = 16 ->
  header_field image location 24 8 = u64 (current_lba header)
  /\ header_field image location 32 8 = u64 (backup_lba header)
  /\ header_field image location 40 8 = u64 (first_usable_lba header)
  /\ header_field image location 48 8 = u64 (last_usable_lba header)
  /\ load image (location + 56) 16 = disk_uuid header
  /\ header_field image location 72 8 = u64 (partition_headers_lba header)
  /\ header_field image location 80 4 = u32 (partition_header_count header).
Proof.
  intros -> -> Hu. unfold header_field.
  rewrite <- gpt_header_sector_fields_concat.
  pose proof (fun k => load_concat_nth (gpt_header_sector_fields header c p) k pre post) as F.
  assert (U : length (disk_uuid header) = 16%nat) by lia.
  set (D := pre ++ concat (gpt_header_sector_fields header c p) ++ post) in *.
  assert (E24 : load D (Z.of_nat (length pre) + 24) 8 = le_bytes 8 (current_lba header))
    by sector_field F 5%nat.
  assert (E32 : load D (Z.of_nat (length pre) + 32) 8 = le_bytes 8 (backup_lba header))
    by sector_field F 6%nat.
  assert (E40 : load D (Z.of_nat (length pre) + 40) 8 = le_bytes 8 (first_usable_lba header))
    by sector_field F 7%nat.
  assert (E48 : load D (Z.of_nat (length pre) + 48) 8 = le_bytes 8 (last_usable_lba header))
    by sector_field F 8%nat.
  assert (E56 : load D (Z.of_nat (length pre) + 56) 16 = disk_uuid header)
    by sector_field F 9%nat.
  assert (E72 : load D (Z.of_nat (length pre) + 72) 8
                = le_bytes 8 (partition_headers_lba header))
    by sector_field F 10%nat.
  assert (E80 : load D (Z.of_nat (length pre) + 80) 4
                = le_bytes 4 (partition_header_count header))
    by sector_field F 11%nat.
  rewrite E24, E32, E40, E48, E56, E72, E80, !le_value_le_bytes.
  repeat split.
Qed.

Section InitImage.

Variable mbr_data : list byte.
Variable pure64_uuid_parse : list byte -> status * list byte.
Variable disk_uuid_str : option (list byte).
Variable disk_size : Z.
Variable uuid : list byte.

Hypothesis mbr_is_a_sector : Z.of_nat (length mbr_data) = 512.
Hypothesis uuid_parsed :
  pure64_uuid_parse
    (match disk_uuid_str with
     | None => PURE64_DEFAULT_DISK_UUID
     | Some str => str
     end) = (OK, uuid).
Hypothesis uuid_is_16_bytes : Z.of_nat (length uuid) = 16.
Hypothesis size_accepted : 98488 <= disk_size.
Hypothesis size_long : disk_size + 511 <= LONG_MAX.

(** X18. For a disk size that passes the size check, [init] leaves an
    image whose length is the disk size padded to the next multiple of
    512 (less than 512 bytes more).  Its first sector is [mbr_data]; the
    backup header, whose LBA the primary header stores, is its last
    sector; the primary partition array at offset 1024 is zero, and so
    is everything from the end of that array to the start of the backup
    array. *)
Theorem init_image_shape :
  exists image : FILE,
    pure64_init_disk mbr_data pure64_uuid_parse disk_uuid_str disk_size
    = (EXIT_SUCCESS, Some image)
    /\ Z.of_nat (length (f_data image)) = round_up_512 disk_size
    /\ disk_size <= round_up_512 disk_size < disk_size + 512
    /\ load (f_data image) 0 512 = mbr_data
    /\ stored_backup_lba (f_data image) * 512 + 512 = round_up_512 disk_size
    /\ load (f_data image) 1024 (128 * 128) = zeros (128 * 128)
    /\ load (f_data image) (1024 + 128 * 128)
         (round_up_512 disk_size - 512 - 128 * 128 - (1024 + 128 * 128))
       = zeros (round_up_512 disk_size - 512 - 128 * 128 - (1024 + 128 * 128)).
Proof.
  destruct (backup_lba_of_range disk_size size_accepted size_long) as [B1 B2].
  set (B := backup_lba_of disk_size) in *.
  assert (BR : 66 <= B < 2 ^ 64) by (unfold LONG_MAX in B2; lia).
  assert (RU : round_up_512 disk_size = B * 512 + 512)
    by (unfold B, backup_lba_of, round_up_512; lia).
  assert (RB : disk_size <= round_up_512 disk_size < disk_size + 512)
    by (unfold round_up_512; lia).
  destruct (pure64_init_disk_ok mbr_data pure64_uuid_parse disk_uuid_str disk_size uuid
              mbr_is_a_sector uuid_parsed uuid_is_16_bytes size_accepted size_long)
    as (_ & _ & _ & R).
  fold B in R. eexists. split; [exact R|]. cbn [f_data].
  set (c1 := crc32 _). set (c2 := crc32 _).
  rewrite RU. rewrite RU in RB. clear R RU.
  pose proof (length_gpt_header_sector (primary_header B uuid) c1 array_crc uuid_is_16_bytes)
    as S1.
  rewrite (length_gpt_disk mbr_data uuid B mbr_is_a_sector uuid_is_16_bytes)
    by (unfold LONG_MAX in *; lia).
  rewrite (stored_backup_lba_eq mbr_data uuid B c1 array_crc c2 array_crc
             mbr_is_a_sector uuid_is_16_bytes BR).
  change (128 * 128) with 16384.
  rewrite (load_primary_array mbr_data uuid B c1 array_crc c2 array_crc
             mbr_is_a_sector uuid_is_16_bytes).
  split; [reflexivity|]. split; [exact RB|].
  split.
  { apply (load_at _ [] mbr_data
             (gpt_header_sector (primary_header B uuid) c1 array_crc
                ++ zeros 16384 ++ zeros (B * 512 - 16384 - 17408) ++ zeros 16384
                ++ gpt_header_sector (backup_header B uuid) c2 array_crc));
      [reflexivity|reflexivity|lia]. }
  split; [reflexivity|]. split; [reflexivity|].
  replace (B * 512 + 512 - 512 - 16384 - (1024 + 16384)) with (B * 512 - 16384 - 17408) by lia.
  apply (load_at _ (mbr_data ++ gpt_header_sector (primary_header B uuid) c1 array_crc
                      ++ zeros 16384)
           (zeros (B * 512 - 16384 - 17408))
           (zeros 16384 ++ gpt_header_sector (backup_header B uuid) c2 array_crc));
    [unfold gpt_disk; list_eq|len|len].
Qed.

(** X19. On the image [init] leaves, the two headers mirror each
    other: the primary header has current LBA 1 and backup LBA [B], the
    backup header at sector [B] has current LBA [B] and backup LBA 1;
    both carry the same first and last usable LBA, 128 partition
    entries and the 16 bytes of the parsed UUID.  The first usable
    sector starts where the primary array ends, and the sector after
    the last usable one starts where the backup array begins. *)
Theorem init_headers_mirror :
  exists image : FILE,
    pure64_init_disk mbr_data pure64_uuid_parse disk_uuid_str disk_size
    = (EXIT_SUCCESS, Some image)
    /\ let B := stored_backup_lba (f_data image) in
       let primary := header_field (f_data image) 512 in
       let backup := header_field (f_data image) (B * 512) in
       primary 24 8 = 1 /\ primary 32 8 = B
       /\ backup 24 8 = B /\ backup 32 8 = 1
       /\ primary 40 8 = backup 40 8
       /\ primary 48 8 = backup 48 8
       /\ primary 80 4 = 128 /\ backup 80 4 = 128
       /\ load (f_data image) (512 + 56) 16 = uuid
       /\ load (f_data image) (B * 512 + 56) 16 = uuid
       /\ primary 40 8 * 512 = 1024 + 128 * 128
       /\ (primary 48 8 + 1) * 512 = backup_partition_headers_offset B.
Proof.
  destruct (backup_lba_of_range disk_size size_accepted size_long) as [B1 B2].
  set (B := backup_lba_of disk_size) in *.
  assert (BR : 66 <= B < 2 ^ 64) by (unfold LONG_MAX in B2; lia).
  assert (Off : backup_partition_headers_offset B = B * 512 - 16384)
    by (apply backup_partition_headers_offset_eq; lia).
  destruct (pure64_init_disk_ok mbr_data pure64_uuid_parse disk_uuid_str disk_size uuid
              mbr_is_a_sector uuid_parsed uuid_is_16_bytes size_accepted size_long)
    as (_ & _ & _ & R).
  fold B in R. eexists. split; [exact R|]. cbn [f_data]. clear R.
  set (c1 := crc32 _). set (c2 := crc32 _).
  rewrite (stored_backup_lba_eq mbr_data uuid B c1 array_crc c2 array_crc
             mbr_is_a_sector uuid_is_16_bytes BR).
  cbv zeta. rewrite Off. clear Off B1 B2.
  pose proof (length_gpt_header_sector (primary_header B uuid) c1 array_crc uuid_is_16_bytes)
    as S1.
  destruct (header_fields_at (gpt_disk mbr_data B uuid c1 array_crc c2 array_crc)
              mbr_data
              (zeros 16384 ++ zeros (B * 512 - 16384 - 17408) ++ zeros 16384
                 ++ gpt_header_sector (backup_header B uuid) c2 array_crc)
              (primary_header B uuid) c1 array_crc 512)
    as (P24 & P32 & P40 & P48 & P56 & _ & P80);
    [unfold gpt_disk; list_eq|lia|exact uuid_is_16_bytes|].
  destruct (header_fields_at (gpt_disk mbr_data B uuid c1 array_crc c2 array_crc)
              (mbr_data ++ gpt_header_sector (primary_header B uuid) c1 array_crc
                 ++ zeros 16384 ++ zeros (B * 512 - 16384 - 17408) ++ zeros 16384)
              [] (backup_header B uuid) c2 array_crc (B * 512))
    as (Q24 & Q32 & Q40 & Q48 & Q56 & _ & Q80);
    [unfold gpt_disk; rewrite app_nil_r; list_eq|len|exact uuid_is_16_bytes|].
  rewrite P24, P32, P40, P48, P80, Q24, Q32, Q40, Q48, Q80.
  rewrite P56, Q56.
  cbn [primary_header backup_header current_lba backup_lba first_usable_lba
         last_usable_lba disk_uuid partition_header_count].
  rewrite !u64_small by lia. unfold u32.
  repeat split; try reflexivity; lia.
Qed.

End InitImage.

Lemma init_image_shape_witness :
  exists image : FILE,
    pure64_init_disk (zeros 512) sample_uuid_parse None 100000
    = (EXIT_SUCCESS, Some image)
    /\ Z.of_nat (length (f_data image)) = 100352.
Proof.
  destruct (init_image_shape (zeros 512) sample_uuid_parse None 100000
              (firstn 16 PURE64_DEFAULT_DISK_UUID))
    as (image & R & L & _).
  - vm_compute. reflexivity.
  - reflexivity.
  - vm_compute. reflexivity.
  - lia.
  - vm_compute. discriminate.
  - exists image. split; [exact R|exact L].
Defined.

Lemma init_headers_mirror_witness :
  exists image : FILE,
    pure64_init_disk (zeros 512) sample_uuid_parse None 98488
    = (EXIT_SUCCESS, Some image)
    /\ let B := stored_backup_lba (f_data image) in
       header_field (f_data image) 512 32 8 = B
       /\ header_field (f_data image) (B * 512) 24 8 = B.
Proof.
  destruct (init_headers_mirror (zeros 512) sample_uuid_parse None 98488
              (firstn 16 PURE64_DEFAULT_DISK_UUID))
    as (image & R & _ & P & Q & _).
  - vm_compute. reflexivity.
  - reflexivity.
  - vm_compute. reflexivity.
  - lia.
  - vm_compute. discriminate.
  - exists image. split; [exact R|]. split; [exact P|exact Q].
Defined.

(** ** Where the backup array is zeroed and read *)

Section InitBackupArray.

Variable mbr_data : list byte.
Variable pure64_uuid_parse : list byte -> status * list byte.
Variable disk_uuid_str : option (list byte).
Variable disk_size : Z.
Variable uuid : list byte.

Hypothesis mbr_is_a_sector : Z.of_nat (length mbr_data) = 512.
Hypothesis uuid_parsed :
  pure64_uuid_parse
    (match disk_uuid_str with
     | None => PURE64_DEFAULT_DISK_UUID
     | Some str => str
     end) = (OK, uuid).
Hypothesis uuid_is_16_bytes : Z.of_nat (length uuid) = 16.
Hypothesis size_accepted : 98488 <= disk_size.
Hypothesis size_long : disk_size + 511 <= LONG_MAX.

Let B := backup_lba_of disk_size.
Let h1 := primary_header B uuid.
Let h2 := backup_header B uuid.

(** The file when the stream has been moved to the backup array, and the
    file once the array is zeroed. *)
Let at_seek := mkFILE (mbr_data ++ gpt_header_sector h1 0 0 ++ zeros 16384) (B * 512 - 16384).
Let zeroed :=
  mkFILE (mbr_data ++ gpt_header_sector h1 0 0 ++ zeros 16384
            ++ zeros (B * 512 - 16384 - 17408) ++ zeros 16384)
    (B * 512).

Lemma zero_file_data_at_seek : zero_file_data at_seek 16384 = zeroed.
Proof.
  destruct (backup_lba_of_range disk_size size_accepted size_long) as [B1 B2].
  fold B in B1, B2.
  pose proof (length_gpt_header_sector h1 0 0 uuid_is_16_bytes) as S1.
  unfold at_seek, zeroed.
  rewrite zero_file_data_written by (cbn [f_pos]; lia).
  assert (N : zeros 16384 <> []) by (vm_compute; discriminate).
  rewrite written_past_end by (try exact N; len).
  replace (B * 512 - 16384
           - Z.of_nat (length (mbr_data ++ gpt_header_sector h1 0 0 ++ zeros 16384)))
    with (B * 512 - 16384 - 17408) by len.
  f_equal; [list_eq|len].
Qed.

Lemma pure64_init_arrays_ok :
  pure64_init_arrays mbr_data pure64_uuid_parse disk_uuid_str disk_size
  = (EXIT_SUCCESS, Some (zero_file_data at_seek 16384)).
Proof.
  destruct (backup_lba_of_range disk_size size_accepted size_long) as [B1 B2].
  fold B in B1, B2.
  assert (LM : LONG_MAX = 2 ^ 63 - 1) by reflexivity.
  unfold pure64_init_arrays.
  replace (disk_size_rejected disk_size) with false
    by (symmetry; apply not_true_is_false; rewrite disk_size_rejected_iff; lia).
  rewrite uuid_parsed. cbn [is_error].
  replace (if negb (disk_size mod 512 =? 0)
           then u64 (disk_size + (512 - disk_size mod 512))
           else disk_size) with (B * 512 + 512).
  2:{ unfold B, backup_lba_of.
      destruct (Z.eqb_spec (disk_size mod 512) 0); cbn [negb];
        [|rewrite u64_small by lia]; lia. }
  replace (u64 (B * 512 + 512 - 512) / 512) with B by (rewrite u64_small by lia; lia).
  unfold GPT_PARTITION_HEADER_COUNT, GPT_PARTITION_HEADER_SIZE.
  replace (u64 ((1 + 1) * 512 + 128 * 128) / 512) with 34 by reflexivity.
  replace (u64 (u64 (u64 (B * 512) - 128 * 128) - 512) / 512) with (B - 33)
    by (rewrite (u64_small (B * 512)), (u64_small (B * 512 - 128 * 128)),
          (u64_small (B * 512 - 128 * 128 - 512)) by lia; lia).
  fold (primary_header B uuid). fold h1.
  rewrite fwrite_written, mbr_is_a_sector. cbn [Z.eqb Pos.eqb negb].
  unfold fopen_wb. rewrite (written_at_end [] mbr_data 0) by reflexivity.
  cbn [app]. rewrite mbr_is_a_sector.
  rewrite export_gpt_header_ok by (cbn [f_pos disk_uuid primary_header h1]; lia).
  cbn [Z.eqb EXIT_SUCCESS negb].
  rewrite written_at_end by (cbn [f_pos]; lia).
  rewrite length_gpt_header_sector by exact uuid_is_16_bytes.
  change (128 * 128) with 16384.
  rewrite zero_file_data_written by (cbn [f_pos]; lia).
  rewrite written_at_end
    by (pose proof (length_gpt_header_sector h1 0 0 uuid_is_16_bytes); len).
  rewrite backup_partition_headers_offset_eq by lia.
  rewrite fseek_ok by lia. cbn [Z.eqb negb f_data].
  unfold at_seek. rewrite <- (app_assoc mbr_data). reflexivity.
Qed.

Lemma pure64_init_write_after_arrays :
  pure64_init_write mbr_data pure64_uuid_parse disk_uuid_str disk_size
  = (EXIT_SUCCESS, Some (snd (export_gpt_header (snd (fseek zeroed (B * 512))) h2))).
Proof.
  destruct (backup_lba_of_range disk_size size_accepted size_long) as [B1 B2].
  fold B in B1, B2.
  rewrite (pure64_init_write_ok mbr_data pure64_uuid_parse disk_uuid_str disk_size uuid
             mbr_is_a_sector uuid_parsed uuid_is_16_bytes size_accepted size_long).
  fold B. rewrite fseek_ok by lia. cbn [snd].
  rewrite export_gpt_header_ok by (cbn [f_pos disk_uuid backup_header h2]; lia).
  cbn [snd]. unfold zeroed. cbn [f_data].
  pose proof (length_gpt_header_sector h1 0 0 uuid_is_16_bytes) as S1.
  pose proof (length_gpt_header_sector h2 0 0 uuid_is_16_bytes) as S2.
  rewrite written_at_end by len.
  rewrite S2. unfold gpt_disk. fold h1 h2. do 3 f_equal. list_eq.
Qed.

(** C9. On the image [init] leaves, [B] being the backup LBA stored in
    the primary header, the partition-array LBA field of the backup
    header holds [(B * 512 - 128 * 128 - 512) / 512], a sector that
    starts 512 bytes before [B * 512 - 128 * 128]; the field of the
    primary header holds 2.  The backup array itself is at
    [B * 512 - 128 * 128].  That is where [init] zeroes it: the
    [zero_file_data] call for the backup array starts with the stream
    at [B * 512 - 128 * 128], on a file that ends with the primary
    array, and leaves the file [before], which ends at [B * 512] with
    the 128 * 128 zero bytes; the backup header is then exported onto
    [before] at [B * 512].  And that is where the checksum pass reads
    it: on every file whose primary header stores the backup LBA [B]
    and which reaches the backup header, whatever bytes it holds,
    [calculate_partition_headers_checksum] stores in the backup header
    the CRC of the 128 * 128 bytes found at [B * 512 - 128 * 128]. *)
Theorem backup_partition_headers_lba_off_by_one :
  exists before image : FILE,
    pure64_init_arrays mbr_data pure64_uuid_parse disk_uuid_str disk_size
    = (EXIT_SUCCESS, Some before)
    /\ pure64_init_disk mbr_data pure64_uuid_parse disk_uuid_str disk_size
       = (EXIT_SUCCESS, Some image)
    /\ let B := stored_backup_lba (f_data image) in
       let backup_field := stored_partition_headers_lba (f_data image) (B * 512) in
       backup_field = (B * 512 - 128 * 128 - 512) / 512
       /\ backup_field * 512 + 512 = B * 512 - 128 * 128
       /\ stored_partition_headers_lba (f_data image) 512 = 2
       /\ (exists at_seek : FILE,
             f_pos at_seek = B * 512 - 128 * 128
             /\ Z.of_nat (length (f_data at_seek)) = 1024 + 128 * 128
             /\ zero_file_data at_seek (128 * 128) = before)
       /\ f_pos before = B * 512
       /\ Z.of_nat (length (f_data before)) = B * 512
       /\ load (f_data before) (B * 512 - 128 * 128) (128 * 128) = zeros (128 * 128)
       /\ pure64_init_write mbr_data pure64_uuid_parse disk_uuid_str disk_size
          = (EXIT_SUCCESS,
             Some (snd (export_gpt_header (snd (fseek before (B * 512)))
                          (backup_header B uuid))))
       /\ forall disk : FILE,
            stored_backup_lba (f_data disk) = B ->
            B * 512 + 92 <= Z.of_nat (length (f_data disk)) ->
            exists disk',
              calculate_partition_headers_checksum disk = (EXIT_SUCCESS, disk')
              /\ stored_array_checksum (f_data disk') (B * 512)
                 = crc32 (load (f_data disk) (B * 512 - 128 * 128) (128 * 128)).
Proof.
  destruct (backup_lba_of_range disk_size size_accepted size_long) as [B1 B2].
  fold B in B1, B2.
  assert (LM : LONG_MAX = 2 ^ 63 - 1) by reflexivity.
  assert (BR : 66 <= B < 2 ^ 64) by lia.
  pose proof (length_gpt_header_sector h1 0 0 uuid_is_16_bytes) as S1.
  destruct (pure64_init_disk_ok mbr_data pure64_uuid_parse disk_uuid_str disk_size uuid
              mbr_is_a_sector uuid_parsed uuid_is_16_bytes size_accepted size_long)
    as (_ & _ & _ & R).
  fold B in R.
  exists zeroed. eexists.
  split; [rewrite pure64_init_arrays_ok; now rewrite zero_file_data_at_seek|].
  split; [exact R|]. clear R.
  cbv zeta. cbn [f_data]. change (128 * 128) with 16384.
  set (c1 := crc32 (gpt_header_core (primary_header B uuid) 0 array_crc)).
  set (c2 := crc32 (gpt_header_core (backup_header B uuid) 0 array_crc)).
  rewrite (stored_backup_lba_eq mbr_data uuid B c1 array_crc c2 array_crc
             mbr_is_a_sector uuid_is_16_bytes BR).
  rewrite (stored_partition_headers_lba_backup mbr_data uuid B c1 array_crc c2 array_crc
             mbr_is_a_sector uuid_is_16_bytes BR).
  rewrite (stored_partition_headers_lba_primary mbr_data uuid B c1 array_crc c2 array_crc
             mbr_is_a_sector uuid_is_16_bytes).
  split; [lia|]. split; [lia|]. split; [reflexivity|]. split.
  { exists at_seek. split; [reflexivity|]. split; [|apply zero_file_data_at_seek].
    unfold at_seek. cbn [f_data]. len. }
  split; [reflexivity|]. split; [unfold zeroed; cbn [f_data]; len|]. split.
  { unfold zeroed. cbn [f_data].
    apply (load_at _ (mbr_data ++ gpt_header_sector h1 0 0 ++ zeros 16384
                        ++ zeros (B * 512 - 16384 - 17408))
             (zeros 16384) []); [rewrite app_nil_r; list_eq|len|len]. }
  split; [apply pure64_init_write_after_arrays|].
  intros disk SB Len.
  destruct (calculate_partition_headers_checksum_reads disk B SB ltac:(lia) ltac:(lia) Len)
    as (disk' & Run & _ & C).
  exists disk'. split; [exact Run|exact C].
Qed.

End InitBackupArray.

Lemma backup_partition_headers_lba_off_by_one_witness :
  exists before image : FILE,
    pure64_init_arrays (zeros 512) sample_uuid_parse None 98488 = (EXIT_SUCCESS, Some before)
    /\ pure64_init_disk (zeros 512) sample_uuid_parse None 98488 = (EXIT_SUCCESS, Some image)
    /\ let B := stored_backup_lba (f_data image) in
       let backup_field := stored_partition_headers_lba (f_data image) (B * 512) in
       backup_field = (B * 512 - 128 * 128 - 512) / 512
       /\ backup_field * 512 + 512 = B * 512 - 128 * 128
       /\ stored_partition_headers_lba (f_data image) 512 = 2
       /\ f_pos before = B * 512
       /\ Z.of_nat (length (f_data before)) = B * 512.
Proof.
  destruct (backup_partition_headers_lba_off_by_one (zeros 512) sample_uuid_parse None 98488
              (firstn 16 PURE64_DEFAULT_DISK_UUID))
    as (before & image & A & R & F1 & F2 & F3 & _ & P & L & _).
  - vm_compute. reflexivity.
  - reflexivity.
  - vm_compute. reflexivity.
  - lia.
  - vm_compute. discriminate.
  - exists before, image. cbv zeta.
    split; [exact A|]. split; [exact R|]. split; [exact F1|]. split; [exact F2|].
    split; [exact F3|]. split; [exact P|exact L].
Defined.

(** ** The size of the image [init] creates *)

Ltac walk_branches :=
  repeat match goal with
         | |- context [match ?X with pair _ _ => _ end] =>
             match X with
             | pair _ _ => fail 1
             | _ => let a := fresh "a" in let b := fresh "b" in destruct X as [a b]
             end
         | |- context [if ?c then _ else _] => destruct c
         end.

Lemma pure64_init_write_unopened
  (mbr_data : list byte) (pure64_uuid_parse : list byte -> status * list byte)
  (disk_uuid_str : option (list byte)) (disk_size : Z) :
  let parsed :=
    pure64_uuid_parse
      (match disk_uuid_str with
       | None => PURE64_DEFAULT_DISK_UUID
       | Some str => str
       end) in
  (disk_size_rejected disk_size = true \/ is_error (fst parsed) = true ->
   pure64_init_write mbr_data pure64_uuid_parse disk_uuid_str disk_size = (EXIT_FAILURE, None))
  /\ (disk_size_rejected disk_size = false -> is_error (fst parsed) = false ->
      exists err file,
        pure64_init_write mbr_data pure64_uuid_parse disk_uuid_str disk_size
        = (err, Some file)).
Proof.
  intros parsed. unfold pure64_init_write. fold parsed.
  destruct (disk_size_rejected disk_size); [split; [reflexivity|discriminate]|].
  destruct parsed as [err uuid]. cbn [fst].
  destruct (is_error err); [split; [reflexivity|discriminate]|].
  split; [intros [H|H]; discriminate|]. intros _ _.
  walk_branches; eexists; eexists; reflexivity.
Qed.

Lemma pure64_init_disk_unopened
  (mbr_data : list byte) (pure64_uuid_parse : list byte -> status * list byte)
  (disk_uuid_str : option (list byte)) (disk_size : Z) :
  let parsed :=
    pure64_uuid_parse
      (match disk_uuid_str with
       | None => PURE64_DEFAULT_DISK_UUID
       | Some str => str
       end) in
  (disk_size_rejected disk_size = true \/ is_error (fst parsed) = true ->
   pure64_init_disk mbr_data pure64_uuid_parse disk_uuid_str disk_size = (EXIT_FAILURE, None))
  /\ (disk_size_rejected disk_size = false -> is_error (fst parsed) = false ->
      exists err file,
        pure64_init_disk mbr_data pure64_uuid_parse disk_uuid_str disk_size
        = (err, Some file)).
Proof.
  intros parsed.
  destruct (pure64_init_write_unopened mbr_data pure64_uuid_parse disk_uuid_str disk_size)
    as [Bad Good].
  fold parsed in Bad, Good. unfold pure64_init_disk. split.
  - intros H. now rewrite (Bad H).
  - intros R E. destruct (Good R E) as (err & file & W). rewrite W.
    walk_branches; eexists; eexists; reflexivity.
Qed.


(** X21. Every image the [init] command creates is exactly
    1 MiB long, whatever its arguments: a run of [pure64_init] that
    returns [EXIT_SUCCESS] has built the disk with the default size.
    The size option cannot change it: a value that [sscanf] converts
    makes the command return [EXIT_FAILURE] before the file is opened,
    since the check of its result is [!= 0]. *)
Theorem init_image_is_one_mebibyte
  (mbr_data : list byte) (pure64_uuid_parse : list byte -> status * list byte)
  (sscanf_llu : list byte -> scan) :
  Z.of_nat (length mbr_data) = 512 ->
  (forall str uuid, pure64_uuid_parse str = (OK, uuid) -> Z.of_nat (length uuid) = 16) ->
  (forall argv image,
     pure64_init mbr_data pure64_uuid_parse sscanf_llu argv = (EXIT_SUCCESS, Some image) ->
     Z.of_nat (length (f_data image)) = 1 * 1024 * 1024)
  /\ (forall value v rest,
        sscanf_llu value = Converted v ->
        pure64_init mbr_data pure64_uuid_parse sscanf_llu (opt_disk_size :: value :: rest)
        = (EXIT_FAILURE, None)).
Proof.
  intros Hm Hu. split.
  - intros argv image H.
    destruct (pure64_init_default_size mbr_data pure64_uuid_parse sscanf_llu argv)
      as [F|[u E]]; [rewrite F in H; discriminate|].
    rewrite E in H. clear E.
    destruct (pure64_uuid_parse
                (match u with
                 | None => PURE64_DEFAULT_DISK_UUID
                 | Some str => str
                 end)) as [err uuid] eqn:P.
    destruct (is_error err) eqn:Err.
    + destruct (pure64_init_disk_unopened mbr_data pure64_uuid_parse u (1 * 1024 * 1024))
        as [Bad _].
      rewrite Bad in H by (right; rewrite P; exact Err). discriminate.
    + assert (err = OK) by (destruct err; try discriminate; reflexivity). subst err.
      pose proof (Hu _ _ P) as L16.
      destruct (pure64_init_disk_ok mbr_data pure64_uuid_parse u (1 * 1024 * 1024) uuid
                  Hm P L16 ltac:(lia) ltac:(unfold LONG_MAX; lia)) as (_ & _ & _ & R).
      rewrite R in H. injection H as <-. cbn [f_data].
      rewrite (length_gpt_disk mbr_data uuid (backup_lba_of (1 * 1024 * 1024)) Hm L16);
        [reflexivity|vm_compute; discriminate].
  - intros value v rest H.
    now apply (pure64_init_disk_size_option mbr_data pure64_uuid_parse sscanf_llu value rest v).
Qed.

Lemma init_image_is_one_mebibyte_witness :
  let parse := fun _ : list byte => (OK, zeros 16) in
  let scan_one := fun _ : list byte => Converted 2097152 in
  exists image,
    pure64_init (zeros 512) parse scan_one [] = (EXIT_SUCCESS, Some image)
    /\ Z.of_nat (length (f_data image)) = 1 * 1024 * 1024
    /\ pure64_init (zeros 512) parse scan_one [opt_disk_size; ["2"%byte]]
       = (EXIT_FAILURE, None).
Proof.
  intros parse scan_one.
  assert (Hm : Z.of_nat (length (zeros 512)) = 512) by (vm_compute; reflexivity).
  assert (Hu : forall str uuid, parse str = (OK, uuid) -> Z.of_nat (length uuid) = 16).
  { intros str uuid E. injection E as <-. vm_compute. reflexivity. }
  destruct (init_image_is_one_mebibyte (zeros 512) parse scan_one Hm Hu) as [Len Slip].
  destruct (pure64_init_disk_ok (zeros 512) parse None (1 * 1024 * 1024) (zeros 16)
              Hm eq_refl ltac:(vm_compute; reflexivity) ltac:(lia)
              ltac:(unfold LONG_MAX; lia)) as (_ & _ & _ & R).
  eexists. split; [exact R|]. split.
  - apply (Len []). exact R.
  - apply (Slip ["2"%byte] 2097152 []). reflexivity.
Defined.

(** ** The image [ramfs_export] leaves *)

(** X22. For stage binaries within the size limit, the offsets
    [ramfs_export] computes are multiples of 512; stage 2 sits at
    0x2000 and stage 3 at the first sector boundary at or after its
    end.  The file system offset is never before the stage 3 offset and
    falls short of the end of stage 3 by less than a sector.  It does
    not fall short at all when the size of stage 2 is a multiple of
    512; it does fall short when neither size is a multiple of 512 and
    the two remainders add up to at most 512.  The sector counts stored
    in the boot sector cover the two binaries. *)
Theorem ramfs_export_offsets_sound (pure64_data_size stage_three_data_size : Z) :
  0 <= pure64_data_size <= 0x7f * 512 ->
  0 <= stage_three_data_size <= 0x7f * 512 ->
  let '(st2_offset, st3_offset, fs_offset) :=
    ramfs_export_offsets pure64_data_size stage_three_data_size in
  st2_offset = 0x2000
  /\ st2_offset mod 512 = 0 /\ st3_offset mod 512 = 0 /\ fs_offset mod 512 = 0
  /\ st2_offset + pure64_data_size <= st3_offset < st2_offset + pure64_data_size + 512
  /\ st3_offset <= fs_offset
  /\ st3_offset + stage_three_data_size - 511 <= fs_offset
  /\ fs_offset < st3_offset + stage_three_data_size + 512
  /\ (pure64_data_size mod 512 = 0 -> st3_offset + stage_three_data_size <= fs_offset)
  /\ (0 < pure64_data_size mod 512 ->
      0 < stage_three_data_size mod 512 ->
      pure64_data_size mod 512 + stage_three_data_size mod 512 <= 512 ->
      fs_offset < st3_offset + stage_three_data_size)
  /\ pure64_data_size <= (pure64_data_size + 511) / 512 * 512
  /\ stage_three_data_size <= (stage_three_data_size + 511) / 512 * 512.
Proof.
  intros H2 H3. rewrite ramfs_export_offsets_eq by lia. unfold round_up_512.
  repeat split; try lia.
Qed.

Lemma ramfs_export_offsets_sound_witness :
  ramfs_export_offsets 1024 700 = (8192, 9216, 10240)
  /\ 9216 + 700 <= 10240.
Proof.
  pose proof (ramfs_export_offsets_sound 1024 700 ltac:(lia) ltac:(lia)) as T.
  assert (O : ramfs_export_offsets 1024 700 = (8192, 9216, 10240)) by (vm_compute; reflexivity).
  rewrite O in T. destruct T as (_ & _ & _ & _ & _ & _ & _ & _ & A & _).
  split; [exact O|]. apply A. reflexivity.
Defined.

Lemma load_ramfs_export_pad (file : FILE) (bs : list byte) (p : Z) :
  0 <= p -> p + Z.of_nat (length bs) <= f_pos file ->
  load (f_data file) p (Z.of_nat (length bs)) = bs ->
  load (f_data (ramfs_export_pad file (f_pos file))) p (Z.of_nat (length bs)) = bs.
Proof.
  intros Hp Hl L. unfold ramfs_export_pad, PURE64_MINIMUM_DISK_SIZE, fputc.
  change (1 * 1024 * 1024) with 1048576.
  destruct (Z.ltb_spec (f_pos file) 1048576) as [Lt|Ge].
  - rewrite fseek_ok by lia. rewrite fwrite_written. cbn [snd].
    apply load_written_other; try lia. exact L.
  - destruct (Z.eqb_spec (f_pos file mod 512) 0) as [E|NE]; cbn [negb]; [exact L|].
    rewrite fseek_ok by lia. rewrite fwrite_written. cbn [snd].
    apply load_written_other; try lia. exact L.
Qed.

Lemma length_ramfs_export_pad_ge (file : FILE) (pos : Z) :
  0 <= pos ->
  Z.of_nat (length (f_data file))
  <= Z.of_nat (length (f_data (ramfs_export_pad file pos))).
Proof.
  intros Hp. unfold ramfs_export_pad, PURE64_MINIMUM_DISK_SIZE, fputc.
  change (1 * 1024 * 1024) with 1048576.
  destruct (Z.ltb_spec pos 1048576) as [Lt|Ge].
  - rewrite fseek_ok by lia. rewrite fwrite_written. cbn [snd].
    apply (length_written_bounds [x00] (mkFILE (f_data file) (1048576 - 1))).
    cbn [f_pos]. lia.
  - destruct (Z.eqb_spec (pos mod 512) 0) as [E|NE]; cbn [negb]; [lia|].
    rewrite fseek_ok by lia. rewrite fwrite_written. cbn [snd].
    apply (length_written_bounds [x00] (mkFILE (f_data file) (pos + (512 - pos mod 512) - 1))).
    cbn [f_pos]. lia.
Qed.

Section MkfsImage.

Variable mbr_data : list byte.
Variable pure64_data : list byte.
Variable stage_three_data : list byte.
Variable mbr_set_daps : list byte -> Z -> Z -> Z -> Z -> list byte.

Let S2 := pure64_data_size pure64_data.
Let S3 := stage_three_data_size stage_three_data.
Let st3_offset := round_up_512 (0x2000 + S2).
Let fs_offset := round_up_512 (0x2000 + S2 + S3).

Hypothesis mbr_is_a_sector : Z.of_nat (length mbr_data) = 512.
Hypothesis stage_two_fits : S2 <= 0x7f * 512.
Hypothesis stage_three_fits : S3 <= 0x7f * 512.
Hypothesis mbr_set_daps_length :
  forall mbr s2 c2 s3 c3, length (mbr_set_daps mbr s2 c2 s3 c3) = length mbr.

(** The file as the assembly leaves it, write by write. *)
Lemma ramfs_export_steps (fs : pure64_fs) (h : heap) :
  let f1 := written mbr_data fopen_wb in
  let f2 := written pure64_data (mkFILE (f_data f1) 0x2000) in
  let f3 := written stage_three_data (mkFILE (f_data f2) st3_offset) in
  let f4 := written (dir_bytes (root fs)) (mkFILE (f_data f3) fs_offset) in
  let padded := ramfs_export_pad f4 (f_pos f4) in
  let mbr :=
    mbr_set_daps (load (f_data padded) 0 512)
      (0x2000 / 512) ((S2 + 511) / 512) (st3_offset / 512) ((S3 + 511) / 512) in
  ramfs_export mbr_data pure64_data stage_three_data mbr_set_daps fs h
  = (EXIT_SUCCESS, Some (written mbr (mkFILE (f_data padded) 0))).
Proof.
  intros f1 f2 f3 f4 padded mbr.
  assert (R2 : 0 <= S2) by (unfold S2, pure64_data_size; lia).
  assert (R3 : 0 <= S3) by (unfold S3, stage_three_data_size; lia).
  assert (Q3 : 0 <= st3_offset <= 8192 + S2 + 511) by (unfold st3_offset, round_up_512; lia).
  assert (Q4 : 0 <= fs_offset <= 8192 + S2 + S3 + 511)
    by (unfold fs_offset, round_up_512; lia).
  assert (W : ramfs_export_write mbr_data pure64_data stage_three_data fs h
              = (EXIT_SUCCESS, Some f4)).
  { unfold ramfs_export_write. fold S2 S3.
    rewrite (stage_fits S2), (stage_fits S3) by lia.
    rewrite fwrite_written, Z.eqb_refl. cbn [negb].
    rewrite ramfs_export_offsets_eq by lia. fold st3_offset fs_offset.
    rewrite to_long_small by (unfold LONG_MAX; lia).
    rewrite fseek_ok by lia. rewrite Z.eqb_refl. cbn [negb].
    rewrite fwrite_written. change (Z.of_nat (length pure64_data)) with S2.
    rewrite Z.eqb_refl. cbn [negb].
    rewrite to_long_small by (unfold LONG_MAX; lia).
    rewrite fseek_ok by lia. rewrite Z.eqb_refl. cbn [negb].
    rewrite fwrite_written. change (Z.of_nat (length stage_three_data)) with S3.
    rewrite Z.eqb_refl. cbn [negb].
    rewrite to_long_small by (unfold LONG_MAX; lia).
    rewrite fseek_ok by lia. rewrite Z.eqb_refl. cbn [negb].
    unfold pure64_fs_export.
    rewrite pure64_dir_export_writes by (cbn [io f_pos]; lia).
    reflexivity. }
  assert (P4 : f_pos f4 = fs_offset + Z.of_nat (length (dir_bytes (root fs))))
    by (unfold f4; rewrite f_pos_written; reflexivity).
  assert (L512 : 512 <= Z.of_nat (length (f_data padded))).
  { pose proof (length_ramfs_export_pad_ge f4 (f_pos f4) ltac:(lia)) as G4.
    fold padded in G4.
    pose proof (length_written_bounds (dir_bytes (root fs)) (mkFILE (f_data f3) fs_offset)
                  ltac:(cbn [f_pos]; lia)) as [G3 _].
    fold f4 in G3. cbn [f_data] in G3.
    pose proof (length_written_bounds stage_three_data (mkFILE (f_data f2) st3_offset)
                  ltac:(cbn [f_pos]; lia)) as [G2 _].
    fold f3 in G2. cbn [f_data] in G2.
    pose proof (length_written_bounds pure64_data (mkFILE (f_data f1) 8192)
                  ltac:(cbn [f_pos]; lia)) as [G1 _].
    fold f2 in G1. cbn [f_data] in G1.
    assert (L1 : Z.of_nat (length (f_data f1)) = 512).
    { unfold f1, fopen_wb. rewrite written_at_end by reflexivity. cbn [f_data app]. lia. }
    lia. }
  unfold ramfs_export. rewrite W. cbn [Z.eqb EXIT_SUCCESS negb].
  unfold ramfs_export_finish. fold S2 S3.
  unfold ftell.
  destruct (Z.eqb_spec (f_pos f4) (-1)) as [E|_]; [lia|].
  fold padded.
  rewrite ramfs_export_offsets_eq by lia. fold st3_offset.
  rewrite !u64_small by lia.
  unfold pure64_mbr_read, pure64_mbr_write, bind, pure64_stream_set_pos,
    fstream_set_pos, pure64_stream_read, pure64_stream_write, fstream_read, fstream_write.
  cbn [io mem].
  replace (0 >? LONG_MAX) with false by reflexivity.
  rewrite fseek_ok by lia. cbn [Z.eqb negb is_error io mem f_data].
  destruct (fread_enough (f_data padded) 0 512 ltac:(lia) ltac:(lia) ltac:(lia)) as [-> Lr].
  rewrite Lr. cbn [Z.eqb Pos.eqb negb is_error io mem].
  rewrite fseek_ok by lia. cbn [Z.eqb negb is_error io mem f_data].
  rewrite fwrite_written, Z.eqb_refl. cbn [negb is_error io].
  reflexivity.
Qed.

Lemma ramfs_export_layout (fs : pure64_fs) (h : heap) :
  let '(st2_offset, st3_offset, fs_offset) :=
    ramfs_export_offsets (pure64_data_size pure64_data)
      (stage_three_data_size stage_three_data) in
  exists image : FILE,
    ramfs_export mbr_data pure64_data stage_three_data mbr_set_daps fs h
    = (EXIT_SUCCESS, Some image)
    /\ load (f_data image) 0 512
       = mbr_set_daps mbr_data
           (st2_offset / 512) ((pure64_data_size pure64_data + 511) / 512)
           (st3_offset / 512) ((stage_three_data_size stage_three_data + 511) / 512)
    /\ load (f_data image) st2_offset (pure64_data_size pure64_data) = pure64_data
    /\ (st3_offset + stage_three_data_size stage_three_data <= fs_offset ->
        load (f_data image) st3_offset (stage_three_data_size stage_three_data)
        = stage_three_data)
    /\ (pure64_data_size pure64_data mod 512 = 0 ->
        st3_offset + stage_three_data_size stage_three_data <= fs_offset)
    /\ load (f_data image) fs_offset (Z.of_nat (length (dir_bytes (root fs))))
       = dir_bytes (root fs).
Proof.
  assert (R2 : 0 <= S2) by (unfold S2, pure64_data_size; lia).
  assert (R3 : 0 <= S3) by (unfold S3, stage_three_data_size; lia).
  fold S2 S3. rewrite ramfs_export_offsets_eq by lia. fold st3_offset fs_offset.
  assert (Q3 : 8192 + S2 <= st3_offset <= 8192 + S2 + 511)
    by (unfold st3_offset, round_up_512; lia).
  assert (Q4 : st3_offset <= fs_offset <= 8192 + S2 + S3 + 511)
    by (unfold st3_offset, fs_offset, round_up_512; lia).
  assert (E2 : Z.of_nat (length pure64_data) = S2) by reflexivity.
  assert (E3 : Z.of_nat (length stage_three_data) = S3) by reflexivity.
  pose proof (ramfs_export_steps fs h) as Run. cbv zeta in Run.
  set (f1 := written mbr_data fopen_wb) in *.
  set (f2 := written pure64_data (mkFILE (f_data f1) 0x2000)) in *.
  set (f3 := written stage_three_data (mkFILE (f_data f2) st3_offset)) in *.
  set (f4 := written (dir_bytes (root fs)) (mkFILE (f_data f3) fs_offset)) in *.
  set (padded := ramfs_export_pad f4 (f_pos f4)) in *.
  set (mbr := mbr_set_daps (load (f_data padded) 0 512) _ _ _ _) in *.
  assert (P4 : f_pos f4 = fs_offset + Z.of_nat (length (dir_bytes (root fs))))
    by (unfold f4; rewrite f_pos_written; reflexivity).
  assert (Lm : Z.of_nat (length mbr) = 512).
  { unfold mbr. rewrite mbr_set_daps_length, length_load.
    pose proof (length_ramfs_export_pad_ge f4 (f_pos f4) ltac:(lia)) as G4.
    fold padded in G4.
    pose proof (length_written_bounds (dir_bytes (root fs)) (mkFILE (f_data f3) fs_offset)
                  ltac:(cbn [f_pos]; lia)) as [G3 _].
    fold f4 in G3. cbn [f_data] in G3.
    pose proof (length_written_bounds stage_three_data (mkFILE (f_data f2) st3_offset)
                  ltac:(cbn [f_pos]; lia)) as [G2 _].
    fold f3 in G2. cbn [f_data] in G2.
    pose proof (length_written_bounds pure64_data (mkFILE (f_data f1) 8192)
                  ltac:(cbn [f_pos]; lia)) as [G1 _].
    fold f2 in G1. cbn [f_data] in G1.
    assert (L1 : Z.of_nat (length (f_data f1)) = 512).
    { unfold f1, fopen_wb. rewrite written_at_end by reflexivity. cbn [f_data app]. lia. }
    lia. }
  (* the boot sector *)
  assert (M1 : load (f_data f1) 0 (Z.of_nat (length mbr_data)) = mbr_data)
    by (apply (load_written mbr_data fopen_wb); cbn [fopen_wb f_pos]; lia).
  assert (M2 : load (f_data f2) 0 (Z.of_nat (length mbr_data)) = mbr_data)
    by (apply load_written_other; [lia|lia|exact M1|lia]).
  assert (M3 : load (f_data f3) 0 (Z.of_nat (length mbr_data)) = mbr_data)
    by (apply load_written_other; [lia|lia|exact M2|lia]).
  assert (M4 : load (f_data f4) 0 (Z.of_nat (length mbr_data)) = mbr_data)
    by (apply load_written_other; [lia|lia|exact M3|lia]).
  assert (M5 : load (f_data padded) 0 (Z.of_nat (length mbr_data)) = mbr_data)
    by (apply load_ramfs_export_pad; [lia|lia|exact M4]).
  rewrite mbr_is_a_sector in M5.
  (* stage two *)
  assert (A2 : load (f_data f2) 8192 (Z.of_nat (length pure64_data)) = pure64_data)
    by (apply (load_written pure64_data (mkFILE (f_data f1) 8192)); cbn [f_pos]; lia).
  assert (A3 : load (f_data f3) 8192 (Z.of_nat (length pure64_data)) = pure64_data)
    by (apply load_written_other; [lia|lia|exact A2|lia]).
  assert (A4 : load (f_data f4) 8192 (Z.of_nat (length pure64_data)) = pure64_data)
    by (apply load_written_other; [lia|lia|exact A3|lia]).
  assert (A5 : load (f_data padded) 8192 (Z.of_nat (length pure64_data)) = pure64_data)
    by (apply load_ramfs_export_pad; [lia|lia|exact A4]).
  (* the file system *)
  assert (T4 : load (f_data f4) fs_offset (Z.of_nat (length (dir_bytes (root fs))))
               = dir_bytes (root fs))
    by (apply (load_written (dir_bytes (root fs)) (mkFILE (f_data f3) fs_offset));
        cbn [f_pos]; lia).
  assert (T5 : load (f_data padded) fs_offset (Z.of_nat (length (dir_bytes (root fs))))
               = dir_bytes (root fs))
    by (apply load_ramfs_export_pad; [lia|lia|exact T4]).
  eexists. split; [exact Run|].
  split.
  { pose proof (load_written mbr (mkFILE (f_data padded) 0) ltac:(cbn [f_pos]; lia)) as L.
    cbn [f_pos] in L. rewrite Lm in L. rewrite L. unfold mbr. now rewrite M5. }
  split.
  { apply load_written_other; [lia|lia|exact A5|right; lia]. }
  split.
  { intros Free.
    assert (B3 : load (f_data f3) st3_offset (Z.of_nat (length stage_three_data))
                 = stage_three_data)
      by (apply (load_written stage_three_data (mkFILE (f_data f2) st3_offset));
          cbn [f_pos]; lia).
    assert (B4 : load (f_data f4) st3_offset (Z.of_nat (length stage_three_data))
                 = stage_three_data)
      by (apply load_written_other; [lia|lia|exact B3|lia]).
    assert (B5 : load (f_data padded) st3_offset (Z.of_nat (length stage_three_data))
                 = stage_three_data)
      by (apply load_ramfs_export_pad; [lia|lia|exact B4]).
    apply load_written_other; [lia|lia|exact B5|right; lia]. }
  split.
  { intros Al. unfold st3_offset, fs_offset, round_up_512. lia. }
  apply load_written_other; [lia|lia|exact T5|right; lia].
Qed.

(** X23. With a 512-byte boot sector and stage binaries within the
    size limit, [ramfs_export] succeeds and the image holds: in sector
    0, the boot sector it wrote first with the four DAP fields set to
    the stage 2 sector and sector count and the stage 3 sector and
    sector count; at the stage 2 offset the whole of stage 2, always;
    at the file system offset the exported tree; and at the stage 3
    offset the whole of stage 3 whenever the file system offset does
    not fall short of its end, which is so when the size of stage 2 is
    a multiple of 512. *)
Theorem ramfs_export_image_contents (fs : pure64_fs) (h : heap) :
  let '(st2_offset, st3_offset, fs_offset) :=
    ramfs_export_offsets (pure64_data_size pure64_data)
      (stage_three_data_size stage_three_data) in
  exists image : FILE,
    ramfs_export mbr_data pure64_data stage_three_data mbr_set_daps fs h
    = (EXIT_SUCCESS, Some image)
    /\ load (f_data image) 0 512
       = mbr_set_daps mbr_data
           (st2_offset / 512) ((pure64_data_size pure64_data + 511) / 512)
           (st3_offset / 512) ((stage_three_data_size stage_three_data + 511) / 512)
    /\ load (f_data image) st2_offset (pure64_data_size pure64_data) = pure64_data
    /\ (st3_offset + stage_three_data_size stage_three_data <= fs_offset ->
        load (f_data image) st3_offset (stage_three_data_size stage_three_data)
        = stage_three_data)
    /\ (pure64_data_size pure64_data mod 512 = 0 ->
        st3_offset + stage_three_data_size stage_three_data <= fs_offset)
    /\ load (f_data image) fs_offset (Z.of_nat (length (dir_bytes (root fs))))
       = dir_bytes (root fs).
Proof. exact (ramfs_export_layout fs h). Qed.

End MkfsImage.

Lemma ramfs_export_image_contents_witness :
  let keep := fun (mbr : list byte) (_ _ _ _ : Z) => mbr in
  let fs := mkfs (mkdir [] [] [mkfile ["a"]%byte [x01; x02]]) in
  exists image : FILE,
    ramfs_export (zeros 512) (zeros 1024) [xaa] keep fs plentiful
    = (EXIT_SUCCESS, Some image)
    /\ load (f_data image) 8192 1024 = zeros 1024
    /\ load (f_data image) 9216 1 = [xaa]
    /\ load (f_data image) 9728 (Z.of_nat (length (dir_bytes (root fs)))) = dir_bytes (root fs).
Proof.
  intros keep fs.
  pose proof (ramfs_export_image_contents (zeros 512) (zeros 1024) [xaa] keep
                ltac:(vm_compute; reflexivity) ltac:(vm_compute; discriminate)
                ltac:(vm_compute; discriminate) ltac:(intros; reflexivity) fs plentiful) as T.
  assert (O : ramfs_export_offsets (pure64_data_size (zeros 1024))
                (stage_three_data_size [xaa]) = (8192, 9216, 9728))
    by (vm_compute; reflexivity).
  rewrite O in T. destruct T as (image & R & _ & A & B & C & D).
  exists image. split; [exact R|]. split; [exact A|]. split; [|exact D].
  apply B. apply C. reflexivity.
Defined.

(** A tree whose image stands at [pos] is read back from there. *)
Lemma pure64_dir_import_at (data : list byte) (pos : Z) (tree : pure64_dir) (h : heap) :
  0 <= pos -> dir_fits tree -> all_true h ->
  load data pos (Z.of_nat (length (dir_bytes tree))) = dir_bytes tree ->
  exists h',
    pure64_dir_import (mkworld (mkFILE data pos) h)
    = Done tree (mkworld (mkFILE data (pos + Z.of_nat (length (dir_bytes tree)))) h').
Proof.
  intros Hp Hfits Hh L.
  assert (N : dir_bytes tree <> []).
  { intros E. pose proof (dir_bytes_header tree) as H24. rewrite E in H24. cbn in H24. lia. }
  pose proof (load_full data pos (dir_bytes tree) Hp N L) as Full.
  destruct (split_at data pos (Z.of_nat (length (dir_bytes tree))) Hp ltac:(lia) Full)
    as (D & Lpre & _).
  rewrite L in D.
  set (pre := firstn (Z.to_nat pos) data) in *.
  set (post := skipn (Z.to_nat (pos + Z.of_nat (length (dir_bytes tree)))) data) in *.
  assert (F : (height tree <= S (length data))%nat).
  { pose proof (height_le_bytes tree). lia. }
  destruct (pure64_dir_import_fuel_reads tree Hfits _ F pre post h Hh) as (h' & E & _).
  exists h'. unfold pure64_dir_import. cbn [io f_data].
  rewrite <- D, Lpre in E. exact E.
Qed.

Lemma ramfs_export_importable
  (mbr_data pure64_data stage_three_data : list byte)
  (mbr_set_daps : list byte -> Z -> Z -> Z -> Z -> list byte)
  (fs : pure64_fs) (h h' : heap) :
  Z.of_nat (length mbr_data) = 512 ->
  pure64_data_size pure64_data <= 0x7f * 512 ->
  stage_three_data_size stage_three_data <= 0x7f * 512 ->
  (forall mbr s2 c2 s3 c3, length (mbr_set_daps mbr s2 c2 s3 c3) = length mbr) ->
  dir_fits (root fs) -> all_true h' ->
  let '(_, _, fs_offset) :=
    ramfs_export_offsets (pure64_data_size pure64_data)
      (stage_three_data_size stage_three_data) in
  exists (image : FILE) (w' : world),
    ramfs_export mbr_data pure64_data stage_three_data mbr_set_daps fs h
    = (EXIT_SUCCESS, Some image)
    /\ pure64_dir_import (mkworld (mkFILE (f_data image) fs_offset) h')
       = Done (root fs) w'
    /\ f_pos (io w') = fs_offset + Z.of_nat (length (dir_bytes (root fs))).
Proof.
  intros Hm H2 H3 Hd Hfits Hh.
  pose proof (ramfs_export_layout mbr_data pure64_data stage_three_data mbr_set_daps
                Hm H2 H3 Hd fs h) as T.
  destruct (ramfs_export_offsets (pure64_data_size pure64_data)
              (stage_three_data_size stage_three_data)) as [[st2 st3] fso] eqn:O.
  destruct T as (image & R & _ & _ & _ & _ & L).
  assert (P : 0 <= fso).
  { unfold ramfs_export_offsets in O. injection O as _ _ <-. unfold u64.
    apply Z.mod_pos_bound. reflexivity. }
  destruct (pure64_dir_import_at (f_data image) fso (root fs) h' P Hfits Hh L) as (h2 & E).
  exists image. eexists. split; [exact R|]. split; [exact E|]. reflexivity.
Qed.

(** X24. The tree can be read back from the image: after
    [ramfs_export], [pure64_dir_import] started at the file system
    offset of the image (with an allocator that does not fail, the
    counts of the tree fitting their fields) returns the tree that was
    exported and stops at the end of its bytes; the padding and the
    update of the boot sector have not touched them. *)
Theorem ramfs_export_then_import
  (mbr_data pure64_data stage_three_data : list byte)
  (mbr_set_daps : list byte -> Z -> Z -> Z -> Z -> list byte)
  (fs : pure64_fs) (h h' : heap) :
  Z.of_nat (length mbr_data) = 512 ->
  pure64_data_size pure64_data <= 0x7f * 512 ->
  stage_three_data_size stage_three_data <= 0x7f * 512 ->
  (forall mbr s2 c2 s3 c3, length (mbr_set_daps mbr s2 c2 s3 c3) = length mbr) ->
  dir_fits (root fs) -> all_true h' ->
  let '(_, _, fs_offset) :=
    ramfs_export_offsets (pure64_data_size pure64_data)
      (stage_three_data_size stage_three_data) in
  exists (image : FILE) (w' : world),
    ramfs_export mbr_data pure64_data stage_three_data mbr_set_daps fs h
    = (EXIT_SUCCESS, Some image)
    /\ pure64_dir_import (mkworld (mkFILE (f_data image) fs_offset) h')
       = Done (root fs) w'
    /\ f_pos (io w') = fs_offset + Z.of_nat (length (dir_bytes (root fs))).
Proof.
  exact (ramfs_export_importable mbr_data pure64_data stage_three_data mbr_set_daps fs h h').
Qed.

Lemma ramfs_export_then_import_witness :
  let keep := fun (mbr : list byte) (_ _ _ _ : Z) => mbr in
  let fs := mkfs (mkdir [] [mkdir ["d"]%byte [] []] [mkfile ["a"]%byte [x01; x02]]) in
  exists (image : FILE) (w' : world),
    ramfs_export (zeros 512) (zeros 1000) (zeros 3) keep fs plentiful
    = (EXIT_SUCCESS, Some image)
    /\ pure64_dir_import (mkworld (mkFILE (f_data image) 9216) plentiful)
       = Done (root fs) w'.
Proof.
  intros keep fs.
  pose proof (ramfs_export_then_import (zeros 512) (zeros 1000) (zeros 3) keep fs
                plentiful plentiful
                ltac:(vm_compute; reflexivity) ltac:(vm_compute; discriminate)
                ltac:(vm_compute; discriminate) ltac:(intros; reflexivity)
                ltac:(cbn; repeat split; reflexivity) ltac:(intros n; reflexivity)) as T.
  assert (O : ramfs_export_offsets (pure64_data_size (zeros 1000))
                (stage_three_data_size (zeros 3)) = (8192, 9216, 9216))
    by (vm_compute; reflexivity).
  rewrite O in T. destruct T as (image & w' & R & E & _).
  exists image, w'. split; [exact R|exact E].
Defined.

(** ** Reading an image back *)

Lemma decode_uint64_short (data : list byte) (pos : Z) (h : heap) :
  0 <= pos -> Z.of_nat (length data) < pos + 8 ->
  exists w', decode_uint64 (mkworld (mkFILE data pos) h) = Failed PURE64_EIO w'.
Proof.
  intros Hp Hl. unfold decode_uint64, bind, pure64_stream_read, fstream_read, fread.
  cbn [io mem f_data f_pos].
  set (got := load _ _ _).
  assert (L : Z.of_nat (length got) <> 8) by (unfold got; rewrite length_load; lia).
  destruct (Z.eqb_spec (Z.of_nat (length got)) 8); [contradiction|].
  cbn [negb is_error]. eexists. reflexivity.
Qed.

Lemma pure64_dir_import_short (data : list byte) (pos : Z) (h : heap) :
  0 <= pos -> Z.of_nat (length data) < pos + 24 ->
  exists w', pure64_dir_import (mkworld (mkFILE data pos) h) = Failed PURE64_EIO w'.
Proof.
  intros Hp Hl. unfold pure64_dir_import. cbn [io f_data pure64_dir_import_fuel].
  destruct (Z.lt_ge_cases (Z.of_nat (length data)) (pos + 8)) as [A|A].
  { destruct (decode_uint64_short data pos h Hp A) as (w' & E).
    exists w'. unfold bind at 1. now rewrite E. }
  unfold bind at 1. rewrite decode_uint64_enough by lia.
  destruct (Z.lt_ge_cases (Z.of_nat (length data)) (pos + 8 + 8)) as [B|B].
  { destruct (decode_uint64_short data (pos + 8) h ltac:(lia) B) as (w' & E).
    exists w'. unfold bind at 1. now rewrite E. }
  unfold bind at 1. rewrite decode_uint64_enough by lia.
  destruct (decode_uint64_short data (pos + 8 + 8) h ltac:(lia) ltac:(lia)) as (w' & E).
  exists w'. unfold bind at 1. now rewrite E.
Qed.

(** X25. [ramfs_import] returns [EXIT_FAILURE] when the image file
    cannot be opened, when [PURE64_DISK_LOCATION] is negative, and when
    the file ends before the 24 bytes of counts that the root directory
    takes at [PURE64_DISK_LOCATION]. *)
Theorem ramfs_import_bounds (PURE64_FS_SECTOR : Z) (image : option (list byte)) (h : heap) :
  match image with
  | None => True
  | Some data =>
      PURE64_FS_SECTOR < 0
      \/ Z.of_nat (length data) < PURE64_DISK_LOCATION PURE64_FS_SECTOR + 24
  end ->
  ramfs_import PURE64_FS_SECTOR image h = (EXIT_FAILURE, None).
Proof.
  destruct image as [data|]; [|reflexivity].
  unfold ramfs_import, PURE64_DISK_LOCATION. intros [Neg|Short].
  - unfold fseek. destruct (Z.ltb_spec (PURE64_FS_SECTOR * 512) 0); [reflexivity|lia].
  - destruct (Z.ltb_spec (PURE64_FS_SECTOR * 512) 0) as [N|P].
    + unfold fseek. destruct (Z.ltb_spec (PURE64_FS_SECTOR * 512) 0); [reflexivity|lia].
    + rewrite fseek_ok by exact P. cbn [Z.eqb negb f_data].
      unfold pure64_fs_import, bind.
      destruct (pure64_dir_import_short data (PURE64_FS_SECTOR * 512) h P Short) as (w' & E).
      now rewrite E.
Qed.

Lemma ramfs_import_bounds_witness :
  ramfs_import 16 (Some (zeros 8200)) plentiful = (EXIT_FAILURE, None)
  /\ ramfs_import 16 None plentiful = (EXIT_FAILURE, None).
Proof.
  split.
  - apply (ramfs_import_bounds 16 (Some (zeros 8200)) plentiful).
    right. vm_compute. reflexivity.
  - apply (ramfs_import_bounds 16 None plentiful). exact I.
Defined.

(** X26. [ramfs_import] reads from the fixed offset
    [PURE64_DISK_LOCATION], [ramfs_export] writes the tree at the offset
    it computes from the sizes of the two stage binaries.  When the two
    agree, importing the image that [ramfs_export] left returns
    [EXIT_SUCCESS] and the very file system that was exported. *)
Theorem ramfs_import_after_export
  (PURE64_FS_SECTOR : Z)
  (mbr_data pure64_data stage_three_data : list byte)
  (mbr_set_daps : list byte -> Z -> Z -> Z -> Z -> list byte)
  (fs : pure64_fs) (h h' : heap) :
  Z.of_nat (length mbr_data) = 512 ->
  pure64_data_size pure64_data <= 0x7f * 512 ->
  stage_three_data_size stage_three_data <= 0x7f * 512 ->
  (forall mbr s2 c2 s3 c3, length (mbr_set_daps mbr s2 c2 s3 c3) = length mbr) ->
  dir_fits (root fs) -> all_true h' ->
  PURE64_DISK_LOCATION PURE64_FS_SECTOR
  = snd (ramfs_export_offsets (pure64_data_size pure64_data)
           (stage_three_data_size stage_three_data)) ->
  exists image : FILE,
    ramfs_export mbr_data pure64_data stage_three_data mbr_set_daps fs h
    = (EXIT_SUCCESS, Some image)
    /\ ramfs_import PURE64_FS_SECTOR (Some (f_data image)) h' = (EXIT_SUCCESS, Some fs).
Proof.
  intros Hm H2 H3 Hd Hfits Hh Loc.
  pose proof (ramfs_export_importable mbr_data pure64_data stage_three_data mbr_set_daps
                fs h h' Hm H2 H3 Hd Hfits Hh) as T.
  destruct (ramfs_export_offsets (pure64_data_size pure64_data)
              (stage_three_data_size stage_three_data)) as [[st2 st3] fso] eqn:O.
  cbn [snd] in Loc.
  destruct T as (image & w' & R & E & P).
  assert (P0 : 0 <= fso).
  { unfold ramfs_export_offsets in O. injection O as _ _ <-. unfold u64.
    apply Z.mod_pos_bound. reflexivity. }
  exists image. split; [exact R|].
  unfold ramfs_import. rewrite Loc. rewrite fseek_ok by exact P0.
  cbn [Z.eqb negb f_data]. unfold pure64_fs_import, bind. rewrite E.
  unfold ret. destruct fs as [r]. reflexivity.
Qed.

Lemma ramfs_import_after_export_witness :
  let keep := fun (mbr : list byte) (_ _ _ _ : Z) => mbr in
  let fs := mkfs (mkdir [] [mkdir ["d"]%byte [] []] [mkfile ["a"]%byte [x01; x02]]) in
  exists image : FILE,
    ramfs_export (zeros 512) (zeros 1024) (zeros 512) keep fs plentiful
    = (EXIT_SUCCESS, Some image)
    /\ ramfs_import 19 (Some (f_data image)) plentiful = (EXIT_SUCCESS, Some fs).
Proof.
  intros keep fs.
  apply (ramfs_import_after_export 19 (zeros 512) (zeros 1024) (zeros 512) keep fs
           plentiful plentiful).
  - vm_compute. reflexivity.
  - vm_compute. discriminate.
  - vm_compute. discriminate.
  - intros. reflexivity.
  - cbn. repeat split; reflexivity.
  - intros n. reflexivity.
  - vm_compute. reflexivity.
Defined.

(** ** The command line *)

Lemma c_str_short_option (s_opt : byte) :
  c_str ["-"%byte; s_opt; x00] = c_str ["-"%byte; s_opt].
Proof.
  rewrite !c_str_cons. replace (Byte.eqb "-" x00) with false by reflexivity.
  destruct (Byte.eqb s_opt x00); reflexivity.
Qed.

(** X27. [check_opt (arg, opt, s_opt)] is true exactly when [arg],
    read as a C string, is the short option (a '-' followed by the
    character [s_opt]) or the long option (two '-' followed by
    [opt]). *)
Theorem check_opt_iff (arg opt : list byte) (s_opt : byte) :
  check_opt arg opt s_opt = true
  <-> c_str arg = c_str ["-"%byte; s_opt]
      \/ c_str arg = "-"%byte :: "-"%byte :: c_str opt.
Proof.
  unfold check_opt, strcmp.
  destruct (Z.eqb_spec (pure64_strcmp ["-"%byte; s_opt; x00] arg) 0) as [S|S].
  - split; [intros _|reflexivity]. left.
    apply pure64_strcmp_zero in S. now rewrite <- S, c_str_short_option.
  - assert (NS : c_str arg <> c_str ["-"%byte; s_opt]).
    { intros E. apply S. apply pure64_strcmp_zero. now rewrite c_str_short_option. }
    destruct arg as [|a0 [|a1 rest]]; unfold char_at; cbn [nth skipn].
    + cbn [Byte.eqb andb]. split; [discriminate|].
      intros [E|E]; [contradiction|rewrite c_str_nil in E; discriminate].
    + replace (Byte.eqb x00 "-") with false by reflexivity.
      rewrite andb_false_r. cbn [andb]. split; [discriminate|].
      intros [E|E]; [contradiction|].
      rewrite c_str_cons, c_str_nil in E. destruct (Byte.eqb a0 x00); discriminate.
    + rewrite !c_str_cons.
      destruct (Byte.eqb a0 "-") eqn:E0; cbn [andb].
      * apply byte_eqb_eq in E0. subst a0.
        replace (Byte.eqb "-" x00) with false by reflexivity.
        destruct (Byte.eqb a1 "-") eqn:E1; cbn [andb].
        -- apply byte_eqb_eq in E1. subst a1.
           replace (Byte.eqb "-" x00) with false by reflexivity.
           destruct (Z.eqb_spec (pure64_strcmp rest opt) 0) as [R|R].
           ++ split; [intros _|reflexivity]. right.
              apply pure64_strcmp_zero in R. now rewrite R.
           ++ split; [discriminate|]. intros [E|E].
              ** rewrite !c_str_cons in NS.
                 replace (Byte.eqb "-" x00) with false in NS by reflexivity.
                 contradiction.
              ** elim R. apply pure64_strcmp_zero. now injection E.
        -- split; [discriminate|]. intros [E|E].
           ++ rewrite !c_str_cons in NS.
              replace (Byte.eqb "-" x00) with false in NS by reflexivity.
              contradiction.
           ++ destruct (Byte.eqb a1 x00); [discriminate|].
              injection E as E _. subst a1. discriminate.
      * split; [discriminate|]. intros [E|E].
        -- rewrite !c_str_cons in NS. contradiction.
        -- destruct (Byte.eqb a0 x00); [discriminate|].
           injection E as E _. subst a0. discriminate.
Qed.

Lemma last_cons {A : Type} (l : list A) (x d : A) : last (x :: l) d = last l x.
Proof.
  revert x d. induction l as [|y l IH]; intros x d; [reflexivity|].
  change (last (x :: y :: l) d) with (last (y :: l) d). now rewrite !IH.
Qed.

Lemma main_options_sound (n : nat) :
  forall argv filename found rest,
    (length argv <= n)%nat ->
    main_options argv filename = Some (found, rest) ->
    exists pairs,
      Forall (fun p => check_opt (fst p) opt_file "f" = true
                       /\ check_opt (fst p) opt_help "h" = false) pairs
      /\ ((argv = file_options pairs ++ rest
           /\ found = last (map (fun p => Some (snd p)) pairs) filename
           /\ match rest with
              | [] => True
              | command :: _ => is_opt command = false
              end)
          \/ (exists option, argv = file_options pairs ++ [option]
                /\ check_opt option opt_file "f" = true
                /\ found = None /\ rest = [])).
Proof.
  induction n as [|n IH]; intros argv filename found rest Hn H.
  - destruct argv; [|cbn [length] in Hn; lia].
    cbn [main_options] in H. injection H as <- <-.
    exists []. split; [constructor|]. left. cbn. tauto.
  - destruct argv as [|arg argv]; cbn [main_options] in H.
    + injection H as <- <-. exists []. split; [constructor|]. left. cbn. tauto.
    + cbn [length] in Hn.
      destruct (check_opt arg opt_help "h") eqn:Hh; [discriminate|].
      destruct (check_opt arg opt_file "f") eqn:Hf.
      * destruct argv as [|value argv'].
        -- injection H as <- <-. exists []. split; [constructor|].
           right. exists arg. cbn. tauto.
        -- cbn [length] in Hn.
           destruct (IH argv' (Some value) found rest ltac:(lia) H) as (pairs & F & C).
           exists ((arg, value) :: pairs). split; [constructor; [cbn; tauto|exact F]|].
           destruct C as [(A & L & R)|(o & A & O & -> & ->)].
           ++ left. split; [cbn [file_options flat_map fst snd app]; now rewrite A|].
              split; [|exact R]. cbn [map snd]. rewrite L. symmetry. apply last_cons.
           ++ right. exists o. split; [|tauto].
              cbn [file_options flat_map fst snd app]. now rewrite A.
      * destruct (is_opt arg) eqn:Io; [discriminate|].
        injection H as <- <-. exists []. split; [constructor|]. left. cbn. tauto.
Qed.

(** X28. When [main] gets as far as its command, the arguments before
    the command are pairs of a file option ("-f" or "--file") and a
    value, taken without a look at the value; the command itself does
    not start with '-'; and the image file is the value of the last
    pair, or "pure64.img" when there is none. *)
Theorem main_command_sound (argv : list (list byte))
  (filename command : list byte) (args : list (list byte)) :
  main_command argv = Some (filename, command, args) ->
  is_opt command = false
  /\ exists pairs,
       argv = file_options pairs ++ command :: args
       /\ Forall (fun p => check_opt (fst p) opt_file "f" = true) pairs
       /\ filename = last (map snd pairs) default_filename.
Proof.
  unfold main_command.
  destruct (main_options argv (Some default_filename)) as [[[f|] [|c rest]]|] eqn:E;
    try discriminate.
  intros H. injection H as <- <- <-.
  destruct (main_options_sound (length argv) argv _ _ _ (le_n _) E) as (pairs & F & C).
  destruct C as [(A & L & R)|(o & _ & _ & N & _)]; [|discriminate].
  split; [exact R|]. exists pairs. split; [exact A|]. split.
  - eapply Forall_impl; [|exact F]. cbv beta. tauto.
  - clear - L. revert L. generalize default_filename.
    induction pairs as [|p pairs IH]; intros d L.
    + cbn [map last] in *. now injection L.
    + cbn [map] in *. rewrite last_cons in L. rewrite last_cons. exact (IH _ L).
Qed.

Lemma main_command_sound_witness :
  let argv :=
    [["-"; "f"]%byte; ["-"; "h"]%byte; ["-"; "-"; "f"; "i"; "l"; "e"]%byte;
     ["a"; "."; "i"; "m"; "g"]%byte; ["l"; "s"]%byte; ["/"]%byte] in
  main_command argv = Some (["a"; "."; "i"; "m"; "g"]%byte, ["l"; "s"]%byte, [["/"]%byte])
  /\ is_opt ["l"; "s"]%byte = false.
Proof.
  intros argv.
  assert (E : main_command argv
              = Some (["a"; "."; "i"; "m"; "g"]%byte, ["l"; "s"]%byte, [["/"]%byte]))
    by (vm_compute; reflexivity).
  split; [exact E|].
  exact (proj1 (main_command_sound argv _ _ _ E)).
Defined.

(** X29. After any number of file options with their values, [main]
    returns [EXIT_FAILURE] before it runs a command: when the
    arguments end there, when the next argument is the help option, when
    it is a file option that is the last argument, and when it is any
    other argument that starts with '-'. *)
Theorem main_command_failures (pairs : list (list byte * list byte)) :
  Forall (fun p => check_opt (fst p) opt_file "f" = true
                   /\ check_opt (fst p) opt_help "h" = false) pairs ->
  (* no command *)
  main_command (file_options pairs) = None
  (* the help option *)
  /\ (forall arg rest,
        check_opt arg opt_help "h" = true ->
        main_command (file_options pairs ++ arg :: rest) = None)
  (* the file option without a value *)
  /\ (forall arg,
        check_opt arg opt_file "f" = true ->
        main_command (file_options pairs ++ [arg]) = None)
  (* any other option *)
  /\ (forall arg rest,
        is_opt arg = true ->
        check_opt arg opt_file "f" = false ->
        main_command (file_options pairs ++ arg :: rest) = None).
Proof.
  intros F. unfold main_command. generalize (Some default_filename) as fn.
  induction F as [|[o v] pairs [Of Oh] F IH]; intros fn.
  - cbn [file_options flat_map app main_options]. split; [now destruct fn|].
    split; [|split].
    + intros arg rest H. now rewrite H.
    + intros arg H. rewrite H. now destruct (check_opt arg opt_help "h").
    + intros arg rest I H. rewrite I, H. now destruct (check_opt arg opt_help "h").
  - cbn [fst] in Of, Oh.
    cbn [file_options flat_map fst snd app main_options]. rewrite Oh, Of.
    fold (file_options pairs). exact (IH (Some v)).
Qed.

Lemma main_command_failures_witness :
  main_command [["-"; "f"]%byte; ["x"]%byte] = None
  /\ main_command [["-"; "f"]%byte; ["x"]%byte; ["-"; "-"; "h"; "e"; "l"; "p"]%byte; ["l"; "s"]%byte]
     = None
  /\ main_command [["-"; "f"]%byte; ["x"]%byte; ["-"; "f"]%byte] = None.
Proof.
  assert (F : Forall (fun p => check_opt (fst p) opt_file "f" = true
                               /\ check_opt (fst p) opt_help "h" = false)
                [(["-"; "f"]%byte, ["x"]%byte)]).
  { constructor; [split; reflexivity|constructor]. }
  destruct (main_command_failures _ F) as (A & B & C & _).
  split; [exact A|]. split.
  - apply (B ["-"; "-"; "h"; "e"; "l"; "p"]%byte [["l"; "s"]%byte]). reflexivity.
  - apply (C ["-"; "f"]%byte). reflexivity.
Defined.

(** ** What the checksum detects *)

(** One round of the register is a bijection of the 32-bit values: the top
    bit of the result is the bit shifted out, because the polynomial has
    its top bit set.  So a difference between two registers survives every
    later byte and the final complement. *)

Lemma lxor_cancel_r (a b c : Z) : Z.lxor a c = Z.lxor b c -> a = b.
Proof.
  intros H. rewrite <- (Z.lxor_0_r a), <- (Z.lxor_0_r b), <- (Z.lxor_nilpotent c).
  now rewrite <- !Z.lxor_assoc, H.
Qed.

Lemma lxor_cancel_l (a b c : Z) : Z.lxor c a = Z.lxor c b -> a = b.
Proof. rewrite !(Z.lxor_comm c). apply lxor_cancel_r. Qed.

Lemma shiftr1_bit31 (reg : Z) : 0 <= reg < 2 ^ 32 -> Z.testbit (Z.shiftr reg 1) 31 = false.
Proof.
  intros H. pose proof (shiftr1_range reg H) as R.
  destruct (Z.eq_dec (Z.shiftr reg 1) 0) as [->|N]; [reflexivity|].
  apply Z.bits_above_log2; [lia|].
  apply Z.log2_lt_pow2; lia.
Qed.

Lemma shiftr1_odd_inj (x y : Z) :
  Z.testbit x 0 = Z.testbit y 0 -> Z.shiftr x 1 = Z.shiftr y 1 -> x = y.
Proof.
  intros B S. rewrite !Z.bit0_odd in B.
  rewrite !Z.shiftr_div_pow2 in S by lia. change (2 ^ 1) with 2 in S.
  rewrite (Z.div_mod x 2), (Z.div_mod y 2) by lia.
  rewrite !Zmod_odd, B, S. reflexivity.
Qed.

Lemma crc32_round_reference_inj (x y : Z) :
  0 <= x < 2 ^ 32 -> 0 <= y < 2 ^ 32 ->
  crc32_round_reference x = crc32_round_reference y -> x = y.
Proof.
  intros X Y E.
  assert (B : forall r, 0 <= r < 2 ^ 32 ->
            Z.testbit (crc32_round_reference r) 31 = Z.testbit r 0).
  { intros r R. unfold crc32_round_reference.
    destruct (Z.testbit r 0).
    - rewrite Z.lxor_spec, shiftr1_bit31 by exact R. reflexivity.
    - now apply shiftr1_bit31. }
  assert (B0 : Z.testbit x 0 = Z.testbit y 0).
  { now rewrite <- (B x X), <- (B y Y), E. }
  apply shiftr1_odd_inj; [exact B0|].
  unfold crc32_round_reference in E. rewrite <- B0 in E.
  destruct (Z.testbit x 0); [now apply lxor_cancel_r in E|exact E].
Qed.

Lemma crc32_rounds_inj (n : nat) (x y : Z) :
  0 <= x < 2 ^ 32 -> 0 <= y < 2 ^ 32 ->
  Nat.iter n crc32_round_reference x = Nat.iter n crc32_round_reference y -> x = y.
Proof.
  intros X Y. induction n as [|n IH]; simpl; [auto|].
  intros E. apply IH.
  apply crc32_round_reference_inj; [apply crc32_rounds, X|apply crc32_rounds, Y|exact E].
Qed.

Lemma lxor_byte_range (reg : Z) (b : byte) :
  0 <= reg < 2 ^ 32 -> 0 <= Z.lxor reg (byte_to_Z b) < 2 ^ 32.
Proof.
  intros H. apply lxor_range; [lia|lia|]. pose proof (byte_to_Z_range b). lia.
Qed.

Lemma crc32_byte_reference_inj (x y : Z) (a b : byte) :
  0 <= x < 2 ^ 32 -> 0 <= y < 2 ^ 32 ->
  crc32_byte_reference x a = crc32_byte_reference y b ->
  Z.lxor x (byte_to_Z a) = Z.lxor y (byte_to_Z b).
Proof.
  intros X Y E. apply (crc32_rounds_inj 8); [now apply lxor_byte_range..|exact E].
Qed.

Lemma crc32_register_reference_inj (input : list byte) (x y : Z) :
  0 <= x < 2 ^ 32 -> 0 <= y < 2 ^ 32 ->
  crc32_register_reference x input = crc32_register_reference y input -> x = y.
Proof.
  revert x y. induction input as [|b input IH]; intros x y X Y E; [exact E|].
  rewrite !crc32_register_reference_cons in E.
  apply IH in E; [|apply crc32_byte_agrees, X|apply crc32_byte_agrees, Y].
  apply crc32_byte_reference_inj in E; [|exact X|exact Y].
  now apply lxor_cancel_r in E.
Qed.

Lemma crc32_register_reference_app (pre post : list byte) (reg : Z) :
  crc32_register_reference reg (pre ++ post)
  = crc32_register_reference (crc32_register_reference reg pre) post.
Proof.
  revert reg. induction pre as [|b pre IH]; intros reg; [reflexivity|].
  cbn [app]. rewrite !crc32_register_reference_cons. apply IH.
Qed.

(** X30. The checksum notices every change of a single byte: two buffers
    that agree everywhere except at one position, where the bytes [a] and
    [b] differ, never have the same [crc32]. *)
Theorem crc32_detects_byte_change (pre post : list byte) (a b : byte) :
  a <> b -> crc32 (pre ++ a :: post) <> crc32 (pre ++ b :: post).
Proof.
  intros N E. apply N. clear N.
  assert (I : 0 <= 0xFFFFFFFF < 2 ^ 32) by lia.
  unfold crc32 in E.
  destruct (crc32_register (pre ++ a :: post) _ I) as [Ea Ra].
  destruct (crc32_register (pre ++ b :: post) _ I) as [Eb Rb].
  rewrite Ea, Eb, !lnot_u32 in E by assumption.
  apply lxor_cancel_r in E.
  rewrite !crc32_register_reference_app, !crc32_register_reference_cons in E.
  destruct (crc32_register pre _ I) as [_ Rp].
  apply crc32_register_reference_inj in E;
    [|apply crc32_byte_agrees, Rp|apply crc32_byte_agrees, Rp].
  apply crc32_byte_reference_inj in E; [|exact Rp|exact Rp].
  apply lxor_cancel_l in E. now apply byte_to_Z_inj.
Qed.

Lemma crc32_detects_byte_change_witness :
  crc32 ([x01] ++ x02 :: [x03]) <> crc32 ([x01] ++ x04 :: [x03]).
Proof. apply crc32_detects_byte_change. discriminate. Defined.
